(** * MarkovChain: scaled forward/backward recursions, sampling and duration
      statistics of a first-order discrete Markov chain

    Shallow embedding of [src/PattRecClasses/MarkovChain.py].

    Numbers.  A numpy [float64] is modelled by [float64] below: a real
    number, or one of the three special values [+inf], [-inf], [nan].
    Arithmetic on finite values is exact real arithmetic (rounding, overflow
    and the sign of zero are not modelled); arithmetic that involves a
    special value, a division by zero or a logarithm outside its domain
    follows IEEE 754 as numpy does (a warning, never an exception).
    A statement that equates finite values (a column sum with 1, the product
    of the scale factors with the likelihood, an entry with a closed form)
    is therefore a statement about the recursion in real arithmetic, which
    the [float64] code meets up to rounding only; such statements begin
    with the words: in exact arithmetic.  Statements about exceptions,
    shapes, special values and the causal structure of the recursion do not
    depend on rounding.

    Arrays.  A 1-D array is a list, a 2-D array is the list of its rows (a
    2-D array without rows has no columns either).  The scale-factor array
    [c], which the source allocates with shape [(n, 1)], is kept as the list
    of its [n] entries; an entry [c[i]], of shape [(1,)] in the source, is a
    single value here.  (Where [backward] stores [sum_products / c[t]] in
    one cell of [beta_hat], a [c[t]] of shape [(1,)] relies on numpy's
    conversion of a one-element array to a scalar, which numpy deprecates
    from 1.25 and refuses with [ValueError] from 2.4; [backward] below is
    the function on a 1-D [c].)

    Exceptions.  Functions that can raise return a [result].

    Randomness.  [np.random.choice] is a parameter of [rand].

    The development has three parts: the embedding of numpy and of the
    class; the definitions the statements need (shapes of a model, the
    likelihood as a sum over state paths, the two recursions as equations);
    and the results: construction and the shape check of [forward], the
    duration statistics, sampling, then the forward recursion (shapes, the
    behaviour at a zero mass, and in exact arithmetic: every column of
    [a_hat] sums to one, the product of the scale factors is the
    likelihood) and, in exact arithmetic, the forward-backward identity. *)

From Stdlib Require Import Reals Lra Lia List Arith Bool.
Import ListNotations.

Set Implicit Arguments.

Open Scope R_scope.

(* ================================================================== *)
(** * Exceptions *)

Inductive exn : Type :=
| AssertionError
| IndexError
| ValueError.

Inductive result (X : Type) : Type :=
| Ok (x : X)
| Err (e : exn).

Arguments Ok {X} x.
Arguments Err {X} e.

Definition bind {X Y : Type} (r : result X) (k : X -> result Y) : result Y :=
  match r with
  | Ok x => k x
  | Err e => Err e
  end.

Notation "x <- e ;; k" := (bind e (fun x => k))
  (at level 61, e at next level, right associativity).
Notation "' p <- e ;; k" := (bind e (fun x => match x with p => k end))
  (at level 61, p pattern, e at next level, right associativity).

(** [for i in l: s = body(i, s)] *)
Fixpoint for_each {S : Type} (l : list nat) (body : nat -> S -> result S)
  (s : S) : result S :=
  match l with
  | [] => Ok s
  | i :: l' => s' <- body i s ;; for_each l' body s'
  end.

(* ================================================================== *)
(** * float64 *)

Inductive float64 : Type :=
| Fin (r : R)
| PInf
| NInf
| NaN.

Definition Rsign (r : R) : comparison :=
  match total_order_T r 0 with
  | inleft (left _) => Lt
  | inleft (right _) => Eq
  | inright _ => Gt
  end.

(** The infinity of a given sign; a zero sign gives [nan] (as in [0 * inf]
    and [0 / 0]). *)
Definition finf (s : comparison) : float64 :=
  match s with
  | Lt => NInf
  | Eq => NaN
  | Gt => PInf
  end.

Definition fopp (x : float64) : float64 :=
  match x with
  | Fin a => Fin (- a)
  | PInf => NInf
  | NInf => PInf
  | NaN => NaN
  end.

Definition fadd (x y : float64) : float64 :=
  match x, y with
  | NaN, _ | _, NaN => NaN
  | Fin a, Fin b => Fin (a + b)
  | PInf, NInf | NInf, PInf => NaN
  | PInf, _ | _, PInf => PInf
  | NInf, _ | _, NInf => NInf
  end.

Definition fsub (x y : float64) : float64 := fadd x (fopp y).

Definition fmul (x y : float64) : float64 :=
  match x, y with
  | NaN, _ | _, NaN => NaN
  | Fin a, Fin b => Fin (a * b)
  | Fin a, PInf | PInf, Fin a => finf (Rsign a)
  | Fin a, NInf | NInf, Fin a => finf (CompOpp (Rsign a))
  | PInf, PInf | NInf, NInf => PInf
  | PInf, NInf | NInf, PInf => NInf
  end.

Definition fdiv (x y : float64) : float64 :=
  match x, y with
  | NaN, _ | _, NaN => NaN
  | Fin a, Fin b =>
      match Rsign b with
      | Eq => finf (Rsign a)
      | _ => Fin (a / b)
      end
  | Fin _, _ => Fin 0
  | PInf, Fin b => match Rsign b with Lt => NInf | _ => PInf end
  | NInf, Fin b => match Rsign b with Lt => PInf | _ => NInf end
  | _, _ => NaN
  end.

(** [np.log]: [log 0 = -inf], [log] of a negative number is [nan]. *)
Definition flog (x : float64) : float64 :=
  match x with
  | Fin a =>
      match Rsign a with
      | Gt => Fin (ln a)
      | Eq => NInf
      | Lt => NaN
      end
  | PInf => PInf
  | NInf => NaN
  | NaN => NaN
  end.

(** [np.exp]: [exp (-inf) = 0]. *)
Definition fexp (x : float64) : float64 :=
  match x with
  | Fin a => Fin (exp a)
  | PInf => PInf
  | NInf => Fin 0
  | NaN => NaN
  end.

(** Conversion of a Python int (here always a non-negative index). *)
Definition of_nat (n : nat) : float64 := Fin (INR n).

Definition is_fin (x : float64) : Prop :=
  match x with
  | Fin _ => True
  | _ => False
  end.

Definition val (x : float64) : R :=
  match x with
  | Fin a => a
  | _ => 0
  end.

(* ================================================================== *)
(** * Python lists and numpy arrays *)

Definition array1 := list float64.
Definition array2 := list (list float64).

(** [l[i]], [i >= 0] *)
Definition getitem {X : Type} (l : list X) (i : nat) : result X :=
  match nth_error l i with
  | Some x => Ok x
  | None => Err IndexError
  end.

(** [l[-k]], [k >= 1] *)
Definition getitem_neg {X : Type} (l : list X) (k : nat) : result X :=
  if (k <=? length l)%nat then getitem l (length l - k) else Err IndexError.

Fixpoint upd {X : Type} (i : nat) (x : X) (l : list X) : list X :=
  match l, i with
  | [], _ => []
  | _ :: t, O => x :: t
  | h :: t, S i' => h :: upd i' x t
  end.

(** [l[i] = x], [i >= 0] *)
Definition setitem {X : Type} (l : list X) (i : nat) (x : X) : result (list X) :=
  if (i <? length l)%nat then Ok (upd i x l) else Err IndexError.

Fixpoint map2 {X Y Z : Type} (f : X -> Y -> Z) (l : list X) (l' : list Y) : list Z :=
  match l, l' with
  | x :: t, y :: t' => f x y :: map2 f t t'
  | _, _ => []
  end.

Module np.

Definition nrows (M : array2) : nat := length M.
Definition ncols (M : array2) : nat := length (hd [] M).

(** [np.shape(M)] of a 2-D array *)
Definition shape (M : array2) : nat * nat := (nrows M, ncols M).

Definition zeros (n : nat) : array1 := repeat (Fin 0) n.
Definition ones (n : nat) : array1 := repeat (Fin 1) n.
Definition zeros2 (r c : nat) : array2 := repeat (zeros c) r.
Definition ones2 (r c : nat) : array2 := repeat (ones c) r.

(** [np.arange(a, b)] *)
Definition arange (a b : nat) : list nat := seq a (b - a).

(** [np.eye(n)] *)
Definition eye (n : nat) : array2 :=
  map (fun i => map (fun j => if (i =? j)%nat then Fin 1 else Fin 0) (seq 0 n))
      (seq 0 n).

(** [np.sum(v)] *)
Definition sum (v : array1) : float64 := fold_left fadd v (Fin 0).

(** [np.prod(v)] *)
Definition prod (v : array1) : float64 := fold_left fmul v (Fin 1).

(** The column [M[:, j]] for [j] in range. *)
Definition column (j : nat) (M : array2) : array1 :=
  map (fun row => nth j row NaN) M.

(** [M[:, j]] *)
Definition getcol (M : array2) (j : nat) : result array1 :=
  if (j <? ncols M)%nat then Ok (column j M) else Err IndexError.

(** [M[:, -1]] *)
Definition lastcol (M : array2) : result array1 :=
  if (1 <=? ncols M)%nat then Ok (column (ncols M - 1) M) else Err IndexError.

(** [M[:, :-1]] *)
Definition droplastcol (M : array2) : array2 := map (@removelast float64) M.

(** [M[i, j]] *)
Definition get2 (M : array2) (i j : nat) : result float64 :=
  row <- getitem M i ;; getitem row j.

(** [M[i, j] = x] *)
Definition set2 (M : array2) (i j : nat) (x : float64) : result array2 :=
  row <- getitem M i ;;
  row' <- setitem row j x ;;
  setitem M i row'.

(** Broadcasting of a 1-D array to length [n]. *)
Definition broadcast_to (n : nat) (v : array1) : result array1 :=
  if (length v =? n)%nat then Ok v
  else if (length v =? 1)%nat then Ok (repeat (hd NaN v) n)
  else Err ValueError.

Definition bdim (a b : nat) : result nat :=
  if (a =? b)%nat then Ok a
  else if (a =? 1)%nat then Ok b
  else if (b =? 1)%nat then Ok a
  else Err ValueError.

(** [M[:, j] = v], [v] 1-D *)
Definition setcol (M : array2) (j : nat) (v : array1) : result array2 :=
  if (j <? ncols M)%nat then
    v' <- broadcast_to (nrows M) v ;;
    Ok (map2 (fun row x => upd j x row) M v')
  else Err IndexError.

(** Elementwise binary operation on 1-D arrays, with broadcasting. *)
Definition elementwise (f : float64 -> float64 -> float64) (v w : array1)
  : result array1 :=
  n <- bdim (length v) (length w) ;;
  v' <- broadcast_to n v ;;
  w' <- broadcast_to n w ;;
  Ok (map2 f v' w').

Definition multiply := elementwise fmul.

(** [v / x] for a 1-D array [v] and a single value [x] *)
Definition divide_scalar (v : array1) (x : float64) : array1 :=
  map (fun a => fdiv a x) v.

(** Broadcasting of a 2-D array to shape [(r, c)]; the shapes are
    compatible when this is called. *)
Definition stretch {X : Type} (d : X) (n : nat) (l : list X) : list X :=
  if (length l =? n)%nat then l else repeat (hd d l) n.

(** [M - N] for 2-D arrays, with broadcasting. *)
Definition subtract2 (M N : array2) : result array2 :=
  r <- bdim (nrows M) (nrows N) ;;
  c <- bdim (ncols M) (ncols N) ;;
  let M' := stretch [] r (map (stretch NaN c) M) in
  let N' := stretch [] r (map (stretch NaN c) N) in
  Ok (map2 (map2 fsub) M' N').

(** [M.T] *)
Definition transpose (M : array2) : array2 :=
  map (fun j => column j M) (seq 0 (ncols M)).

(** Inner product of two 1-D arrays of the same length. *)
Definition inner (v w : array1) : float64 := sum (map2 fmul v w).

(** [v @ w], both 1-D *)
Definition dot (v w : array1) : result float64 :=
  if (length v =? length w)%nat then Ok (inner v w) else Err ValueError.

(** The entries of [v @ M] for [v] as long as [M] has rows. *)
Definition vm (v : array1) (M : array2) : array1 :=
  map (fun j => inner v (column j M)) (seq 0 (ncols M)).

(** [v @ M], [v] 1-D and [M] 2-D *)
Definition vecmat (v : array1) (M : array2) : result array1 :=
  if (length v =? nrows M)%nat then Ok (vm v M) else Err ValueError.

(** [M @ v], [M] 2-D and [v] 1-D *)
Definition matvec (M : array2) (v : array1) : result array1 :=
  if (ncols M =? length v)%nat
  then Ok (map (fun row => inner row v) M)
  else Err ValueError.

(** [np.diag(M)] of a 2-D array: its main diagonal *)
Definition diag (M : array2) : array1 :=
  map (fun i => nth i (nth i M []) NaN) (seq 0 (Nat.min (nrows M) (ncols M))).

End np.

(* ================================================================== *)
(** * class MarkovChain *)

Module MarkovChain.

Record t : Type := mk {
  q : array1;          (* InitialProb(i) = P[S(1) = i] *)
  A : array2;          (* TransitionProb(i,j) = P[S(t)=j | S(t-1)=i] *)
  nStates : nat;
  is_finite : bool
}.

(** [MarkovChain(initial_prob, transition_prob)] *)
Definition __init__ (initial_prob : array1) (transition_prob : array2)
  : result t :=
  let nStates := fst (np.shape transition_prob) in
  let is_finite :=
    negb (fst (np.shape transition_prob) =? snd (np.shape transition_prob))%nat in
  Ok (mk initial_prob transition_prob nStates is_finite).

Definition probDuration (self : t) (tmax : nat) : result array1 :=
  let pD := np.zeros tmax in
  if is_finite self then
    M <- np.subtract2 (np.eye (nStates self)) (np.transpose (A self)) ;;
    pSt <- np.matvec M (q self) ;;
    ' (pD, _) <-
      for_each (seq 0 tmax)
        (fun t '(pD, pSt) =>
           pD <- setitem pD t (np.sum pSt) ;;
           pSt <- np.matvec (np.transpose (A self)) pSt ;;
           Ok (pD, pSt))
        (pD, pSt) ;;
    Ok pD
  else Ok pD.

Definition probStateDuration (self : t) (tmax : nat) : array2 :=
  let t := map of_nat (np.arange 0 tmax) in
  let aii := np.diag (A self) in
  let logpD :=
    map (fun a => map (fun t => fadd (fmul (flog a) t) (flog (fsub (Fin 1) a))) t)
        aii in
  let pD := map (map fexp) logpD in
  pD.

Definition meanStateDuration (self : t) : array1 :=
  map (fun a => fdiv (Fin 1) (fsub (Fin 1) a)) (np.diag (A self)).

(** ** rand

    [np.random.choice(a, p = p)] is a library call: it is a parameter
    [choice] of the model, which threads the state [rng] of the random
    generator and may raise (numpy rejects a [p] that is not a
    probability vector of the size of [a]). *)
Section Rand.

Variable rng : Type.
Variable choice : list nat -> array1 -> rng -> result (nat * rng).

(** The loop of the infinite-duration branch. *)
Fixpoint rand_loop_infinite (self : t) (l : list nat) (S : list nat) (g : rng)
  : result (list nat * rng) :=
  match l with
  | [] => Ok (S, g)
  | i :: l' =>
      prev <- getitem S (i - 1) ;;
      row <- getitem (A self) (prev - 1) ;;
      ' (next_state, g) <- choice (np.arange 1 (nStates self + 1)) row g ;;
      rand_loop_infinite self l' (S ++ [next_state]) g
  end.

(** The loop of the finite-duration branch, left by [return S] when the
    END state is drawn. *)
Fixpoint rand_loop_finite (self : t) (l : list nat) (S : list nat) (g : rng)
  : result (list nat * rng) :=
  match l with
  | [] => Ok (S, g)
  | i :: l' =>
      prev <- getitem S (i - 1) ;;
      row <- getitem (A self) (prev - 1) ;;
      ' (next_state, g) <- choice (np.arange 1 (nStates self + 2)) row g ;;
      if (next_state =? nStates self + 1)%nat then Ok (S, g)
      else rand_loop_finite self l' (S ++ [next_state]) g
  end.

(** The result is [None] when the function ends without [return]. *)
Definition rand (self : t) (tmax : nat) (g : rng)
  : result (option (list nat) * rng) :=
  if negb (is_finite self) then
    ' (s1, g) <- choice (np.arange 1 (nStates self + 1)) (q self) g ;;
    let S := [] ++ [s1] in
    if (1 <? tmax)%nat then
      ' (S, g) <- rand_loop_infinite self (np.arange 1 tmax) S g ;;
      Ok (Some S, g)
    else Ok (None, g)
  else
    ' (s1, g) <- choice (np.arange 1 (nStates self + 1)) (q self) g ;;
    let S := [] ++ [s1] in
    if (1 <? tmax)%nat then
      ' (S, g) <- rand_loop_finite self (np.arange 1 tmax) S g ;;
      Ok (Some S, g)
    else Ok (None, g).

End Rand.

(** ** forward *)

(** One pass of the loop body shared by the two branches of [forward],
    [Au] being [A[:, :-1]] or [A]. *)
Definition forward_step (Au : array2) (pX : array2) (i : nat)
  (s : array2 * array1) : result (array2 * array1) :=
  let '(a_hat, c) := s in
  pXi <- np.getcol pX i ;;
  a_prev <- np.getcol a_hat (i - 1) ;;
  v <- np.vecmat a_prev Au ;;
  a_temp <- np.multiply pXi v ;;
  c <- setitem c i (np.sum a_temp) ;;
  ci <- getitem c i ;;
  a_hat <- np.setcol a_hat i (np.divide_scalar a_temp ci) ;;
  Ok (a_hat, c).

(** Initialization and forward steps, for a scale array of [clen]
    entries. *)
Definition forward_steps (self : t) (Au : array2) (pX : array2) (clen : nat)
  : result (array2 * array1) :=
  let '(nStates, nObservations) := np.shape pX in
  if negb (nStates =? MarkovChain.nStates self)%nat then Err AssertionError
  else
    let a_hat := np.ones2 nStates nObservations in
    let c := np.ones clen in
    pX0 <- np.getcol pX 0 ;;
    a_temp <- np.multiply (q self) pX0 ;;
    c <- setitem c 0 (np.sum a_temp) ;;
    c0 <- getitem c 0 ;;
    a_hat <- np.setcol a_hat 0 (np.divide_scalar a_temp c0) ;;
    for_each (np.arange 1 nObservations) (forward_step Au pX) (a_hat, c).

Definition forward (self : t) (pX : array2) : result (array2 * array1) :=
  let nObservations := snd (np.shape pX) in
  if is_finite self then
    ' (a_hat, c) <-
      forward_steps self (np.droplastcol (A self)) pX (nObservations + 1) ;;
    (* exit for finite *)
    a_last <- np.getcol a_hat (nObservations - 1) ;;
    a_end <- np.lastcol (A self) ;;
    e <- np.dot a_last a_end ;;
    c <- setitem c nObservations e ;;
    Ok (a_hat, c)
  else
    forward_steps self (A self) pX nObservations.

(** ** backward *)

(** [sum_products] after the loop over [j]. *)
Definition backward_sum (self : t) (pX beta_hat : array2) (t i : nat)
  : result float64 :=
  for_each (seq 0 (nStates self))
    (fun j sum_products =>
       a <- np.get2 (A self) i j ;;
       x <- np.get2 pX j (t + 1) ;;
       b <- np.get2 beta_hat j (t + 1) ;;
       Ok (fadd sum_products (fmul (fmul a x) b)))
    (Fin 0).

Definition backward_step (self : t) (c : array1) (pX : array2) (t : nat)
  (beta_hat : array2) : result array2 :=
  for_each (seq 0 (nStates self))
    (fun i beta_hat =>
       sum_products <- backward_sum self pX beta_hat t i ;;
       ct <- getitem c t ;;
       np.set2 beta_hat i t (fdiv sum_products ct))
    beta_hat.

Definition backward (self : t) (c : array1) (pX : array2) : result array2 :=
  let nStates := nStates self in
  let nSamples := snd (np.shape pX) in
  let beta_hat := np.zeros2 nStates nSamples in
  beta_hat <-
    (if is_finite self then
       a_end <- np.lastcol (A self) ;;
       beta_hat <- np.setcol beta_hat (nSamples - 1) a_end ;;
       b_last <- np.lastcol beta_hat ;;
       c1 <- getitem_neg c 1 ;;
       c2 <- getitem_neg c 2 ;;
       np.setcol beta_hat (nSamples - 1) (np.divide_scalar b_last (fmul c1 c2))
     else
       c1 <- getitem_neg c 1 ;;
       np.setcol beta_hat (nSamples - 1) [fdiv (Fin 1) c1]) ;;
  for_each (rev (seq 0 (nSamples - 1))) (backward_step self c pX) beta_hat.

End MarkovChain.

(* ================================================================== *)
(** * The data model of a Markov chain *)

(** All rows of a 2-D array have [c] entries and there are [r] of them. *)
Definition rect (r c : nat) (M : array2) : Prop :=
  length M = r /\ Forall (fun row => length row = c) M.

Definition all_fin (v : array1) : Prop := Forall is_fin v.
Definition all_fin2 (M : array2) : Prop := Forall all_fin M.

(** The shapes of a model: [q] has [nStates] entries and [A] is
    [nStates x nStates] (infinite duration) or [nStates x (nStates + 1)]
    (finite duration). *)
Record model_shape (m : MarkovChain.t) : Prop := {
  shape_states : (1 <= MarkovChain.nStates m)%nat;
  shape_q : length (MarkovChain.q m) = MarkovChain.nStates m;
  shape_A :
    rect (MarkovChain.nStates m)
         (MarkovChain.nStates m + (if MarkovChain.is_finite m then 1 else 0))
         (MarkovChain.A m)
}.

(** The finite-duration chain of the specification's concrete scenario:
    two states, [q = [0.6, 0.4]], columns of [A]: state 1, state 2, END. *)
Definition chain_finite : MarkovChain.t :=
  MarkovChain.mk
    [Fin (6/10); Fin (4/10)]
    [[Fin (5/10); Fin (2/10); Fin (3/10)];
     [Fin (1/10); Fin (6/10); Fin (3/10)]]
    2 true.

(** An infinite-duration chain on two states whose first state is never
    held: [a_11 = 0]. *)
Definition chain_infinite : MarkovChain.t :=
  MarkovChain.mk
    [Fin (1/2); Fin (1/2)]
    [[Fin 0; Fin 1];
     [Fin (1/2); Fin (1/2)]]
    2 false.

(** The observation likelihoods of the same scenario: a [2 x 3] matrix of
    ones. *)
Definition pX_ones : array2 :=
  [[Fin 1; Fin 1; Fin 1];
   [Fin 1; Fin 1; Fin 1]].

(** Observation likelihoods whose first column is zero for every state. *)
Definition pX_zero_first : array2 :=
  [[Fin 0; Fin 1; Fin 1];
   [Fin 0; Fin 1; Fin 1]].

(** A finite-duration chain on one state that never exits, and one
    observation of likelihood one. *)
Definition chain_no_exit : MarkovChain.t :=
  MarkovChain.mk [Fin 1] [[Fin 1; Fin 0]] 1 true.

Definition pX_one : array2 := [[Fin 1]].

(** ** Random generators for examples

    [choice_first] always draws the first candidate and [choice_last] the
    last one; like numpy they raise on an empty list of candidates. *)
Definition choice_first (a : list nat) (p : array1) (g : unit)
  : result (nat * unit) :=
  match a with
  | [] => Err ValueError
  | x :: _ => Ok (x, g)
  end.

Definition choice_last (a : list nat) (p : array1) (g : unit)
  : result (nat * unit) :=
  match a with
  | [] => Err ValueError
  | x :: _ => Ok (last a x, g)
  end.

(** [M[:, :k]] *)
Definition takecols (k : nat) (M : array2) : array2 := map (firstn k) M.

(** [k * M] for a number [k] *)
Definition scale2 (k : float64) (M : array2) : array2 := map (map (fmul k)) M.

(** An infinite-duration chain whose second state is absorbing. *)
Definition chain_absorbing : MarkovChain.t :=
  MarkovChain.mk
    [Fin (1/2); Fin (1/2)]
    [[Fin (1/2); Fin (1/2)];
     [Fin 0; Fin 1]]
    2 false.

(** Finite and strictly positive values. *)
Definition is_pos (x : float64) : Prop := exists r, x = Fin r /\ 0 < r.
Definition all_pos (v : array1) : Prop := Forall is_pos v.
Definition all_pos2 (M : array2) : Prop := Forall all_pos M.

(** Finite and non-negative values: probabilities and likelihoods. *)
Definition is_nonneg (x : float64) : Prop := exists r, x = Fin r /\ 0 <= r.
Definition all_nonneg (v : array1) : Prop := Forall is_nonneg v.
Definition all_nonneg2 (M : array2) : Prop := Forall all_nonneg M.

(** The closed-form geometric probability of a visit of [t + 1] steps. *)
Definition geometric_pmf (a : R) (t : nat) : R := a ^ t * (1 - a).

(** ** Real-valued views of arrays and finite sums *)

Definition rget1 (v : array1) (i : nat) : R := val (nth i v NaN).
Definition rget2 (M : array2) (i j : nat) : R := val (nth j (nth i M []) NaN).

(** [f 0 + ... + f (n - 1)] *)
Fixpoint bigsum (n : nat) (f : nat -> R) : R :=
  match n with
  | O => 0
  | S k => bigsum k f + f k
  end.

(** [f 0 * ... * f (n - 1)] *)
Fixpoint bigprod (n : nat) (f : nat -> R) : R :=
  match n with
  | O => 1
  | S k => bigprod k f * f k
  end.

Definition Rsum (l : list R) : R := fold_right Rplus 0 l.

(** ** The likelihood of an observation sequence

    States are numbered from 0 here, as the array indices are. *)

(** All state paths of [k] steps over [n] states. *)
Fixpoint all_paths (n k : nat) : list (list nat) :=
  match k with
  | O => [[]]
  | S k' => flat_map (fun s => map (cons s) (all_paths n k')) (seq 0 n)
  end.

(** Probability of following [path] from time [t] on after state [prev],
    emitting the observations, and, for a finite-duration chain, of exiting
    to END after the last state. *)
Fixpoint path_tail (m : MarkovChain.t) (pX : array2) (prev t : nat)
  (path : list nat) : R :=
  match path with
  | [] =>
      if MarkovChain.is_finite m
      then rget2 (MarkovChain.A m) prev (MarkovChain.nStates m)
      else 1
  | s :: rest =>
      rget2 (MarkovChain.A m) prev s * rget2 pX s t * path_tail m pX s (S t) rest
  end.

(** Initial probability times transition probabilities times the entries
    of [pX] along the path. *)
Definition path_prob (m : MarkovChain.t) (pX : array2) (path : list nat) : R :=
  match path with
  | [] => 0
  | s :: rest =>
      rget1 (MarkovChain.q m) s * rget2 pX s 0 * path_tail m pX s 1 rest
  end.

Definition likelihood (m : MarkovChain.t) (pX : array2) : R :=
  Rsum (map (path_prob m pX) (all_paths (MarkovChain.nStates m) (np.ncols pX))).

(** Total probability of the [k] remaining steps from time [t] on, after
    state [prev]. *)
Definition tail_sum (m : MarkovChain.t) (pX : array2) (k t prev : nat) : R :=
  Rsum (map (path_tail m pX prev t) (all_paths (MarkovChain.nStates m) k)).

(** ** The forward recursion as equations *)

(** The unnormalised vector [a_temp] of step [t]. *)
Fixpoint a_temp_at (q : array1) (Au pX : array2) (t : nat) : array1 :=
  match t with
  | O => map2 fmul q (np.column 0 pX)
  | S t' =>
      let u := a_temp_at q Au pX t' in
      map2 fmul (np.column t pX) (np.vm (np.divide_scalar u (np.sum u)) Au)
  end.

(** The mass [c[t]] of step [t] and the column [a_hat[:, t]]. *)
Definition scale_at (q : array1) (Au pX : array2) (t : nat) : float64 :=
  np.sum (a_temp_at q Au pX t).

Definition a_hat_at (q : array1) (Au pX : array2) (t : nat) : array1 :=
  np.divide_scalar (a_temp_at q Au pX t) (scale_at q Au pX t).

(** State of the loop of [forward] before the pass for column [k]. *)
Definition fwd_inv (q : array1) (Au pX : array2) (n T clen k : nat)
  (s : array2 * array1) : Prop :=
  rect n T (fst s) /\ length (snd s) = clen /\
  (forall t, (t < k)%nat ->
     np.column t (fst s) = a_hat_at q Au pX t /\
     nth t (snd s) NaN = scale_at q Au pX t) /\
  (forall t, (k <= t)%nat -> (t < clen)%nat -> nth t (snd s) NaN = Fin 1).

(** ** The backward recursion as equations *)

(** [sum_products] for state [i] at time [t], from [b = beta_hat[:, t+1]]. *)
Definition sum_products_at (m : MarkovChain.t) (pX : array2) (b : array1)
  (t i : nat) : float64 :=
  fold_left
    (fun acc j =>
       fadd acc (fmul (fmul (nth j (nth i (MarkovChain.A m) []) NaN)
                            (nth (t + 1) (nth j pX []) NaN))
                      (nth j b NaN)))
    (seq 0 (MarkovChain.nStates m)) (Fin 0).

(** The column [beta_hat[:, T - 1 - k]], for [pX] of [T] columns and [c]
    of [T] entries (infinite duration) or [T + 1] entries (finite
    duration). *)
Fixpoint beta_at (m : MarkovChain.t) (c : array1) (pX : array2) (T k : nat)
  : array1 :=
  match k with
  | O =>
      if MarkovChain.is_finite m
      then np.divide_scalar
             (np.column (MarkovChain.nStates m) (MarkovChain.A m))
             (fmul (nth T c NaN) (nth (T - 1) c NaN))
      else repeat (fdiv (Fin 1) (nth (T - 1) c NaN)) (MarkovChain.nStates m)
  | S k' =>
      let b := beta_at m c pX T k' in
      map (fun i => fdiv (sum_products_at m pX b (T - 2 - k') i)
                         (nth (T - 2 - k') c NaN))
          (seq 0 (MarkovChain.nStates m))
  end.

(** State of the outer loop of [backward] when the columns from [t] on are
    computed. *)
Definition bwd_inv (m : MarkovChain.t) (c : array1) (pX : array2) (T t : nat)
  (beta_hat : array2) : Prop :=
  rect (MarkovChain.nStates m) T beta_hat /\
  forall s, (t <= s)%nat -> (s < T)%nat ->
    np.column s beta_hat = beta_at m c pX T (T - 1 - s).

(** State of the loop over [i] of [backward] at time [t], started from
    [beta0], before the pass for row [i]. *)
Definition bwd_row_inv (m : MarkovChain.t) (c : array1) (pX : array2)
  (T t : nat) (beta0 : array2) (i : nat) (beta_hat : array2) : Prop :=
  rect (MarkovChain.nStates m) T beta_hat /\
  (forall s, s <> t -> np.column s beta_hat = np.column s beta0) /\
  (forall i', (i' < i)%nat ->
     nth t (nth i' beta_hat []) NaN =
     fdiv (sum_products_at m pX (np.column (t + 1) beta0) t i') (nth t c NaN)).

(** The transition matrix between the states proper, as [forward] uses
    it. *)
Definition A_states (m : MarkovChain.t) : array2 :=
  if MarkovChain.is_finite m
  then np.droplastcol (MarkovChain.A m)
  else MarkovChain.A m.

(** The first [T] scale factors, the masses of the [T] steps, are finite
    and positive. *)
Definition positive_masses (T : nat) (c : array1) : Prop :=
  forall t, (t < T)%nat -> exists r, nth t c NaN = Fin r /\ 0 < r.

(** [sum_i a_hat[i,t] * beta_hat[i,t] * c[t]] *)
Definition fb_quantity (a_hat beta_hat : array2) (c : array1) (t : nat) : float64 :=
  np.sum (map (fun i =>
                 fmul (fmul (nth t (nth i a_hat []) NaN)
                            (nth t (nth i beta_hat []) NaN))
                      (nth t c NaN))
              (seq 0 (length a_hat))).

(* ================================================================== *)
(** * Lists *)

Lemma bind_Ok {X Y : Type} (x : X) (k : X -> result Y) : bind (Ok x) k = k x.
Proof. reflexivity. Qed.

Ltac ok_step := rewrite bind_Ok; cbv beta.

Lemma upd_length {X : Type} (i : nat) (x : X) (l : list X) :
  length (upd i x l) = length l.
Proof.
  revert i; induction l as [|h t IH]; intros [|i]; simpl; auto.
Qed.

Lemma nth_upd_eq {X : Type} (i : nat) (x d : X) (l : list X) :
  (i < length l)%nat -> nth i (upd i x l) d = x.
Proof.
  revert i; induction l as [|h t IH]; intros [|i] H; simpl in *; try lia; auto.
  apply IH; lia.
Qed.

Lemma nth_upd_neq {X : Type} (i k : nat) (x d : X) (l : list X) :
  k <> i -> nth k (upd i x l) d = nth k l d.
Proof.
  revert i k; induction l as [|h t IH]; intros [|i] [|k] H; simpl; auto; try lia.
Qed.

Lemma getitem_nth {X : Type} (l : list X) (i : nat) (d : X) :
  (i < length l)%nat -> getitem l i = Ok (nth i l d).
Proof.
  intros H. unfold getitem. rewrite (nth_error_nth' l d H). reflexivity.
Qed.

Lemma setitem_ok {X : Type} (l : list X) (i : nat) (x : X) :
  (i < length l)%nat -> setitem l i x = Ok (upd i x l).
Proof.
  intros H. unfold setitem.
  destruct (Nat.ltb_spec i (length l)); [reflexivity | lia].
Qed.

Lemma map2_length {X Y Z : Type} (f : X -> Y -> Z) (l : list X) (l' : list Y) :
  length l = length l' -> length (map2 f l l') = length l.
Proof.
  revert l'; induction l as [|x t IH]; intros [|y t'] H; simpl in *;
    try discriminate; auto.
Qed.

Lemma nth_map2 {X Y Z : Type} (f : X -> Y -> Z) (l : list X) (l' : list Y)
  (i : nat) (dx : X) (dy : Y) (dz : Z) :
  length l = length l' -> (i < length l)%nat ->
  nth i (map2 f l l') dz = f (nth i l dx) (nth i l' dy).
Proof.
  revert l' i; induction l as [|x t IH]; intros [|y t'] [|i] H Hi; simpl in *;
    try discriminate; try lia; auto.
  apply IH; lia.
Qed.

Lemma nth_map_in {X Y : Type} (f : X -> Y) (l : list X) (i : nat) (d : X) (d' : Y) :
  (i < length l)%nat -> nth i (map f l) d' = f (nth i l d).
Proof.
  intros H. rewrite (nth_indep _ d' (f d)) by (rewrite length_map; exact H).
  apply map_nth.
Qed.

Lemma repeat_Forall {X : Type} (P : X -> Prop) (x : X) (n : nat) :
  P x -> Forall P (repeat x n).
Proof. intros H; induction n; simpl; constructor; auto. Qed.

(* ================================================================== *)
(** * float64 arithmetic *)

Lemma Rsign_0 : Rsign 0 = Eq.
Proof.
  unfold Rsign. destruct (total_order_T 0 0) as [[H|H]|H]; auto; lra.
Qed.

Lemma Rsign_eq (r : R) : r = 0 -> Rsign r = Eq.
Proof. intros ->; apply Rsign_0. Qed.

Lemma Rsign_pos (r : R) : 0 < r -> Rsign r = Gt.
Proof.
  intros H. unfold Rsign. destruct (total_order_T r 0) as [[H'|H']|H']; auto; lra.
Qed.

Lemma Rsign_Eq_inv (r : R) : Rsign r = Eq -> r = 0.
Proof.
  unfold Rsign. destruct (total_order_T r 0) as [[H'|H']|H']; auto; discriminate.
Qed.

Lemma fdiv_fin (a b : R) : b <> 0 -> fdiv (Fin a) (Fin b) = Fin (a / b).
Proof.
  intros H. simpl. destruct (Rsign b) eqn:E; auto.
  apply Rsign_Eq_inv in E. contradiction.
Qed.


Lemma is_fin_val (x : float64) : is_fin x -> x = Fin (val x).
Proof. destruct x; simpl; intros H; auto; contradiction. Qed.

(* ================================================================== *)
(** * Construction *)

(** C6 (as amended): construction performs no validation at all.  For every
    pair [(q, A)], whether or not the row count of [A] equals the length of
    [q], [MarkovChain(q, A)] succeeds and stores [q] and [A] unchanged, with
    [nStates] the row count of [A] and [is_finite] true exactly when [A] is
    not square. *)
Theorem init_never_fails (q : array1) (A : array2) :
  MarkovChain.__init__ q A =
  Ok (MarkovChain.mk q A (np.nrows A) (negb (np.nrows A =? np.ncols A)%nat)).
Proof. reflexivity. Qed.

(** C6 fails as stated: with [q] of length 1 and a [2 x 2] matrix [A] the
    construction returns a model instead of a shape-mismatch error. *)
Lemma init_shape_mismatch_accepted :
  let q := [Fin 1] in
  let A := [[Fin (1/2); Fin (1/2)]; [Fin (1/2); Fin (1/2)]] in
  length q <> np.nrows A /\
  (forall e, MarkovChain.__init__ q A <> Err e) /\
  exists m, MarkovChain.__init__ q A = Ok m.
Proof.
  simpl. split; [discriminate|]. split.
  - intros e H. discriminate H.
  - eexists. reflexivity.
Qed.

(** A pair [(q, A)] of matching shapes, [A] square or with one more column
    than rows, gives a model with the shapes of the data model. *)
Lemma init_model_shape (q : array1) (A : array2) (m : MarkovChain.t) :
  MarkovChain.__init__ q A = Ok m ->
  (1 <= np.nrows A)%nat ->
  length q = np.nrows A ->
  (rect (np.nrows A) (np.nrows A) A \/ rect (np.nrows A) (np.nrows A + 1) A) ->
  model_shape m.
Proof.
  intros E Hn Hq HA. injection E as <-.
  assert (Hc : np.ncols A = np.nrows A \/ np.ncols A = (np.nrows A + 1)%nat).
  { unfold np.ncols, np.nrows in *.
    destruct A as [|row rest]; simpl in *; [lia|].
    destruct HA as [[_ H]|[_ H]]; inversion H; auto. }
  constructor; simpl; try assumption.
  destruct Hc as [Hc|Hc]; rewrite Hc.
  - rewrite Nat.eqb_refl. simpl. rewrite Nat.add_0_r.
    destruct HA as [HA|[_ HA]]; [exact HA|].
    exfalso. unfold np.ncols, np.nrows in *.
    destruct A as [|row rest]; simpl in *; [lia|]. inversion HA. lia.
  - destruct (Nat.eqb_spec (np.nrows A) (np.nrows A + 1)) as [E|_]; [lia|].
    simpl. destruct HA as [[_ HA]|HA]; [|exact HA].
    exfalso. unfold np.ncols, np.nrows in *.
    destruct A as [|row rest]; simpl in *; [lia|]. inversion HA. lia.
Qed.

Lemma chain_finite_init :
  MarkovChain.__init__ (MarkovChain.q chain_finite) (MarkovChain.A chain_finite)
  = Ok chain_finite.
Proof. reflexivity. Qed.

Lemma chain_infinite_init :
  MarkovChain.__init__ (MarkovChain.q chain_infinite) (MarkovChain.A chain_infinite)
  = Ok chain_infinite.
Proof. reflexivity. Qed.

(* ================================================================== *)
(** * Shape check of forward *)

(** C9: when the row count of [pX] differs from the model's [nStates],
    [forward(pX)] raises (the [assert] on the shapes fails) instead of
    returning a result. *)
Theorem forward_rows_mismatch (m : MarkovChain.t) (pX : array2) :
  np.nrows pX <> MarkovChain.nStates m ->
  MarkovChain.forward m pX = Err AssertionError.
Proof.
  intros H.
  assert (E : forall Au clen,
             MarkovChain.forward_steps m Au pX clen = Err AssertionError).
  { intros Au clen. unfold MarkovChain.forward_steps, np.shape.
    destruct (Nat.eqb_spec (np.nrows pX) (MarkovChain.nStates m)); [lia|].
    reflexivity. }
  unfold MarkovChain.forward.
  destruct (MarkovChain.is_finite m); rewrite E; reflexivity.
Qed.

Lemma forward_rows_mismatch_witness :
  MarkovChain.forward chain_finite [[Fin 1; Fin 1; Fin 1]] = Err AssertionError.
Proof.
  apply forward_rows_mismatch. simpl. lia.
Defined.

(* ================================================================== *)
(** * State durations *)

Lemma getitem_map {X Y : Type} (f : X -> Y) (l : list X) (i : nat) (d : X) :
  (i < length l)%nat -> getitem (map f l) i = Ok (f (nth i l d)).
Proof.
  intros H. unfold getitem. rewrite nth_error_map.
  rewrite (nth_error_nth' l d H). reflexivity.
Qed.

Lemma probStateDuration_entry (m : MarkovChain.t) (tmax i t : nat) :
  (i < length (np.diag (MarkovChain.A m)))%nat -> (t < tmax)%nat ->
  np.get2 (MarkovChain.probStateDuration m tmax) i t =
  Ok (let a := nth i (np.diag (MarkovChain.A m)) NaN in
      fexp (fadd (fmul (flog a) (of_nat t)) (flog (fsub (Fin 1) a)))).
Proof.
  intros Hi Ht. unfold MarkovChain.probStateDuration, np.get2.
  rewrite map_map.
  rewrite (getitem_map _ _ NaN Hi). simpl bind.
  rewrite map_map.
  assert (Hl : (t < length (np.arange 0 tmax))%nat)
    by (unfold np.arange; rewrite length_seq; lia).
  rewrite map_map.
  rewrite (getitem_map _ _ 0%nat Hl).
  unfold np.arange. rewrite seq_nth by lia. reflexivity.
Qed.

Lemma model_shape_ncols (m : MarkovChain.t) :
  model_shape m ->
  np.ncols (MarkovChain.A m) =
  (MarkovChain.nStates m + (if MarkovChain.is_finite m then 1 else 0))%nat.
Proof.
  intros [Hn _ [Hl Hr]]. unfold np.ncols.
  destruct (MarkovChain.A m) as [|row rest]; simpl in *; [lia|].
  inversion Hr; auto.
Qed.

Lemma model_shape_diag_length (m : MarkovChain.t) :
  model_shape m -> length (np.diag (MarkovChain.A m)) = MarkovChain.nStates m.
Proof.
  intros H. unfold np.diag. rewrite length_map, length_seq.
  rewrite (model_shape_ncols H). destruct H as [_ _ [Hl _]].
  unfold np.nrows. rewrite Hl. lia.
Qed.

Lemma get2_nth (M : array2) (i j : nat) :
  (i < length M)%nat -> (j < length (nth i M []))%nat ->
  np.get2 M i j = Ok (nth j (nth i M []) NaN).
Proof.
  intros Hi Hj. unfold np.get2.
  rewrite (getitem_nth M [] Hi). simpl.
  apply getitem_nth; exact Hj.
Qed.

Lemma rect_row_length (r c : nat) (M : array2) (i : nat) :
  rect r c M -> (i < r)%nat -> length (nth i M []) = c.
Proof.
  intros [Hl Hr] Hi. rewrite Forall_forall in Hr.
  apply Hr. apply nth_In. lia.
Qed.

Lemma model_shape_diag (m : MarkovChain.t) (i : nat) :
  model_shape m -> (i < MarkovChain.nStates m)%nat ->
  np.get2 (MarkovChain.A m) i i = Ok (nth i (np.diag (MarkovChain.A m)) NaN).
Proof.
  intros H Hi. pose proof (model_shape_ncols H) as Hc.
  destruct H as [_ _ HA]. pose proof HA as [Hl _].
  rewrite get2_nth.
  - f_equal. unfold np.diag.
    rewrite (nth_map_in _ _ 0%nat).
    + rewrite seq_nth; [reflexivity|].
      unfold np.nrows. rewrite Hc, Hl. lia.
    + rewrite length_seq. unfold np.nrows. rewrite Hc, Hl. lia.
  - lia.
  - rewrite (rect_row_length HA Hi). lia.
Qed.

Lemma exp_ln_geometric (a : R) (t : nat) :
  0 < a < 1 -> exp (ln a * INR t + ln (1 - a)) = geometric_pmf a t.
Proof.
  intros [H0 H1]. unfold geometric_pmf.
  rewrite exp_plus. rewrite (exp_ln (1 - a)) by lra.
  f_equal. rewrite Rmult_comm. fold (Rpower a (INR t)).
  apply Rpower_pow; assumption.
Qed.

(** In exact arithmetic: when every self-loop probability [a_ii] lies in
    (0,1), [probStateDuration(tmax)] is an [nStates x tmax] array whose
    entry for state [i] and column [t] is the geometric probability
    [a_ii^t * (1 - a_ii)], since [exp (ln a * t + ln (1 - a))] is
    [a^t * (1 - a)] over the reals.  ([np.log] and [np.exp] round, so the
    [float64] entries agree with the closed form up to rounding only.) *)
Theorem probStateDuration_geometric (m : MarkovChain.t) (tmax : nat) :
  model_shape m ->
  (1 <= tmax)%nat ->
  (forall i, (i < MarkovChain.nStates m)%nat ->
     exists a, np.get2 (MarkovChain.A m) i i = Ok (Fin a) /\ 0 < a < 1) ->
  rect (MarkovChain.nStates m) tmax (MarkovChain.probStateDuration m tmax) /\
  forall i t, (i < MarkovChain.nStates m)%nat -> (t < tmax)%nat ->
    exists a, np.get2 (MarkovChain.A m) i i = Ok (Fin a) /\
      np.get2 (MarkovChain.probStateDuration m tmax) i t =
      Ok (Fin (geometric_pmf a t)).
Proof.
  intros Hm Ht Hd. split.
  - split.
    + unfold MarkovChain.probStateDuration. rewrite !length_map.
      apply model_shape_diag_length; assumption.
    + unfold MarkovChain.probStateDuration.
      rewrite Forall_forall. intros row Hin.
      rewrite map_map in Hin. apply in_map_iff in Hin.
      destruct Hin as [a [<- _]].
      rewrite !length_map. unfold np.arange. rewrite length_seq. lia.
  - intros i t Hi Hti. destruct (Hd i Hi) as [a [Ha Hr]].
    exists a. split; [assumption|].
    rewrite probStateDuration_entry
      by (rewrite ?model_shape_diag_length; assumption).
    rewrite (model_shape_diag Hm Hi) in Ha. injection Ha as Ha.
    simpl. rewrite Ha. simpl.
    rewrite (Rsign_pos (proj1 Hr)).
    replace (1 + - a) with (1 - a) by lra.
    rewrite Rsign_pos by lra. simpl.
    rewrite exp_ln_geometric by assumption. reflexivity.
Qed.


(** C10: when some self-loop probability is [a_ii = 0] (allowed by the
    model invariant [0 <= a_ii < 1]), the log-space computation takes
    [log 0 = -inf], and the entry for duration index [t = 0] is
    [-inf * 0 + log 1 = nan], while the geometric value there is 1. *)
Theorem probStateDuration_zero_diagonal (m : MarkovChain.t) (tmax i : nat) :
  model_shape m ->
  (i < MarkovChain.nStates m)%nat ->
  (1 <= tmax)%nat ->
  np.get2 (MarkovChain.A m) i i = Ok (Fin 0) ->
  np.get2 (MarkovChain.probStateDuration m tmax) i 0 = Ok NaN /\
  geometric_pmf 0 0 = 1.
Proof.
  intros Hm Hi Ht Ha. split.
  - rewrite probStateDuration_entry
      by (rewrite ?model_shape_diag_length; assumption || lia).
    rewrite (model_shape_diag Hm Hi) in Ha. injection Ha as Ha.
    simpl. rewrite Ha. simpl. rewrite Rsign_0. simpl.
    rewrite Rsign_0. reflexivity.
  - unfold geometric_pmf. simpl. lra.
Qed.

Lemma chain_finite_shape : model_shape chain_finite.
Proof.
  constructor; simpl; try lia.
  split; [reflexivity|]. repeat constructor.
Qed.

Lemma chain_infinite_shape : model_shape chain_infinite.
Proof.
  constructor; simpl; try lia.
  split; [reflexivity|]. repeat constructor.
Qed.

Lemma probStateDuration_geometric_witness :
  rect 2 3 (MarkovChain.probStateDuration chain_finite 3) /\
  forall i t, (i < 2)%nat -> (t < 3)%nat ->
    exists a, np.get2 (MarkovChain.A chain_finite) i i = Ok (Fin a) /\
      np.get2 (MarkovChain.probStateDuration chain_finite 3) i t =
      Ok (Fin (geometric_pmf a t)).
Proof.
  apply (@probStateDuration_geometric chain_finite 3).
  - exact chain_finite_shape.
  - lia.
  - intros i Hi. simpl in Hi.
    destruct i as [|[|i]]; [| |lia].
    + exists (5/10). split; [reflexivity|lra].
    + exists (6/10). split; [reflexivity|lra].
Defined.

Lemma probStateDuration_zero_diagonal_witness :
  np.get2 (MarkovChain.probStateDuration chain_infinite 4) 0 0 = Ok NaN /\
  geometric_pmf 0 0 = 1.
Proof.
  apply (@probStateDuration_zero_diagonal chain_infinite 4 0).
  - exact chain_infinite_shape.
  - simpl; lia.
  - lia.
  - reflexivity.
Defined.

(* ================================================================== *)
(** * Total duration *)

Lemma column_length (j : nat) (M : array2) : length (np.column j M) = length M.
Proof. unfold np.column. apply length_map. Qed.

Lemma transpose_nrows (M : array2) : np.nrows (np.transpose M) = np.ncols M.
Proof. unfold np.nrows, np.transpose. rewrite length_map, length_seq. reflexivity. Qed.

Lemma transpose_ncols (M : array2) :
  (1 <= np.ncols M)%nat -> np.ncols (np.transpose M) = np.nrows M.
Proof.
  intros H. unfold np.transpose. unfold np.ncols at 1.
  destruct (np.ncols M) as [|k]; [lia|]. simpl.
  apply column_length.
Qed.

Lemma eye_nrows (n : nat) : np.nrows (np.eye n) = n.
Proof. unfold np.nrows, np.eye. rewrite length_map, length_seq. reflexivity. Qed.

Lemma eye_ncols (n : nat) : np.ncols (np.eye n) = n.
Proof.
  unfold np.ncols, np.eye. destruct n as [|n]; [reflexivity|].
  simpl. rewrite length_map, length_seq. reflexivity.
Qed.

(** For an infinite-duration chain [probDuration] is all zeros. *)
Lemma probDuration_infinite (m : MarkovChain.t) (tmax : nat) :
  MarkovChain.is_finite m = false ->
  MarkovChain.probDuration m tmax = Ok (np.zeros tmax).
Proof. intros H. unfold MarkovChain.probDuration. rewrite H. reflexivity. Qed.

(** For a finite-duration chain, [np.eye(nStates) - A.T] subtracts the
    whole [(nStates + 1) x nStates] transpose, END row included: with two
    states or more the shapes cannot be broadcast, and with one state the
    product [A.T @ pSt] of the first pass of the loop has mismatched
    shapes.  Either way numpy raises. *)
Lemma probDuration_finite_raises (m : MarkovChain.t) (tmax : nat) :
  model_shape m ->
  MarkovChain.is_finite m = true ->
  (1 <= tmax)%nat ->
  MarkovChain.probDuration m tmax = Err ValueError.
Proof.
  intros Hm Hf Ht. pose proof (model_shape_ncols Hm) as Hc.
  destruct Hm as [Hn Hq HA]. rewrite Hf in Hc, HA.
  unfold MarkovChain.probDuration. rewrite Hf.
  unfold np.subtract2.
  rewrite eye_nrows, eye_ncols, transpose_nrows, transpose_ncols by lia.
  rewrite Hc. destruct HA as [Hl Hr]. unfold np.nrows at 1. rewrite Hl.
  set (n := MarkovChain.nStates m) in *.
  unfold np.bdim at 1.
  destruct (Nat.eqb_spec n (n + 1)) as [E|_]; [lia|].
  destruct (Nat.eqb_spec n 1) as [E1|N1].
  - (* a single state *)
    destruct (MarkovChain.A m) as [|row [|? ?]] eqn:EA; simpl in Hl; try lia.
    inversion Hr as [|? ? Hrow _]; subst.
    destruct row as [|a [|b [|? ?]]]; simpl in Hrow; try lia.
    destruct (MarkovChain.q m) as [|x [|? ?]] eqn:Eq; simpl in Hq; try lia.
    rewrite E1. destruct tmax as [|tmax]; [lia|].
    reflexivity.
  - destruct (Nat.eqb_spec (n + 1) 1) as [E|_]; [lia|]. reflexivity.
Qed.

(** C5 fails on the code: on the two-state finite-duration chain of the
    specification, [probDuration(3)] raises instead of returning the
    duration probabilities. *)
Theorem probDuration_chain_finite :
  MarkovChain.probDuration chain_finite 3 = Err ValueError.
Proof.
  apply probDuration_finite_raises.
  - exact chain_finite_shape.
  - reflexivity.
  - lia.
Qed.

(* ================================================================== *)
(** * Sampling *)

Section RandFacts.

Variable rng : Type.
Variable choice : list nat -> array1 -> rng -> result (nat * rng).

(** [np.random.choice(a, p = p)] returns an element of [a]. *)
Hypothesis choice_in :
  forall a p g x g', choice a p g = Ok (x, g') -> In x a.

Variable m : MarkovChain.t.

Let is_state (s : nat) : Prop := (1 <= s <= MarkovChain.nStates m)%nat.

Lemma rand_loop_infinite_spec (l : list nat) :
  forall S g S' g',
    MarkovChain.rand_loop_infinite choice m l S g = Ok (S', g') ->
    Forall is_state S ->
    Forall is_state S' /\ length S' = (length S + length l)%nat.
Proof using choice_in.
  induction l as [|i l IH]; intros S g S' g' H HS; simpl in H.
  - injection H as <- <-. split; [assumption|simpl; lia].
  - destruct (getitem S (i - 1)) as [prev|]; simpl in H; [|discriminate].
    destruct (getitem (MarkovChain.A m) (prev - 1)) as [row|]; simpl in H;
      [|discriminate].
    destruct (choice _ row g) as [[x g1]|] eqn:Ec; simpl in H; [|discriminate].
    apply choice_in in Ec. unfold np.arange in Ec. apply in_seq in Ec.
    apply IH in H.
    + destruct H as [H1 H2]. split; [assumption|].
      rewrite H2, length_app. simpl. lia.
    + apply Forall_app. split; [assumption|].
      constructor; [|constructor]. unfold is_state. lia.
Qed.

Lemma rand_loop_finite_spec (l : list nat) :
  forall S g S' g',
    MarkovChain.rand_loop_finite choice m l S g = Ok (S', g') ->
    Forall is_state S ->
    Forall is_state S' /\
    (length S <= length S' <= length S + length l)%nat.
Proof using choice_in.
  induction l as [|i l IH]; intros S g S' g' H HS; simpl in H.
  - injection H as <- <-. split; [assumption|simpl; lia].
  - destruct (getitem S (i - 1)) as [prev|]; simpl in H; [|discriminate].
    destruct (getitem (MarkovChain.A m) (prev - 1)) as [row|]; simpl in H;
      [|discriminate].
    destruct (choice _ row g) as [[x g1]|] eqn:Ec; simpl in H; [|discriminate].
    apply choice_in in Ec. unfold np.arange in Ec. apply in_seq in Ec.
    destruct (Nat.eqb_spec x (MarkovChain.nStates m + 1)) as [E|N].
    + injection H as <- <-. split; [assumption|simpl; lia].
    + apply IH in H.
      * destruct H as [H1 H2]. split; [assumption|].
        rewrite length_app in H2. simpl in *. lia.
      * apply Forall_app. split; [assumption|].
        constructor; [|constructor]. unfold is_state. lia.
Qed.

(** From [tmax = 2] on, a sequence returned by [rand(tmax)] holds state
    indices in [1..nStates] only (never the END index), and has [tmax]
    entries for an infinite-duration chain, between 1 and [tmax] entries
    for a finite-duration chain. *)
Lemma rand_sequence (tmax : nat) (g g' : rng) (r : option (list nat)) :
  (2 <= tmax)%nat ->
  MarkovChain.rand choice m tmax g = Ok (r, g') ->
  exists S, r = Some S /\
    Forall (fun s => (1 <= s <= MarkovChain.nStates m)%nat) S /\
    ~ In (MarkovChain.nStates m + 1)%nat S /\
    (if MarkovChain.is_finite m
     then (1 <= length S <= tmax)%nat
     else length S = tmax).
Proof using choice_in.
  intros Ht H. unfold MarkovChain.rand in H.
  assert (Hnot : forall S, Forall is_state S ->
                           ~ In (MarkovChain.nStates m + 1)%nat S).
  { intros S HS Hin. rewrite Forall_forall in HS.
    apply HS in Hin. unfold is_state in Hin. lia. }
  destruct (Nat.ltb_spec 1 tmax) as [_|]; [|lia].
  destruct (MarkovChain.is_finite m); simpl in H;
    destruct (choice _ (MarkovChain.q m) g) as [[s1 g1]|] eqn:Ec; simpl in H;
    try discriminate;
    apply choice_in in Ec; unfold np.arange in Ec; apply in_seq in Ec.
  - destruct (MarkovChain.rand_loop_finite _ _ _ _ _) as [[S g2]|] eqn:El;
      simpl in H; [|discriminate].
    injection H as <- <-. exists S.
    apply rand_loop_finite_spec in El.
    + destruct El as [H1 H2]. unfold np.arange in H2.
      rewrite length_seq in H2. simpl in H2.
      repeat split; auto; lia.
    + constructor; [|constructor]. unfold is_state. lia.
  - destruct (MarkovChain.rand_loop_infinite _ _ _ _ _) as [[S g2]|] eqn:El;
      simpl in H; [|discriminate].
    injection H as <- <-. exists S.
    apply rand_loop_infinite_spec in El.
    + destruct El as [H1 H2]. unfold np.arange in H2.
      rewrite length_seq in H2. simpl in H2.
      repeat split; auto; lia.
    + constructor; [|constructor]. unfold is_state. lia.
Qed.

End RandFacts.

(** C4 fails on the code at [tmax = 1]: both branches of [rand] reach
    [return S] only inside [if tmax > 1], so [rand(1)] ends without a
    [return] and never yields a sequence, whatever the model and the random
    generator. *)
Theorem rand_one_no_sequence (rng : Type)
  (choice : list nat -> array1 -> rng -> result (nat * rng))
  (m : MarkovChain.t) (g g' : rng) (S : list nat) :
  MarkovChain.rand choice m 1 g <> Ok (Some S, g').
Proof.
  unfold MarkovChain.rand. simpl.
  destruct (MarkovChain.is_finite m); simpl;
    destruct (choice _ (MarkovChain.q m) g) as [[s1 g1]|]; simpl; discriminate.
Qed.

(** With a generator that always draws the first candidate, [rand(3)] on
    the infinite-duration chain stays in state 1. *)
Lemma rand_three_chain_infinite :
  MarkovChain.rand (fun a _ (g : unit) => Ok (hd 0%nat a, g)) chain_infinite 3 tt
  = Ok (Some [1; 1; 1]%nat, tt).
Proof. reflexivity. Qed.

(** With a generator that always draws the first candidate, [rand(1)] on the
    infinite-duration chain returns [None]. *)
Lemma rand_one_chain_infinite :
  MarkovChain.rand (fun a _ (g : unit) => Ok (hd 0%nat a, g)) chain_infinite 1 tt
  = Ok (None, tt).
Proof. reflexivity. Qed.

(* ================================================================== *)
(** * Columns of 2-D arrays *)

Lemma rect_ncols (r c : nat) (M : array2) :
  rect r c M -> (1 <= r)%nat -> np.ncols M = c.
Proof.
  intros [Hl Hr] H. unfold np.ncols.
  destruct M as [|row rest]; simpl in *; [lia|].
  inversion Hr; auto.
Qed.

Lemma rect_column_length (r c : nat) (M : array2) (j : nat) :
  rect r c M -> length (np.column j M) = r.
Proof. intros [Hl _]. rewrite column_length. exact Hl. Qed.

Lemma getcol_ok (r c : nat) (M : array2) (j : nat) :
  rect r c M -> (1 <= r)%nat -> (j < c)%nat ->
  np.getcol M j = Ok (np.column j M).
Proof.
  intros HM Hr Hj. unfold np.getcol. rewrite (rect_ncols HM Hr).
  destruct (Nat.ltb_spec j c); [reflexivity|lia].
Qed.

Lemma lastcol_ok (r c : nat) (M : array2) :
  rect r c M -> (1 <= r)%nat -> (1 <= c)%nat ->
  np.lastcol M = Ok (np.column (c - 1) M).
Proof.
  intros HM Hr Hc. unfold np.lastcol. rewrite (rect_ncols HM Hr).
  destruct (Nat.leb_spec 1 c); [reflexivity|lia].
Qed.

Lemma elementwise_same (f : float64 -> float64 -> float64) (v w : array1) :
  length v = length w -> np.elementwise f v w = Ok (map2 f v w).
Proof.
  intros H. unfold np.elementwise, np.bdim, np.broadcast_to.
  rewrite H, Nat.eqb_refl. simpl. rewrite !Nat.eqb_refl. reflexivity.
Qed.

Lemma setcol_ok (r c : nat) (M : array2) (j : nat) (v : array1) :
  rect r c M -> (1 <= r)%nat -> (j < c)%nat -> length v = r ->
  np.setcol M j v = Ok (map2 (fun row x => upd j x row) M v).
Proof.
  intros HM Hr Hj Hv. unfold np.setcol. rewrite (rect_ncols HM Hr).
  destruct (Nat.ltb_spec j c); [|lia].
  unfold np.broadcast_to, np.nrows. destruct HM as [Hl _].
  rewrite Hv, Hl, Nat.eqb_refl. reflexivity.
Qed.

Lemma putcol_rect (r c : nat) (M : array2) (j : nat) (v : array1) :
  rect r c M -> length v = r ->
  rect r c (map2 (fun row x => upd j x row) M v).
Proof.
  intros [Hl Hr] Hv. split.
  - rewrite map2_length; congruence.
  - subst r. revert v Hv.
    induction Hr as [|row M Hrow HM IH]; intros [|x v] Hv; simpl in *;
      try discriminate; constructor.
    + rewrite upd_length. exact Hrow.
    + apply IH. lia.
Qed.

Lemma column_putcol_eq (r c : nat) (M : array2) (j : nat) (v : array1) :
  rect r c M -> length v = r -> (j < c)%nat ->
  np.column j (map2 (fun row x => upd j x row) M v) = v.
Proof.
  intros [Hl Hr] Hv Hj. subst r. revert v Hv.
  induction Hr as [|row M Hrow HM IH]; intros [|x v] Hv; simpl in *;
    try discriminate; auto.
  rewrite nth_upd_eq by lia. f_equal. apply IH. lia.
Qed.

Lemma column_putcol_neq (M : array2) (j k : nat) (v : array1) :
  length v = length M -> k <> j ->
  np.column k (map2 (fun row x => upd j x row) M v) = np.column k M.
Proof.
  intros Hv Hk. revert v Hv.
  induction M as [|row M IH]; intros [|x v] Hv; simpl in *;
    try discriminate; auto.
  rewrite nth_upd_neq by assumption. f_equal. apply IH. lia.
Qed.

Lemma ones2_rect (r c : nat) : rect r c (np.ones2 r c).
Proof.
  split.
  - unfold np.ones2. apply repeat_length.
  - unfold np.ones2. apply repeat_Forall. unfold np.ones. apply repeat_length.
Qed.

Lemma zeros2_rect (r c : nat) : rect r c (np.zeros2 r c).
Proof.
  split.
  - unfold np.zeros2. apply repeat_length.
  - unfold np.zeros2. apply repeat_Forall. unfold np.zeros. apply repeat_length.
Qed.

Lemma vm_length (v : array1) (M : array2) : length (np.vm v M) = np.ncols M.
Proof. unfold np.vm. rewrite length_map, length_seq. reflexivity. Qed.

Lemma divide_scalar_length (v : array1) (x : float64) :
  length (np.divide_scalar v x) = length v.
Proof. unfold np.divide_scalar. apply length_map. Qed.

(* ================================================================== *)
(** * The loop of forward *)

Section ForwardLoop.

Variables (q : array1) (Au pX : array2) (n T clen : nat).
Hypothesis Hn : (1 <= n)%nat.
Hypothesis Hq : length q = n.
Hypothesis HAu : rect n n Au.
Hypothesis HpX : rect n T pX.
Hypothesis Hclen : (T <= clen)%nat.

Lemma a_temp_at_length (t : nat) : length (a_temp_at q Au pX t) = n.
Proof using Hn Hq HAu HpX.
  destruct t as [|t]; simpl.
  - rewrite map2_length; rewrite ?(rect_column_length _ HpX); auto.
  - rewrite map2_length; rewrite ?(rect_column_length _ HpX); auto.
    rewrite vm_length. symmetry. apply (rect_ncols HAu Hn).
Qed.

Lemma a_hat_at_length (t : nat) : length (a_hat_at q Au pX t) = n.
Proof using Hn Hq HAu HpX.
  unfold a_hat_at. rewrite divide_scalar_length. apply a_temp_at_length.
Qed.

Lemma forward_step_spec (k : nat) (s : array2 * array1) :
  (1 <= k)%nat -> (k < T)%nat ->
  fwd_inv q Au pX n T clen k s ->
  exists s', MarkovChain.forward_step Au pX k s = Ok s' /\
             fwd_inv q Au pX n T clen (S k) s'.
Proof using Hn Hq HAu HpX Hclen.
  intros Hk HkT [Ha [Hc [Hcols Hrest]]]. destruct s as [a_hat c]. simpl in *.
  destruct k as [|k]; [lia|].
  destruct (Hcols k) as [Hcol _]; [lia|].
  unfold MarkovChain.forward_step.
  rewrite (getcol_ok HpX Hn HkT). ok_step.
  replace (S k - 1)%nat with k by lia.
  rewrite (getcol_ok (j := k) Ha Hn) by lia. ok_step.
  rewrite Hcol.
  unfold np.vecmat. destruct HAu as [HAl _]. unfold np.nrows.
  rewrite a_hat_at_length, HAl, Nat.eqb_refl. ok_step.
  unfold np.multiply. rewrite elementwise_same
    by (rewrite (rect_column_length _ HpX), vm_length;
        symmetry; apply (rect_ncols HAu Hn)).
  ok_step.
  change (map2 fmul (np.column (S k) pX) (np.vm (a_hat_at q Au pX k) Au))
    with (a_temp_at q Au pX (S k)).
  rewrite setitem_ok by lia. ok_step.
  rewrite (getitem_nth _ NaN) by (rewrite upd_length; lia). ok_step.
  rewrite nth_upd_eq by lia.
  fold (scale_at q Au pX (S k)). fold (a_hat_at q Au pX (S k)).
  rewrite (setcol_ok _ Ha Hn HkT) by apply a_hat_at_length. ok_step.
  eexists; split; [reflexivity|].
  split; [|split; [|split]]; cbn [fst snd].
  - apply putcol_rect; [assumption|apply a_hat_at_length].
  - rewrite upd_length. assumption.
  - intros t Ht. destruct (Nat.eq_dec t (S k)) as [->|Hne].
    + rewrite (column_putcol_eq _ Ha) by (auto using a_hat_at_length).
      rewrite nth_upd_eq by lia. split; reflexivity.
    + rewrite column_putcol_neq
        by (rewrite ?a_hat_at_length; destruct Ha; auto).
      rewrite nth_upd_neq by assumption. apply Hcols. lia.
  - intros t Ht Htc. rewrite nth_upd_neq by lia. apply Hrest; lia.
Qed.

Lemma forward_loop_spec (len : nat) :
  forall k s, (1 <= k)%nat -> (k + len <= T)%nat ->
    fwd_inv q Au pX n T clen k s ->
    exists s', for_each (seq k len) (MarkovChain.forward_step Au pX) s = Ok s' /\
               fwd_inv q Au pX n T clen (k + len) s'.
Proof using Hn Hq HAu HpX Hclen.
  induction len as [|len IH]; intros k s Hk Hlen Hinv; simpl.
  - exists s. split; [reflexivity|]. rewrite Nat.add_0_r. assumption.
  - destruct (@forward_step_spec k s) as [s1 [E1 Hinv1]]; auto; [lia|].
    rewrite E1. ok_step.
    destruct (IH (S k) s1) as [s2 [E2 Hinv2]]; auto; [lia|].
    exists s2. split; [assumption|].
    replace (k + S len)%nat with (S k + len)%nat by lia. assumption.
Qed.

Lemma forward_steps_spec (m : MarkovChain.t) :
  MarkovChain.q m = q -> MarkovChain.nStates m = n -> (1 <= T)%nat ->
  exists a_hat c,
    MarkovChain.forward_steps m Au pX clen = Ok (a_hat, c) /\
    fwd_inv q Au pX n T clen T (a_hat, c).
Proof using Hn Hq HAu HpX Hclen.
  intros Eq En HT. unfold MarkovChain.forward_steps, np.shape.
  rewrite (rect_ncols HpX Hn). destruct HpX as [HpXl _].
  unfold np.nrows. rewrite HpXl, En, Nat.eqb_refl. simpl negb. cbv iota.
  rewrite (getcol_ok HpX Hn) by lia. ok_step.
  unfold np.multiply. rewrite Eq.
  rewrite elementwise_same by (rewrite (rect_column_length _ HpX); auto).
  ok_step.
  change (map2 fmul q (np.column 0 pX)) with (a_temp_at q Au pX 0).
  assert (Hones : length (np.ones clen) = clen) by apply repeat_length.
  rewrite setitem_ok by lia. ok_step.
  rewrite (getitem_nth _ NaN) by (rewrite upd_length; lia). ok_step.
  rewrite nth_upd_eq by lia.
  fold (scale_at q Au pX 0). fold (a_hat_at q Au pX 0).
  rewrite (setcol_ok _ (ones2_rect n T) Hn) by (auto using a_hat_at_length).
  ok_step.
  unfold np.arange.
  destruct (@forward_loop_spec (T - 1) 1
              (map2 (fun row x => upd 0 x row) (np.ones2 n T) (a_hat_at q Au pX 0),
               upd 0 (scale_at q Au pX 0) (np.ones clen)))
    as [[a_hat c] [E Hinv]]; try lia.
  - split; [|split; [|split]]; cbn [fst snd].
    + apply putcol_rect; [apply ones2_rect|apply a_hat_at_length].
    + rewrite upd_length. assumption.
    + intros t Ht. replace t with 0%nat by lia.
      rewrite (column_putcol_eq _ (ones2_rect n T))
        by (auto using a_hat_at_length).
      rewrite nth_upd_eq by lia. split; reflexivity.
    + intros t Ht Htc. rewrite nth_upd_neq by lia.
      unfold np.ones. apply nth_repeat_lt. assumption.
  - exists a_hat, c. split; [assumption|].
    replace (1 + (T - 1))%nat with T in Hinv by lia. assumption.
Qed.

End ForwardLoop.

(* ================================================================== *)
(** * Finite sums of reals *)

Lemma bigsum_ext (n : nat) (f g : nat -> R) :
  (forall i, (i < n)%nat -> f i = g i) -> bigsum n f = bigsum n g.
Proof.
  induction n as [|n IH]; intros H; simpl; [reflexivity|].
  rewrite IH by (intros; apply H; lia). rewrite H by lia. reflexivity.
Qed.

Lemma bigsum_scal_l (n : nat) (a : R) (f : nat -> R) :
  bigsum n (fun i => a * f i) = a * bigsum n f.
Proof. induction n as [|n IH]; simpl; [lra|]. rewrite IH. lra. Qed.

Lemma bigsum_scal_r (n : nat) (a : R) (f : nat -> R) :
  bigsum n (fun i => f i * a) = bigsum n f * a.
Proof. induction n as [|n IH]; simpl; [lra|]. rewrite IH. lra. Qed.

Lemma bigsum_plus (n : nat) (f g : nat -> R) :
  bigsum n (fun i => f i + g i) = bigsum n f + bigsum n g.
Proof. induction n as [|n IH]; simpl; [lra|]. rewrite IH. lra. Qed.

Lemma bigsum_zero (n : nat) : bigsum n (fun _ => 0) = 0.
Proof. induction n as [|n IH]; simpl; [lra|]. rewrite IH. lra. Qed.

Lemma bigsum_swap (n k : nat) (f : nat -> nat -> R) :
  bigsum n (fun i => bigsum k (fun j => f i j)) =
  bigsum k (fun j => bigsum n (fun i => f i j)).
Proof.
  induction n as [|n IH]; simpl.
  - symmetry. apply bigsum_zero.
  - rewrite IH. symmetry. apply bigsum_plus.
Qed.

(* ================================================================== *)
(** * Arrays of finite values *)

Lemma all_fin_nth (v : array1) (i : nat) :
  all_fin v -> (i < length v)%nat -> nth i v NaN = Fin (rget1 v i).
Proof.
  intros Hv Hi. unfold rget1. apply is_fin_val.
  unfold all_fin in Hv. rewrite Forall_forall in Hv. apply Hv.
  apply nth_In. exact Hi.
Qed.

Lemma all_fin_intro (v : array1) :
  (forall i, (i < length v)%nat -> is_fin (nth i v NaN)) -> all_fin v.
Proof.
  intros H. unfold all_fin. rewrite Forall_forall. intros x Hin.
  destruct (In_nth _ _ NaN Hin) as [i [Hi <-]]. apply H. exact Hi.
Qed.

Lemma sum_snoc (v : array1) (x : float64) :
  np.sum (v ++ [x]) = fadd (np.sum v) x.
Proof. unfold np.sum. rewrite fold_left_app. reflexivity. Qed.

Lemma sum_fin (v : array1) :
  all_fin v -> np.sum v = Fin (bigsum (length v) (rget1 v)).
Proof.
  induction v as [|x v IH] using rev_ind; intros H.
  - reflexivity.
  - unfold all_fin in H. apply Forall_app in H. destruct H as [Hv Hx].
    inversion Hx as [|? ? Hx' _]; subst.
    rewrite sum_snoc, IH by assumption.
    rewrite length_app, Nat.add_comm. simpl.
    rewrite (is_fin_val _ Hx'). simpl. f_equal. f_equal.
    + apply bigsum_ext. intros i Hi. unfold rget1. rewrite app_nth1 by lia.
      reflexivity.
    + unfold rget1. rewrite nth_middle. reflexivity.
Qed.

Lemma map2_fmul_fin (v w : array1) :
  all_fin v -> all_fin w -> all_fin (map2 fmul v w).
Proof.
  intros Hv. revert w. induction Hv as [|x v Hx Hv IH]; intros w Hw; simpl.
  - constructor.
  - destruct Hw as [|y w Hy Hw]; constructor.
    + destruct x, y; simpl in *; auto; contradiction.
    + apply IH. assumption.
Qed.

Lemma rget1_map2_fmul (v w : array1) (i : nat) :
  all_fin v -> all_fin w -> length v = length w -> (i < length v)%nat ->
  rget1 (map2 fmul v w) i = rget1 v i * rget1 w i.
Proof.
  intros Hv Hw Hl Hi. unfold rget1 at 1.
  rewrite (nth_map2 fmul v w NaN NaN NaN Hl Hi).
  rewrite (all_fin_nth Hv Hi), (all_fin_nth Hw) by lia. reflexivity.
Qed.

Lemma inner_fin (v w : array1) :
  all_fin v -> all_fin w -> length v = length w ->
  np.inner v w = Fin (bigsum (length v) (fun i => rget1 v i * rget1 w i)).
Proof.
  intros Hv Hw Hl. unfold np.inner.
  rewrite sum_fin by (apply map2_fmul_fin; assumption).
  rewrite map2_length by assumption. f_equal.
  apply bigsum_ext. intros i Hi. apply rget1_map2_fmul; assumption.
Qed.

Lemma divide_scalar_fin (v : array1) (r : R) :
  all_fin v -> r <> 0 -> all_fin (np.divide_scalar v (Fin r)).
Proof.
  intros Hv Hr. unfold np.divide_scalar.
  induction Hv as [|x v Hx Hv IH]; simpl; constructor; auto.
  destruct x; simpl in Hx; try contradiction.
  rewrite fdiv_fin by assumption. exact I.
Qed.

Lemma rget1_divide_scalar (v : array1) (r : R) (i : nat) :
  all_fin v -> r <> 0 -> (i < length v)%nat ->
  rget1 (np.divide_scalar v (Fin r)) i = rget1 v i / r.
Proof.
  intros Hv Hr Hi. unfold rget1 at 1, np.divide_scalar.
  rewrite (nth_map_in _ _ NaN) by exact Hi.
  rewrite (all_fin_nth Hv Hi), fdiv_fin by assumption. reflexivity.
Qed.

Lemma column_fin (r c : nat) (M : array2) (j : nat) :
  rect r c M -> all_fin2 M -> (j < c)%nat -> all_fin (np.column j M).
Proof.
  intros [_ Hr] HM Hj. unfold np.column, all_fin, all_fin2 in *.
  rewrite Forall_forall in *. intros x Hin. apply in_map_iff in Hin.
  destruct Hin as [row [<- Hrow]].
  specialize (HM row Hrow). unfold all_fin in HM. rewrite Forall_forall in HM.
  apply HM. apply nth_In. rewrite (Hr row Hrow). exact Hj.
Qed.

Lemma rget1_column (M : array2) (i j : nat) :
  (i < length M)%nat -> rget1 (np.column j M) i = rget2 M i j.
Proof.
  intros Hi. unfold rget1, rget2, np.column.
  rewrite (nth_map_in _ _ []) by exact Hi. reflexivity.
Qed.

Lemma vm_fin (r c : nat) (v : array1) (M : array2) :
  rect r c M -> (1 <= r)%nat -> all_fin2 M -> all_fin v -> length v = r ->
  all_fin (np.vm v M).
Proof.
  intros HM Hr HMf Hv Hl. unfold np.vm. rewrite (rect_ncols HM Hr).
  unfold all_fin. rewrite Forall_forall. intros x Hin.
  apply in_map_iff in Hin. destruct Hin as [j [<- Hj]]. apply in_seq in Hj.
  rewrite inner_fin; [exact I|assumption| |].
  - apply (column_fin HM HMf). lia.
  - rewrite (rect_column_length _ HM). assumption.
Qed.

Lemma rget1_vm (r c : nat) (v : array1) (M : array2) (j : nat) :
  rect r c M -> (1 <= r)%nat -> all_fin2 M -> all_fin v -> length v = r ->
  (j < c)%nat ->
  rget1 (np.vm v M) j = bigsum r (fun i => rget1 v i * rget2 M i j).
Proof.
  intros HM Hr HMf Hv Hl Hj. unfold np.vm. rewrite (rect_ncols HM Hr).
  unfold rget1 at 1. rewrite (nth_map_in _ _ 0%nat) by (rewrite length_seq; exact Hj).
  rewrite seq_nth by exact Hj. simpl.
  rewrite inner_fin; [|assumption| |].
  - rewrite Hl. f_equal. apply bigsum_ext. intros i Hi.
    rewrite rget1_column by (destruct HM; lia). reflexivity.
  - apply (column_fin HM HMf). lia.
  - rewrite (rect_column_length _ HM). assumption.
Qed.

(* ================================================================== *)
(** * The forward recursion on finite values *)

Section ForwardReal.

Variables (q : array1) (Au pX : array2) (n T : nat).
Hypothesis Hn : (1 <= n)%nat.
Hypothesis Hq : length q = n.
Hypothesis HAu : rect n n Au.
Hypothesis HpX : rect n T pX.
Hypothesis Fq : all_fin q.
Hypothesis FAu : all_fin2 Au.
Hypothesis FpX : all_fin2 pX.

(** The masses of the steps before [k] are finite and not zero. *)
Let masses_nonzero (k : nat) : Prop :=
  forall s, (s < k)%nat -> exists r, scale_at q Au pX s = Fin r /\ r <> 0.

Lemma a_temp_fin (t : nat) :
  (t < T)%nat -> masses_nonzero t -> all_fin (a_temp_at q Au pX t).
Proof using Hn Hq HAu HpX Fq FAu FpX.
  induction t as [|t IH]; intros Ht Hm.
  - simpl. apply map2_fmul_fin; [assumption|].
    apply (column_fin HpX FpX Ht).
  - simpl. apply map2_fmul_fin; [apply (column_fin HpX FpX Ht)|].
    destruct (Hm t) as [r [Er Hr]]; [lia|].
    unfold scale_at in Er. rewrite Er.
    apply (vm_fin HAu Hn FAu).
    + apply divide_scalar_fin; [|assumption].
      apply IH; [lia|]. intros s Hs. apply Hm. lia.
    + rewrite divide_scalar_length. apply (@a_temp_at_length q Au pX n T Hn Hq HAu HpX).
Qed.

Lemma scale_at_val (t : nat) :
  (t < T)%nat -> masses_nonzero t ->
  scale_at q Au pX t = Fin (bigsum n (rget1 (a_temp_at q Au pX t))).
Proof using Hn Hq HAu HpX Fq FAu FpX.
  intros Ht Hm. unfold scale_at. rewrite sum_fin by (apply a_temp_fin; assumption).
  rewrite (@a_temp_at_length q Au pX n T Hn Hq HAu HpX). reflexivity.
Qed.

Lemma a_hat_fin (t : nat) :
  (t < T)%nat -> masses_nonzero (S t) -> all_fin (a_hat_at q Au pX t).
Proof using Hn Hq HAu HpX Fq FAu FpX.
  intros Ht Hm. unfold a_hat_at.
  destruct (Hm t) as [r [Er Hr]]; [lia|]. rewrite Er.
  apply divide_scalar_fin; [|assumption].
  apply a_temp_fin; [assumption|]. intros s Hs. apply Hm. lia.
Qed.

Lemma a_hat_entry (t i : nat) (r : R) :
  (t < T)%nat -> masses_nonzero t -> (i < n)%nat ->
  scale_at q Au pX t = Fin r -> r <> 0 ->
  r * rget1 (a_hat_at q Au pX t) i = rget1 (a_temp_at q Au pX t) i.
Proof using Hn Hq HAu HpX Fq FAu FpX.
  intros Ht Hm Hi Er Hr. unfold a_hat_at. rewrite Er.
  rewrite rget1_divide_scalar;
    [field; assumption|apply a_temp_fin; assumption|assumption|].
  rewrite (@a_temp_at_length q Au pX n T Hn Hq HAu HpX); assumption.
Qed.

(** Every column of [a_hat] sums to one. *)
Lemma a_hat_sum (t : nat) :
  (t < T)%nat -> masses_nonzero (S t) ->
  bigsum n (rget1 (a_hat_at q Au pX t)) = 1.
Proof using Hn Hq HAu HpX Fq FAu FpX.
  intros Ht Hm. destruct (Hm t) as [r [Er Hr]]; [lia|].
  assert (Hm' : masses_nonzero t) by (intros s Hs; apply Hm; lia).
  pose proof (scale_at_val Ht Hm') as Ev. rewrite Er in Ev.
  injection Ev as Ev.
  apply (Rmult_eq_reg_l r); [|assumption].
  rewrite <- bigsum_scal_l.
  rewrite (@bigsum_ext _ _ (rget1 (a_temp_at q Au pX t))).
  - lra.
  - intros i Hi. apply a_hat_entry; assumption.
Qed.

Lemma a_hat_init (i : nat) (r : R) :
  (0 < T)%nat -> (i < n)%nat -> scale_at q Au pX 0 = Fin r -> r <> 0 ->
  r * rget1 (a_hat_at q Au pX 0) i = rget1 q i * rget2 pX i 0.
Proof using Hn Hq HAu HpX Fq FAu FpX.
  intros HT Hi Er Hr.
  rewrite (a_hat_entry HT) by (assumption || (intros s Hs; lia)).
  simpl. rewrite rget1_map2_fmul.
  - rewrite rget1_column by (destruct HpX; lia). reflexivity.
  - assumption.
  - apply (column_fin HpX FpX HT).
  - rewrite (rect_column_length _ HpX). assumption.
  - lia.
Qed.

Lemma a_hat_step (t j : nat) (r : R) :
  (S t < T)%nat -> masses_nonzero (S t) -> (j < n)%nat ->
  scale_at q Au pX (S t) = Fin r -> r <> 0 ->
  r * rget1 (a_hat_at q Au pX (S t)) j =
  rget2 pX j (S t) *
  bigsum n (fun i => rget1 (a_hat_at q Au pX t) i * rget2 Au i j).
Proof using Hn Hq HAu HpX Fq FAu FpX.
  intros HT Hm Hj Er Hr.
  rewrite (a_hat_entry HT) by assumption.
  assert (Hf : all_fin (a_hat_at q Au pX t)) by (apply a_hat_fin; [lia|assumption]).
  change (a_temp_at q Au pX (S t))
    with (map2 fmul (np.column (S t) pX) (np.vm (a_hat_at q Au pX t) Au)).
  rewrite rget1_map2_fmul.
  - rewrite rget1_column by (destruct HpX; lia).
    rewrite (rget1_vm HAu Hn FAu Hf)
      by (assumption || apply (@a_hat_at_length q Au pX n T Hn Hq HAu HpX)).
    reflexivity.
  - apply (column_fin HpX FpX HT).
  - apply (vm_fin HAu Hn FAu Hf). apply (@a_hat_at_length q Au pX n T Hn Hq HAu HpX).
  - rewrite (rect_column_length _ HpX), vm_length.
    symmetry. apply (rect_ncols HAu Hn).
  - rewrite (rect_column_length _ HpX). assumption.
Qed.

End ForwardReal.

(* ================================================================== *)
(** * The result of forward *)

Lemma removelast_length (l : array1) : length (removelast l) = (length l - 1)%nat.
Proof.
  induction l as [|x l IH]; [reflexivity|].
  destruct l as [|y l]; [reflexivity|].
  change (removelast (x :: y :: l)) with (x :: removelast (y :: l)).
  simpl length in *. rewrite IH. lia.
Qed.

Lemma nth_removelast (l : array1) (j : nat) :
  (j + 1 < length l)%nat -> nth j (removelast l) NaN = nth j l NaN.
Proof.
  revert j. induction l as [|x l IH]; intros j Hj; [reflexivity|].
  destruct l as [|y l]; [simpl in Hj; lia|].
  change (removelast (x :: y :: l)) with (x :: removelast (y :: l)).
  destruct j as [|j]; [reflexivity|].
  change (nth (S j) (x :: removelast (y :: l)) NaN)
    with (nth j (removelast (y :: l)) NaN).
  change (nth (S j) (x :: y :: l) NaN) with (nth j (y :: l) NaN).
  apply IH. simpl length in *. lia.
Qed.

Lemma removelast_fin (l : array1) : all_fin l -> all_fin (removelast l).
Proof.
  intros H. induction H as [|x l Hx Hl IH]; [constructor|].
  destruct l as [|y l]; [constructor|].
  change (removelast (x :: y :: l)) with (x :: removelast (y :: l)).
  constructor; assumption.
Qed.

Lemma droplastcol_rect (r c : nat) (M : array2) :
  rect r (c + 1) M -> rect r c (np.droplastcol M).
Proof.
  intros [Hl Hr]. split.
  - unfold np.droplastcol. rewrite length_map. exact Hl.
  - unfold np.droplastcol. rewrite Forall_map.
    eapply Forall_impl; [|exact Hr].
    intros row Hrow. simpl in Hrow. rewrite removelast_length. lia.
Qed.

Lemma droplastcol_fin (M : array2) : all_fin2 M -> all_fin2 (np.droplastcol M).
Proof.
  intros H. unfold all_fin2, np.droplastcol. rewrite Forall_map.
  eapply Forall_impl; [|exact H]. intros row. apply removelast_fin.
Qed.

Lemma rget2_droplastcol (r c : nat) (M : array2) (i j : nat) :
  rect r (c + 1) M -> (i < r)%nat -> (j < c)%nat ->
  rget2 (np.droplastcol M) i j = rget2 M i j.
Proof.
  intros HM Hi Hj. unfold rget2, np.droplastcol.
  destruct HM as [Hl Hr].
  rewrite (nth_map_in _ _ []) by lia.
  rewrite nth_removelast; [reflexivity|].
  rewrite Forall_forall in Hr. rewrite (Hr (nth i M [])); [lia|].
  apply nth_In. lia.
Qed.

Lemma A_states_rect (m : MarkovChain.t) :
  model_shape m ->
  rect (MarkovChain.nStates m) (MarkovChain.nStates m) (A_states m).
Proof.
  intros [_ _ HA]. unfold A_states.
  destruct (MarkovChain.is_finite m).
  - apply droplastcol_rect. exact HA.
  - rewrite Nat.add_0_r in HA. exact HA.
Qed.

Lemma A_states_fin (m : MarkovChain.t) :
  all_fin2 (MarkovChain.A m) -> all_fin2 (A_states m).
Proof.
  intros H. unfold A_states. destruct (MarkovChain.is_finite m); [|exact H].
  apply droplastcol_fin. exact H.
Qed.

Lemma rget2_A_states (m : MarkovChain.t) (i j : nat) :
  model_shape m ->
  (i < MarkovChain.nStates m)%nat -> (j < MarkovChain.nStates m)%nat ->
  rget2 (A_states m) i j = rget2 (MarkovChain.A m) i j.
Proof.
  intros [_ _ HA] Hi Hj. unfold A_states.
  destruct (MarkovChain.is_finite m); [|reflexivity].
  apply (rget2_droplastcol HA); assumption.
Qed.

(** [forward] returns, and its result obeys the equations of the scaled
    forward recursion. *)
Lemma forward_spec (m : MarkovChain.t) (pX : array2) (T : nat) :
  model_shape m ->
  rect (MarkovChain.nStates m) T pX ->
  (1 <= T)%nat ->
  exists a_hat c,
    MarkovChain.forward m pX = Ok (a_hat, c) /\
    rect (MarkovChain.nStates m) T a_hat /\
    length c = (T + (if MarkovChain.is_finite m then 1 else 0))%nat /\
    (forall t, (t < T)%nat ->
       np.column t a_hat = a_hat_at (MarkovChain.q m) (A_states m) pX t /\
       nth t c NaN = scale_at (MarkovChain.q m) (A_states m) pX t) /\
    (MarkovChain.is_finite m = true ->
       nth T c NaN =
       np.inner (np.column (T - 1) a_hat)
                (np.column (MarkovChain.nStates m) (MarkovChain.A m))).
Proof.
  intros Hm HpX HT. pose proof (A_states_rect Hm) as HAu.
  destruct Hm as [Hn Hq HA].
  unfold MarkovChain.forward, np.shape. rewrite (rect_ncols HpX Hn). simpl snd.
  unfold A_states in *.
  destruct (MarkovChain.is_finite m) eqn:Ef.
  - destruct (@forward_steps_spec (MarkovChain.q m) _ pX _ T (T + 1)
                Hn Hq HAu HpX ltac:(lia) m eq_refl eq_refl HT)
      as [a_hat [c [E [Ha [Hc [Hcols Hrest]]]]]].
    simpl in Ha, Hc.
    rewrite E. ok_step.
    rewrite (getcol_ok Ha Hn) by lia. ok_step.
    rewrite (lastcol_ok HA Hn) by lia. ok_step.
    replace (MarkovChain.nStates m + 1 - 1)%nat with (MarkovChain.nStates m) by lia.
    unfold np.dot. rewrite !column_length.
    destruct Ha as [Hal Har]. destruct HA as [HAl HAr].
    rewrite Hal, HAl, Nat.eqb_refl. ok_step.
    rewrite setitem_ok by lia. ok_step.
    exists a_hat, (upd T (np.inner (np.column (T - 1) a_hat)
                            (np.column (MarkovChain.nStates m) (MarkovChain.A m))) c).
    split; [reflexivity|]. split; [split; assumption|].
    split; [rewrite upd_length; assumption|]. split.
    + intros t Ht. rewrite nth_upd_neq by lia. apply Hcols. exact Ht.
    + intros _. apply nth_upd_eq. lia.
  - destruct (@forward_steps_spec (MarkovChain.q m) _ pX _ T T
                Hn Hq HAu HpX ltac:(lia) m eq_refl eq_refl HT)
      as [a_hat [c [E [Ha [Hc [Hcols Hrest]]]]]].
    simpl in Ha, Hc.
    exists a_hat, c. split; [exact E|]. split; [assumption|].
    split; [lia|]. split; [exact Hcols|]. discriminate.
Qed.

Lemma column_entry (M : array2) (i t : nat) :
  (i < length M)%nat -> nth i (np.column t M) NaN = nth t (nth i M []) NaN.
Proof.
  intros Hi. unfold np.column. rewrite (nth_map_in _ _ []) by exact Hi.
  reflexivity.
Qed.

Lemma positive_masses_nonzero (m : MarkovChain.t) (pX : array2) (T : nat)
  (c : array1) :
  positive_masses T c ->
  (forall t, (t < T)%nat ->
     nth t c NaN = scale_at (MarkovChain.q m) (A_states m) pX t) ->
  forall k s, (k <= T)%nat -> (s < k)%nat ->
    exists r, scale_at (MarkovChain.q m) (A_states m) pX s = Fin r /\ r <> 0.
Proof.
  intros Hp Hc k s Hk Hs. destruct (Hp s) as [r [Er Hr]]; [lia|].
  exists r. rewrite <- Hc by lia. split; [assumption|lra].
Qed.

(** In exact arithmetic: for a model and a [pX] with [nStates] rows and
    [T >= 1] columns, all entries finite, [forward(pX)] returns
    [(a_hat, c)] with [a_hat] of shape [nStates x T] and [c] of [T] entries
    for an infinite-duration chain, [T + 1] for a finite-duration chain;
    when the mass [c[t]] of every step is strictly positive, every column
    of [a_hat] sums to 1.  (The [float64] quotients round, so the sum of a
    column of the code's [a_hat] is 1 up to rounding only.) *)
Theorem forward_columns_normalised (m : MarkovChain.t) (pX : array2) (T : nat) :
  model_shape m ->
  all_fin (MarkovChain.q m) -> all_fin2 (MarkovChain.A m) ->
  rect (MarkovChain.nStates m) T pX -> all_fin2 pX ->
  (1 <= T)%nat ->
  exists a_hat c,
    MarkovChain.forward m pX = Ok (a_hat, c) /\
    np.shape a_hat = (MarkovChain.nStates m, T) /\
    rect (MarkovChain.nStates m) T a_hat /\
    length c = (T + (if MarkovChain.is_finite m then 1 else 0))%nat /\
    (positive_masses T c ->
     forall t, (t < T)%nat -> np.sum (np.column t a_hat) = Fin 1).
Proof.
  intros Hm Fq FA HpX FpX HT.
  destruct (forward_spec Hm HpX HT) as [a_hat [c [E [Ha [Hc [Hcols _]]]]]].
  exists a_hat, c. split; [exact E|].
  pose proof (A_states_rect Hm) as HAu.
  pose proof (A_states_fin m FA) as FAu.
  pose proof Hm as [Hn Hq _].
  split; [|split; [assumption|split; [assumption|]]].
  - unfold np.shape, np.nrows. rewrite (rect_ncols Ha Hn).
    destruct Ha as [Hal _]. rewrite Hal. reflexivity.
  - intros Hp t Ht. destruct (Hcols t Ht) as [-> _].
    assert (Hnz := positive_masses_nonzero m pX Hp (fun t Ht => proj2 (Hcols t Ht))).
    rewrite sum_fin
      by (apply (a_hat_fin Hn Hq HAu HpX Fq FAu FpX Ht); intros s Hs;
          apply (Hnz (S t)); lia).
    rewrite (@a_hat_at_length _ _ _ _ _ Hn Hq HAu HpX).
    f_equal. apply (a_hat_sum Hn Hq HAu HpX Fq FAu FpX Ht).
    intros s Hs. apply (Hnz (S t)); lia.
Qed.


(* ================================================================== *)
(** * Sums over state paths *)

Lemma Rsum_app (l l' : list R) : Rsum (l ++ l') = Rsum l + Rsum l'.
Proof. induction l as [|x l IH]; simpl; [lra|]. rewrite IH. lra. Qed.

Lemma Rsum_map_scal {X : Type} (a : R) (f : X -> R) (l : list X) :
  Rsum (map (fun p => a * f p) l) = a * Rsum (map f l).
Proof. induction l as [|x l IH]; simpl; [lra|]. rewrite IH. lra. Qed.

Lemma Rsum_flat_map {X : Type} (g : nat -> list X) (f : X -> R) (n : nat) :
  Rsum (map f (flat_map g (seq 0 n))) = bigsum n (fun s => Rsum (map f (g s))).
Proof.
  induction n as [|n IH]; [reflexivity|].
  rewrite seq_S, flat_map_app, map_app, Rsum_app, IH. simpl.
  rewrite app_nil_r. reflexivity.
Qed.

Lemma tail_sum_O (m : MarkovChain.t) (pX : array2) (t prev : nat) :
  tail_sum m pX 0 t prev =
  if MarkovChain.is_finite m
  then rget2 (MarkovChain.A m) prev (MarkovChain.nStates m)
  else 1.
Proof. unfold tail_sum. simpl. lra. Qed.

Lemma tail_sum_S (m : MarkovChain.t) (pX : array2) (k t prev : nat) :
  tail_sum m pX (S k) t prev =
  bigsum (MarkovChain.nStates m)
    (fun s => rget2 (MarkovChain.A m) prev s * rget2 pX s t *
              tail_sum m pX k (S t) s).
Proof.
  unfold tail_sum. simpl all_paths. rewrite Rsum_flat_map.
  apply bigsum_ext. intros s Hs. rewrite map_map. simpl.
  apply Rsum_map_scal.
Qed.

Lemma likelihood_unfold (m : MarkovChain.t) (pX : array2) (k : nat) :
  np.ncols pX = S k ->
  likelihood m pX =
  bigsum (MarkovChain.nStates m)
    (fun s => rget1 (MarkovChain.q m) s * rget2 pX s 0 * tail_sum m pX k 1 s).
Proof.
  intros E. unfold likelihood. rewrite E. simpl all_paths.
  rewrite Rsum_flat_map. apply bigsum_ext. intros s Hs.
  rewrite map_map. simpl. apply Rsum_map_scal.
Qed.

Lemma bigprod_ext (n : nat) (f g : nat -> R) :
  (forall i, (i < n)%nat -> f i = g i) -> bigprod n f = bigprod n g.
Proof.
  induction n as [|n IH]; intros H; simpl; [reflexivity|].
  rewrite IH by (intros; apply H; lia). rewrite H by lia. reflexivity.
Qed.

Lemma prod_snoc (v : array1) (x : float64) :
  np.prod (v ++ [x]) = fmul (np.prod v) x.
Proof. unfold np.prod. rewrite fold_left_app. reflexivity. Qed.

Lemma prod_fin (v : array1) :
  all_fin v -> np.prod v = Fin (bigprod (length v) (rget1 v)).
Proof.
  induction v as [|x v IH] using rev_ind; intros H.
  - reflexivity.
  - unfold all_fin in H. apply Forall_app in H. destruct H as [Hv Hx].
    inversion Hx as [|? ? Hx' _]; subst.
    rewrite prod_snoc, IH by assumption.
    rewrite length_app, Nat.add_comm. simpl.
    rewrite (is_fin_val _ Hx'). simpl. f_equal. f_equal.
    + apply bigprod_ext. intros i Hi. unfold rget1. rewrite app_nth1 by lia.
      reflexivity.
    + unfold rget1. rewrite nth_middle. reflexivity.
Qed.

(* ================================================================== *)
(** * The product of the scale factors *)

Section Likelihood.

Variables (m : MarkovChain.t) (pX : array2) (T : nat).
Hypothesis Hm : model_shape m.
Hypothesis Fq : all_fin (MarkovChain.q m).
Hypothesis FA : all_fin2 (MarkovChain.A m).
Hypothesis HpX : rect (MarkovChain.nStates m) T pX.
Hypothesis FpX : all_fin2 pX.

Let n := MarkovChain.nStates m.
Let ah (t i : nat) : R := rget1 (a_hat_at (MarkovChain.q m) (A_states m) pX t) i.
Let rr (t : nat) : R := val (scale_at (MarkovChain.q m) (A_states m) pX t).

Hypothesis Hnz :
  forall s, (s < T)%nat ->
    exists r, scale_at (MarkovChain.q m) (A_states m) pX s = Fin r /\ r <> 0.

Lemma ah_init (i : nat) :
  (0 < T)%nat -> (i < n)%nat ->
  rr 0 * ah 0 i = rget1 (MarkovChain.q m) i * rget2 pX i 0.
Proof using Hm Fq FA HpX FpX Hnz.
  intros HT Hi. destruct (Hnz HT) as [r [Er Hr]].
  unfold rr, ah. rewrite Er. simpl val.
  pose proof Hm as [Hn Hq _].
  apply (a_hat_init Hn Hq (A_states_rect Hm) HpX Fq (A_states_fin m FA) FpX);
    assumption.
Qed.

Lemma ah_step (t j : nat) :
  (S t < T)%nat -> (j < n)%nat ->
  rr (S t) * ah (S t) j =
  rget2 pX j (S t) *
  bigsum n (fun i => ah t i * rget2 (MarkovChain.A m) i j).
Proof using Hm Fq FA HpX FpX Hnz.
  intros HT Hj. destruct (Hnz HT) as [r [Er Hr]].
  unfold rr, ah. rewrite Er. simpl val.
  pose proof Hm as [Hn Hq _].
  rewrite (a_hat_step Hn Hq (A_states_rect Hm) HpX Fq (A_states_fin m FA) FpX HT)
    by (assumption || (intros s Hs; apply Hnz; lia)).
  f_equal. apply bigsum_ext. intros i Hi.
  rewrite rget2_A_states by assumption. reflexivity.
Qed.

Lemma ah_sum (t : nat) : (t < T)%nat -> bigsum n (ah t) = 1.
Proof using Hm Fq FA HpX FpX Hnz.
  intros Ht. pose proof Hm as [Hn Hq _].
  apply (a_hat_sum Hn Hq (A_states_rect Hm) HpX Fq (A_states_fin m FA) FpX Ht).
  intros s Hs. apply Hnz. lia.
Qed.

Lemma ah_fin (t : nat) :
  (t < T)%nat -> all_fin (a_hat_at (MarkovChain.q m) (A_states m) pX t).
Proof using Hm Fq FA HpX FpX Hnz.
  intros Ht. pose proof Hm as [Hn Hq _].
  apply (a_hat_fin Hn Hq (A_states_rect Hm) HpX Fq (A_states_fin m FA) FpX Ht).
  intros s Hs. apply Hnz. lia.
Qed.

(** One step of the recursion moves a transition and an observation from
    the path sum into the scaled forward variable. *)
Lemma forward_tail_step (t k : nat) :
  (S t < T)%nat ->
  bigsum n (fun i => ah t i * tail_sum m pX (S k) (S t) i) =
  rr (S t) * bigsum n (fun j => ah (S t) j * tail_sum m pX k (S (S t)) j).
Proof using Hm Fq FA HpX FpX Hnz.
  intros HT.
  rewrite (@bigsum_ext n _
             (fun i => bigsum n (fun j =>
                ah t i * rget2 (MarkovChain.A m) i j *
                (rget2 pX j (S t) * tail_sum m pX k (S (S t)) j)))).
  2:{ intros i Hi. rewrite tail_sum_S. fold n. rewrite <- bigsum_scal_l.
      apply bigsum_ext. intros j Hj. ring. }
  rewrite bigsum_swap. rewrite <- bigsum_scal_l.
  apply bigsum_ext. intros j Hj.
  rewrite bigsum_scal_r.
  transitivity (rr (S t) * ah (S t) j * tail_sum m pX k (S (S t)) j); [|ring].
  rewrite ah_step by assumption. ring.
Qed.

Lemma likelihood_forward (t : nat) :
  (t < T)%nat ->
  likelihood m pX =
  bigprod (S t) rr *
  bigsum n (fun i => ah t i * tail_sum m pX (T - 1 - t) (S t) i).
Proof using Hm Fq FA HpX FpX Hnz.
  induction t as [|t IH]; intros Ht.
  - pose proof Hm as [Hn _ _].
    rewrite (@likelihood_unfold m pX (T - 1))
      by (rewrite (rect_ncols HpX Hn); lia).
    fold n. simpl bigprod. rewrite Rmult_1_l, <- bigsum_scal_l.
    rewrite Nat.sub_0_r.
    apply bigsum_ext. intros i Hi.
    rewrite <- ah_init by assumption. ring.
  - rewrite IH by lia.
    replace (T - 1 - t)%nat with (S (T - 1 - S t)) by lia.
    rewrite forward_tail_step by assumption.
    change (bigprod (S (S t)) rr) with (bigprod (S t) rr * rr (S t)).
    ring.
Qed.

End Likelihood.

(** In exact arithmetic: for a model (finite or infinite duration) and a
    [pX] with [nStates] rows and [T >= 1] columns, all entries finite,
    [forward(pX)] returns [(a_hat, c)], and when the mass [c[t]] of every
    step is strictly positive the product of all entries of [c] is the
    likelihood of the observations: the sum over all state paths of the
    initial probability times the transition probabilities times the
    entries of [pX] along the path (times, for a finite-duration chain, the
    probability of exiting to END after the last step).  (The [float64]
    product agrees with this real number up to rounding only.) *)
Theorem forward_scale_product (m : MarkovChain.t) (pX : array2) (T : nat) :
  model_shape m ->
  all_fin (MarkovChain.q m) -> all_fin2 (MarkovChain.A m) ->
  rect (MarkovChain.nStates m) T pX -> all_fin2 pX ->
  (1 <= T)%nat ->
  exists a_hat c,
    MarkovChain.forward m pX = Ok (a_hat, c) /\
    (positive_masses T c -> np.prod c = Fin (likelihood m pX)).
Proof.
  intros Hm Fq FA HpX FpX HT.
  destruct (forward_spec Hm HpX HT) as [a_hat [c [E [Ha [Hc [Hcols Hexit]]]]]].
  exists a_hat, c. split; [exact E|]. intros Hp.
  assert (Hnz : forall s, (s < T)%nat ->
            exists r, scale_at (MarkovChain.q m) (A_states m) pX s = Fin r /\ r <> 0).
  { intros s Hs.
    apply (positive_masses_nonzero m pX Hp (fun t Ht => proj2 (Hcols t Ht))
             (k := T)); lia. }
  assert (Hrr : forall s, (s < T)%nat ->
            rget1 c s = val (scale_at (MarkovChain.q m) (A_states m) pX s)).
  { intros s Hs. unfold rget1. destruct (Hcols s Hs) as [_ ->]. reflexivity. }
  rewrite (likelihood_forward Hm Fq FA HpX FpX Hnz (t := T - 1)) by lia.
  replace (T - 1 - (T - 1))%nat with 0%nat by lia.
  replace (S (T - 1)) with T by lia.
  pose proof Hm as [Hn Hq HA].
  destruct (MarkovChain.is_finite m) eqn:Ef.
  - (* finite duration: the last entry of [c] is the exit probability *)
    specialize (Hexit eq_refl).
    destruct (Hcols (T - 1)%nat) as [Hcol _]; [lia|].
    rewrite Hcol in Hexit.
    assert (Hlast : nth T c NaN =
              Fin (bigsum (MarkovChain.nStates m)
                     (fun i => rget1 (a_hat_at (MarkovChain.q m) (A_states m) pX (T - 1)) i *
                               rget2 (MarkovChain.A m) i (MarkovChain.nStates m)))).
    { rewrite Hexit. rewrite inner_fin.
      - rewrite (@a_hat_at_length _ _ _ _ _ Hn Hq (A_states_rect Hm) HpX).
        f_equal. apply bigsum_ext. intros i Hi.
        rewrite rget1_column by (destruct HA; lia). reflexivity.
      - apply (ah_fin Hm Fq FA HpX FpX Hnz). lia.
      - apply (column_fin HA FA). lia.
      - rewrite (@a_hat_at_length _ _ _ _ _ Hn Hq (A_states_rect Hm) HpX).
        rewrite column_length. destruct HA; auto. }
    rewrite prod_fin.
    + rewrite Hc. replace (T + 1)%nat with (S T) by lia. simpl bigprod.
      f_equal. unfold rget1 at 2. rewrite Hlast. simpl val.
      f_equal.
      * apply bigprod_ext. exact Hrr.
      * apply bigsum_ext. intros i Hi. rewrite tail_sum_O, Ef. reflexivity.
    + apply all_fin_intro. intros i Hi. rewrite Hc in Hi.
      destruct (Nat.eq_dec i T) as [->|Hne].
      * rewrite Hlast. exact I.
      * destruct (Hp i) as [r [-> _]]; [lia|exact I].
  - rewrite prod_fin.
    + rewrite Hc, Nat.add_0_r. f_equal.
      rewrite (@bigsum_ext _ _
                 (rget1 (a_hat_at (MarkovChain.q m) (A_states m) pX (T - 1)))).
      * rewrite (ah_sum Hm Fq FA HpX FpX Hnz) by lia.
        rewrite Rmult_1_r. apply bigprod_ext. exact Hrr.
      * intros i Hi. rewrite tail_sum_O, Ef. ring.
    + apply all_fin_intro. intros i Hi. rewrite Hc in Hi.
      destruct (Hp i) as [r [-> _]]; [lia|exact I].
Qed.

(* ================================================================== *)
(** * The loops of backward *)

Lemma for_each_pure {S : Type} (l : list nat) (body : nat -> S -> result S)
  (f : S -> nat -> S) (s : S) :
  (forall j s', In j l -> body j s' = Ok (f s' j)) ->
  for_each l body s = Ok (fold_left f l s).
Proof.
  revert s. induction l as [|j l IH]; intros s H; simpl; [reflexivity|].
  rewrite H by (left; reflexivity). ok_step.
  apply IH. intros j' s' Hin. apply H. right. exact Hin.
Qed.

Lemma map_upd {X Y : Type} (f : X -> Y) (i : nat) (x : X) (l : list X) :
  map f (upd i x l) = upd i (f x) (map f l).
Proof.
  revert i. induction l as [|h t IH]; intros [|i]; simpl; auto.
  rewrite IH. reflexivity.
Qed.

Lemma upd_same {X : Type} (i : nat) (d : X) (l : list X) :
  upd i (nth i l d) l = l.
Proof.
  revert i. induction l as [|h t IH]; intros [|i]; simpl; auto.
  rewrite IH. reflexivity.
Qed.

Lemma set2_ok (r c : nat) (M : array2) (i j : nat) (x : float64) :
  rect r c M -> (i < r)%nat -> (j < c)%nat ->
  np.set2 M i j x = Ok (upd i (upd j x (nth i M [])) M).
Proof.
  intros HM Hi Hj. pose proof (rect_row_length HM Hi) as Hrow.
  destruct HM as [Hl Hr]. unfold np.set2.
  rewrite (getitem_nth M []) by lia. ok_step.
  rewrite setitem_ok by lia. ok_step.
  rewrite setitem_ok by lia. reflexivity.
Qed.

Lemma put_rect (r c : nat) (M : array2) (i j : nat) (x : float64) :
  rect r c M -> (i < r)%nat ->
  rect r c (upd i (upd j x (nth i M [])) M).
Proof.
  intros HM Hi. pose proof (rect_row_length HM Hi) as Hrow.
  destruct HM as [Hl Hr]. split.
  - rewrite upd_length. exact Hl.
  - rewrite Forall_forall in *. intros row Hin.
    destruct (In_nth _ _ [] Hin) as [k [Hk <-]]. rewrite upd_length in Hk.
    destruct (Nat.eq_dec k i) as [->|Hne].
    + rewrite nth_upd_eq by lia. rewrite upd_length. exact Hrow.
    + rewrite nth_upd_neq by assumption. apply Hr. apply nth_In. exact Hk.
Qed.

Lemma column_put_neq (M : array2) (i j s : nat) (x : float64) :
  (i < length M)%nat -> s <> j ->
  np.column s (upd i (upd j x (nth i M [])) M) = np.column s M.
Proof.
  intros Hi Hs. unfold np.column. rewrite map_upd.
  rewrite nth_upd_neq by assumption.
  rewrite <- (nth_map_in (fun row => nth s row NaN) M [] NaN Hi).
  apply upd_same.
Qed.

Lemma entry_put_eq (r c : nat) (M : array2) (i j : nat) (x : float64) :
  rect r c M -> (i < r)%nat -> (j < c)%nat ->
  nth j (nth i (upd i (upd j x (nth i M [])) M) []) NaN = x.
Proof.
  intros HM Hi Hj. pose proof (rect_row_length HM Hi) as Hrow.
  destruct HM as [Hl Hr].
  rewrite nth_upd_eq by lia. apply nth_upd_eq. lia.
Qed.

Lemma entry_put_neq (M : array2) (i i' j j' : nat) (x : float64) :
  i' <> i ->
  nth j' (nth i' (upd i (upd j x (nth i M [])) M) []) NaN = nth j' (nth i' M []) NaN.
Proof. intros H. rewrite nth_upd_neq by assumption. reflexivity. Qed.

Lemma broadcast_one (n : nat) (x : float64) :
  (1 <= n)%nat -> np.broadcast_to n [x] = Ok (repeat x n).
Proof.
  intros Hn. unfold np.broadcast_to. simpl length.
  destruct (Nat.eqb_spec 1 n) as [<-|Hne]; reflexivity.
Qed.

Lemma getitem_neg_ok {X : Type} (l : list X) (k : nat) (d : X) :
  (1 <= k)%nat -> (k <= length l)%nat ->
  getitem_neg l k = Ok (nth (length l - k) l d).
Proof.
  intros Hk Hl. unfold getitem_neg.
  destruct (Nat.leb_spec k (length l)); [|lia].
  apply getitem_nth. lia.
Qed.

Section BackwardLoop.

Variables (m : MarkovChain.t) (c : array1) (pX : array2) (T : nat).
Hypothesis Hm : model_shape m.
Hypothesis HpX : rect (MarkovChain.nStates m) T pX.
Hypothesis Hc :
  length c = (T + (if MarkovChain.is_finite m then 1 else 0))%nat.
Hypothesis HT : (1 <= T)%nat.

Let n := MarkovChain.nStates m.

Lemma backward_sum_spec (beta_hat : array2) (t i : nat) :
  rect n T beta_hat -> (S t < T)%nat -> (i < n)%nat ->
  MarkovChain.backward_sum m pX beta_hat t i =
  Ok (sum_products_at m pX (np.column (t + 1) beta_hat) t i).
Proof.
  clear Hc HT.
  intros Hb Ht Hi. unfold MarkovChain.backward_sum, sum_products_at.
  apply for_each_pure. intros j acc Hj. apply in_seq in Hj.
  destruct Hm as [Hn Hq HA].
  rewrite get2_nth
    by (rewrite ?(rect_row_length HA Hi); destruct HA; fold n; lia).
  ok_step.
  rewrite get2_nth
    by (rewrite ?(rect_row_length HpX (i := j)); destruct HpX; fold n; lia).
  ok_step.
  rewrite get2_nth
    by (rewrite ?(rect_row_length Hb (i := j)); destruct Hb; fold n; lia).
  ok_step.
  rewrite column_entry by (destruct Hb; fold n; lia). reflexivity.
Qed.

(** The body of the loop over [i]. *)
Let row_body (t i : nat) (beta_hat : array2) : result array2 :=
  sum_products <- MarkovChain.backward_sum m pX beta_hat t i ;;
  ct <- getitem c t ;;
  np.set2 beta_hat i t (fdiv sum_products ct).

Lemma backward_row_spec (t : nat) (beta0 : array2) (len : nat) :
  (S t < T)%nat ->
  forall i beta_hat, (i + len <= n)%nat ->
    bwd_row_inv m c pX T t beta0 i beta_hat ->
    exists beta',
      for_each (seq i len) (row_body t) beta_hat = Ok beta' /\
      bwd_row_inv m c pX T t beta0 (i + len) beta'.
Proof.
  intros Ht. induction len as [|len IH]; intros i beta_hat Hi Hinv; simpl.
  - exists beta_hat. split; [reflexivity|]. rewrite Nat.add_0_r. exact Hinv.
  - destruct Hinv as [Hb [Hcols Hrows]]. unfold row_body at 1.
    rewrite backward_sum_spec by (assumption || fold n; lia). ok_step.
    rewrite (getitem_nth c NaN) by lia. ok_step.
    rewrite (set2_ok _ Hb) by (fold n; lia).
    rewrite Hcols by lia. ok_step.
    destruct (IH (S i)
                (upd i (upd t (fdiv (sum_products_at m pX (np.column (t + 1) beta0) t i)
                                    (nth t c NaN))
                          (nth i beta_hat [])) beta_hat))
      as [beta' [E Hinv']]; [lia| |].
    + split; [|split].
      * apply put_rect; [assumption|fold n; lia].
      * intros s Hs. rewrite column_put_neq by (destruct Hb; fold n; lia).
        apply Hcols. exact Hs.
      * intros i' Hi'. destruct (Nat.eq_dec i' i) as [->|Hne].
        -- apply (entry_put_eq _ Hb); fold n; lia.
        -- rewrite entry_put_neq by assumption. apply Hrows. lia.
    + exists beta'. split; [exact E|].
      replace (i + S len)%nat with (S i + len)%nat by lia. exact Hinv'.
Qed.

Lemma backward_step_spec (t : nat) (beta_hat : array2) :
  (S t < T)%nat ->
  bwd_inv m c pX T (S t) beta_hat ->
  exists beta',
    MarkovChain.backward_step m c pX t beta_hat = Ok beta' /\
    bwd_inv m c pX T t beta'.
Proof.
  intros Ht [Hb Hcols].
  change (MarkovChain.backward_step m c pX t beta_hat)
    with (for_each (seq 0 n) (row_body t) beta_hat).
  destruct (@backward_row_spec t beta_hat n Ht 0%nat beta_hat)
    as [beta' [E [Hb' [Hcols' Hrows']]]]; [fold n; lia| |].
  { split; [assumption|]. split; [reflexivity|]. intros i' Hi'. lia. }
  exists beta'. split; [exact E|]. split; [assumption|].
  intros s Hs HsT. destruct (Nat.eq_dec s t) as [->|Hne].
  - replace (T - 1 - t)%nat with (S (T - 2 - t)) by lia.
    simpl beta_at. replace (T - 2 - (T - 2 - t))%nat with t by lia.
    replace (beta_at m c pX T (T - 2 - t)) with (np.column (t + 1) beta_hat)
      by (rewrite Hcols by lia; f_equal; lia).
    fold n. apply (nth_ext _ _ NaN NaN).
    + rewrite column_length, length_map, length_seq. destruct Hb'; auto.
    + intros i Hi. rewrite column_length in Hi. destruct Hb' as [Hbl _].
      fold n in Hbl. rewrite column_entry by lia.
      rewrite Hrows' by lia.
      rewrite (nth_map_in _ _ 0%nat) by (rewrite length_seq; lia).
      rewrite seq_nth by lia. reflexivity.
  - rewrite Hcols' by assumption. apply Hcols; lia.
Qed.

Lemma backward_loop_spec (len : nat) :
  forall beta_hat, (len + 1 <= T)%nat ->
    bwd_inv m c pX T len beta_hat ->
    exists beta',
      for_each (rev (seq 0 len)) (MarkovChain.backward_step m c pX) beta_hat
      = Ok beta' /\
      bwd_inv m c pX T 0 beta'.
Proof.
  induction len as [|len IH]; intros beta_hat Hlen Hinv.
  - exists beta_hat. split; [reflexivity|assumption].
  - rewrite seq_S, rev_app_distr. simpl.
    destruct (@backward_step_spec len beta_hat) as [beta1 [E1 Hinv1]];
      [lia|assumption|].
    rewrite E1. ok_step. apply IH; [lia|assumption].
Qed.

Lemma backward_spec :
  exists beta_hat,
    MarkovChain.backward m c pX = Ok beta_hat /\
    bwd_inv m c pX T 0 beta_hat.
Proof.
  pose proof Hm as [Hn Hq HA].
  unfold MarkovChain.backward, np.shape. rewrite (rect_ncols HpX Hn).
  simpl snd. fold n in Hn, HA |- *.
  pose proof (zeros2_rect n T) as Hz.
  assert (Hinit : exists beta1,
    (if MarkovChain.is_finite m
     then
       a_end <- np.lastcol (MarkovChain.A m) ;;
       beta_hat <- np.setcol (np.zeros2 n T) (T - 1) a_end ;;
       b_last <- np.lastcol beta_hat ;;
       c1 <- getitem_neg c 1 ;;
       c2 <- getitem_neg c 2 ;;
       np.setcol beta_hat (T - 1) (np.divide_scalar b_last (fmul c1 c2))
     else
       c1 <- getitem_neg c 1 ;;
       np.setcol (np.zeros2 n T) (T - 1) [fdiv (Fin 1) c1]) = Ok beta1 /\
    bwd_inv m c pX T (T - 1) beta1).
  { destruct (MarkovChain.is_finite m) eqn:Ef.
    - rewrite (lastcol_ok HA Hn) by lia. ok_step.
      replace (n + 1 - 1)%nat with n by lia.
      assert (Hlen : length (np.column n (MarkovChain.A m)) = n)
        by apply (rect_column_length _ HA).
      rewrite (setcol_ok _ Hz Hn) by (lia || assumption). ok_step.
      pose proof (putcol_rect (T - 1) _ Hz Hlen) as Hb1.
      rewrite (lastcol_ok Hb1 Hn) by lia. ok_step.
      rewrite (column_putcol_eq _ Hz) by (lia || assumption).
      rewrite (getitem_neg_ok c NaN) by lia. ok_step.
      rewrite (getitem_neg_ok c NaN) by lia. ok_step.
      rewrite Hc. replace (T + 1 - 1)%nat with T by lia.
      replace (T + 1 - 2)%nat with (T - 1)%nat by lia.
      rewrite (setcol_ok _ Hb1 Hn)
        by (rewrite ?divide_scalar_length; lia || assumption).
      eexists. split; [reflexivity|]. split.
      + apply putcol_rect; [assumption|].
        rewrite divide_scalar_length. assumption.
      + intros s Hs HsT. replace s with (T - 1)%nat by lia.
        rewrite (column_putcol_eq _ Hb1)
          by (rewrite ?divide_scalar_length; lia || assumption).
        replace (T - 1 - (T - 1))%nat with 0%nat by lia.
        simpl. rewrite Ef. reflexivity.
    - rewrite (getitem_neg_ok c NaN) by lia. ok_step.
      rewrite Hc, Nat.add_0_r.
      unfold np.setcol. rewrite (rect_ncols Hz Hn).
      destruct (Nat.ltb_spec (T - 1) T); [|lia].
      unfold np.nrows. destruct Hz as [Hzl Hzr]. rewrite Hzl.
      rewrite broadcast_one by assumption. ok_step.
      eexists. split; [reflexivity|].
      assert (Hrep : forall x : float64, length (repeat x n) = n)
        by (intros; apply repeat_length).
      split.
      + apply putcol_rect; [split; assumption|apply Hrep].
      + intros s Hs HsT. replace s with (T - 1)%nat by lia.
        rewrite (column_putcol_eq (r := n) (c := T))
          by (try split; auto; lia).
        replace (T - 1 - (T - 1))%nat with 0%nat by lia.
        simpl. rewrite Ef. reflexivity. }
  destruct Hinit as [beta1 [E1 Hinv1]].
  rewrite E1. ok_step.
  apply backward_loop_spec; [lia|assumption].
Qed.

End BackwardLoop.

(* ================================================================== *)
(** * The backward recursion on finite values *)

Lemma fold_fadd_fin (n : nat) (g : nat -> float64) (h : nat -> R) (a : R) :
  (forall j, (j < n)%nat -> g j = Fin (h j)) ->
  fold_left (fun acc j => fadd acc (g j)) (seq 0 n) (Fin a) =
  Fin (a + bigsum n h).
Proof.
  induction n as [|n IH]; intros H.
  - simpl. f_equal. lra.
  - rewrite seq_S, fold_left_app.
    rewrite IH by (intros; apply H; lia). simpl. rewrite H by lia.
    simpl. f_equal. lra.
Qed.

Section ForwardBackward.

Variables (m : MarkovChain.t) (pX : array2) (T : nat) (c : array1).
Hypothesis Hm : model_shape m.
Hypothesis Fq : all_fin (MarkovChain.q m).
Hypothesis FA : all_fin2 (MarkovChain.A m).
Hypothesis HpX : rect (MarkovChain.nStates m) T pX.
Hypothesis FpX : all_fin2 pX.
Hypothesis HT : (1 <= T)%nat.
Hypothesis Hc :
  length c = (T + (if MarkovChain.is_finite m then 1 else 0))%nat.
Hypothesis Hscale :
  forall t, (t < T)%nat ->
    nth t c NaN = scale_at (MarkovChain.q m) (A_states m) pX t.
Hypothesis Hexit :
  MarkovChain.is_finite m = true ->
  nth T c NaN =
  np.inner (a_hat_at (MarkovChain.q m) (A_states m) pX (T - 1))
           (np.column (MarkovChain.nStates m) (MarkovChain.A m)).
Hypothesis Hpos :
  forall s, (s < length c)%nat -> exists r, nth s c NaN = Fin r /\ r <> 0.

Let n := MarkovChain.nStates m.
Let ah (t i : nat) : R := rget1 (a_hat_at (MarkovChain.q m) (A_states m) pX t) i.
Let bb (k i : nat) : R := rget1 (beta_at m c pX T k) i.
Let cr (s : nat) : R := rget1 c s.

Lemma c_entry (s : nat) : (s < length c)%nat -> nth s c NaN = Fin (cr s) /\ cr s <> 0.
Proof.
  intros Hs. destruct (Hpos Hs) as [r [Er Hr]]. unfold cr, rget1.
  rewrite Er. split; [reflexivity|exact Hr].
Qed.

Lemma masses_nonzero_c :
  forall s, (s < T)%nat ->
    exists r, scale_at (MarkovChain.q m) (A_states m) pX s = Fin r /\ r <> 0.
Proof.
  intros s Hs. rewrite <- Hscale by exact Hs. apply Hpos. rewrite Hc. lia.
Qed.

Lemma cr_scale (s : nat) :
  (s < T)%nat -> cr s = val (scale_at (MarkovChain.q m) (A_states m) pX s).
Proof. intros Hs. unfold cr, rget1. rewrite Hscale by exact Hs. reflexivity. Qed.

Lemma beta_at_length (k : nat) : length (beta_at m c pX T k) = n.
Proof.
  destruct k as [|k]; simpl.
  - destruct (MarkovChain.is_finite m).
    + rewrite divide_scalar_length, column_length.
      destruct Hm as [_ _ [HAl _]]. exact HAl.
    + apply repeat_length.
  - rewrite length_map, length_seq. reflexivity.
Qed.

Lemma sum_products_fin (b : array1) (t i : nat) :
  all_fin b -> length b = n -> (S t < T)%nat -> (i < n)%nat ->
  sum_products_at m pX b t i =
  Fin (bigsum n (fun j => rget2 (MarkovChain.A m) i j * rget2 pX j (t + 1) *
                          rget1 b j)).
Proof.
  intros Fb Hb Ht Hi. unfold sum_products_at. fold n.
  rewrite (@fold_fadd_fin n _
             (fun j => rget2 (MarkovChain.A m) i j * rget2 pX j (t + 1) * rget1 b j)).
  - f_equal. lra.
  - intros j Hj. destruct Hm as [Hn Hq HA].
    pose proof HA as [HAl _]. pose proof HpX as [HXl _].
    unfold n in *.
    assert (E1 : nth j (nth i (MarkovChain.A m) []) NaN
                 = Fin (rget2 (MarkovChain.A m) i j)).
    { rewrite <- column_entry by lia.
      rewrite all_fin_nth
        by (rewrite ?column_length; try apply (column_fin HA FA); lia).
      rewrite rget1_column by lia. reflexivity. }
    assert (E2 : nth (t + 1) (nth j pX []) NaN = Fin (rget2 pX j (t + 1))).
    { rewrite <- column_entry by lia.
      rewrite all_fin_nth
        by (rewrite ?column_length; try apply (column_fin HpX FpX); lia).
      rewrite rget1_column by lia. reflexivity. }
    rewrite E1, E2, (all_fin_nth Fb) by lia. reflexivity.
Qed.

Lemma beta_at_fin (k : nat) : (k < T)%nat -> all_fin (beta_at m c pX T k).
Proof.
  induction k as [|k IH]; intros Hk; cbn [beta_at].
  - destruct (MarkovChain.is_finite m) eqn:Ef.
    + destruct (@c_entry T) as [-> H1]; [lia|].
      destruct (@c_entry (T - 1)%nat) as [-> H2]; [lia|].
      simpl fmul. apply divide_scalar_fin.
      * destruct Hm as [_ _ HA]. rewrite Ef in HA.
        apply (column_fin HA FA). lia.
      * apply Rmult_integral_contrapositive. split; assumption.
    + destruct (@c_entry (T - 1)%nat) as [-> H2]; [lia|].
      apply repeat_Forall. rewrite fdiv_fin by assumption. exact I.
  - apply all_fin_intro. intros i Hi. rewrite length_map, length_seq in Hi.
    rewrite (nth_map_in _ _ 0%nat) by (rewrite length_seq; exact Hi).
    rewrite seq_nth by exact Hi. simpl plus.
    rewrite sum_products_fin; try (apply IH; lia); try apply beta_at_length;
      try lia; try exact Hi.
    destruct (@c_entry (T - 2 - k)%nat) as [-> H2]; [lia|].
    rewrite fdiv_fin by assumption. exact I.
Qed.

Lemma bb_last_infinite (i : nat) :
  MarkovChain.is_finite m = false -> (i < n)%nat ->
  bb 0 i * cr (T - 1) = 1.
Proof.
  intros Ef Hi. unfold bb. cbn [beta_at]. rewrite Ef.
  pose proof Hc as Hc'. rewrite Ef in Hc'.
  destruct (@c_entry (T - 1)%nat) as [E H2]; [lia|].
  unfold rget1 at 1. rewrite nth_repeat_lt by exact Hi.
  rewrite E, fdiv_fin by assumption. simpl. field. assumption.
Qed.

Lemma bb_last_finite (i : nat) :
  MarkovChain.is_finite m = true -> (i < n)%nat ->
  bb 0 i * cr (T - 1) * cr T = rget2 (MarkovChain.A m) i n.
Proof.
  intros Ef Hi. unfold bb. cbn [beta_at]. rewrite Ef.
  pose proof Hc as Hc'. rewrite Ef in Hc'.
  destruct (@c_entry T) as [E1 H1]; [lia|].
  destruct (@c_entry (T - 1)%nat) as [E2 H2]; [lia|].
  rewrite E1, E2. simpl fmul.
  destruct Hm as [_ _ HA]. rewrite Ef in HA. pose proof HA as [HAl _].
  unfold n in *.
  rewrite rget1_divide_scalar.
  - rewrite rget1_column by lia.
    field. split; assumption.
  - apply (column_fin HA FA). lia.
  - apply Rmult_integral_contrapositive. split; assumption.
  - rewrite column_length. lia.
Qed.

Lemma bb_step (k i : nat) :
  (S k < T)%nat -> (i < n)%nat ->
  bb (S k) i * cr (T - 2 - k) =
  bigsum n (fun j => rget2 (MarkovChain.A m) i j *
                     rget2 pX j (T - 1 - k) * bb k j).
Proof.
  intros Hk Hi. unfold bb at 1. simpl beta_at. fold n.
  unfold rget1 at 1.
  rewrite (nth_map_in _ _ 0%nat) by (rewrite length_seq; exact Hi).
  rewrite seq_nth by exact Hi. simpl plus.
  rewrite sum_products_fin; try (apply beta_at_fin; lia);
    try apply beta_at_length; try lia; try exact Hi.
  destruct (@c_entry (T - 2 - k)%nat) as [E H2]; [lia|].
  rewrite E, fdiv_fin by assumption. simpl val.
  replace (T - 2 - k + 1)%nat with (T - 1 - k)%nat by lia.
  unfold bb. field. assumption.
Qed.

(** The quantity of the identity, on reals. *)
Let Q (t : nat) : R := bigsum n (fun i => ah t i * bb (T - 1 - t) i * cr t).

Lemma Q_last : Q (T - 1) = 1.
Proof.
  unfold Q. replace (T - 1 - (T - 1))%nat with 0%nat by lia.
  case_eq (MarkovChain.is_finite m); intros Ef.
  - pose proof Hc as Hc'. rewrite Ef in Hc'.
    destruct (@c_entry T) as [E1 H1]; [lia|].
    pose proof (Hexit Ef) as Hexit'.
    pose proof Hm as [Hn Hq HA]. rewrite Ef in HA.
    rewrite inner_fin in Hexit'.
    + rewrite E1 in Hexit'. injection Hexit' as Hexit'.
      rewrite (@a_hat_at_length _ _ _ _ _ Hn Hq (A_states_rect Hm) HpX) in Hexit'.
      apply (Rmult_eq_reg_r (cr T)); [|assumption].
      rewrite Rmult_1_l, <- bigsum_scal_r.
      transitivity
        (bigsum n (fun i => ah (T - 1) i * rget2 (MarkovChain.A m) i n)).
      * apply bigsum_ext. intros i Hi.
        rewrite <- bb_last_finite by assumption. ring.
      * rewrite Hexit'. apply bigsum_ext. intros i Hi.
        rewrite rget1_column by (destruct HA; unfold n in *; lia).
        reflexivity.
    + apply (ah_fin Hm Fq FA HpX FpX masses_nonzero_c). lia.
    + apply (column_fin HA FA). lia.
    + rewrite (@a_hat_at_length _ _ _ _ _ Hn Hq (A_states_rect Hm) HpX).
      rewrite column_length. destruct HA; auto.
  - rewrite <- (ah_sum Hm Fq FA HpX FpX masses_nonzero_c (t := T - 1)) by lia.
    apply bigsum_ext. intros i Hi.
    rewrite Rmult_assoc, bb_last_infinite by assumption. unfold ah. ring.
Qed.

Lemma Q_step (t : nat) : (S t < T)%nat -> Q t = Q (S t).
Proof.
  intros Ht. unfold Q.
  replace (T - 1 - t)%nat with (S (T - 1 - S t)) by lia.
  rewrite (@bigsum_ext n _
             (fun i => bigsum n (fun j =>
                ah t i * rget2 (MarkovChain.A m) i j *
                (rget2 pX j (S t) * bb (T - 1 - S t) j)))).
  2:{ intros i Hi. rewrite Rmult_assoc.
      replace t with (T - 2 - (T - 1 - S t))%nat at 3 by lia.
      rewrite bb_step by (lia || assumption).
      replace (T - 1 - (T - 1 - S t))%nat with (S t) by lia.
      rewrite <- bigsum_scal_l. apply bigsum_ext. intros j Hj. ring. }
  rewrite bigsum_swap. apply bigsum_ext. intros j Hj.
  rewrite bigsum_scal_r.
  rewrite (cr_scale Ht).
  pose proof (ah_step Hm Fq FA HpX FpX masses_nonzero_c Ht Hj) as E.
  transitivity
    (rget2 pX j (S t) *
     bigsum (MarkovChain.nStates m)
       (fun i => rget1 (a_hat_at (MarkovChain.q m) (A_states m) pX t) i *
                 rget2 (MarkovChain.A m) i j) *
     bb (T - 1 - S t) j).
  - unfold ah, n. ring.
  - rewrite <- E. unfold ah. ring.
Qed.

Lemma Q_one (d : nat) : (d < T)%nat -> Q (T - 1 - d) = 1.
Proof.
  induction d as [|d IH]; intros Hd.
  - rewrite Nat.sub_0_r. apply Q_last.
  - rewrite Q_step by lia.
    replace (S (T - 1 - S d)) with (T - 1 - d)%nat by lia.
    apply IH. lia.
Qed.

(** On the arrays: with [a_hat] and [beta_hat] as the two recursions
    compute them, the quantity is 1 at every time. *)
Lemma fb_quantity_one (a_hat beta_hat : array2) (t : nat) :
  rect n T a_hat -> rect n T beta_hat ->
  (forall s, (s < T)%nat ->
     np.column s a_hat = a_hat_at (MarkovChain.q m) (A_states m) pX s) ->
  (forall s, (s < T)%nat ->
     np.column s beta_hat = beta_at m c pX T (T - 1 - s)) ->
  (t < T)%nat ->
  fb_quantity a_hat beta_hat c t = Fin 1.
Proof.
  intros Ha Hb Hca Hcb Ht. unfold fb_quantity.
  destruct Ha as [Hal Har]. destruct Hb as [Hbl Hbr]. rewrite Hal.
  assert (Hentry : forall i, (i < n)%nat ->
    fmul (fmul (nth t (nth i a_hat []) NaN) (nth t (nth i beta_hat []) NaN))
         (nth t c NaN) = Fin (ah t i * bb (T - 1 - t) i * cr t)).
  { intros i Hi.
    rewrite <- !column_entry by lia. rewrite Hca, Hcb by exact Ht.
    pose proof Hm as [Hn Hq _].
    rewrite all_fin_nth;
      [|apply (ah_fin Hm Fq FA HpX FpX masses_nonzero_c Ht)
       |rewrite (@a_hat_at_length _ _ _ _ _ Hn Hq (A_states_rect Hm) HpX);
        exact Hi].
    rewrite all_fin_nth;
      [|apply beta_at_fin; lia|rewrite beta_at_length; exact Hi].
    destruct (@c_entry t) as [-> _]; [rewrite Hc; lia|]. reflexivity. }
  rewrite sum_fin.
  - rewrite length_map, length_seq. rewrite <- (Q_one (d := T - 1 - t)) by lia.
    replace (T - 1 - (T - 1 - t))%nat with t by lia. unfold Q.
    f_equal. apply bigsum_ext. intros i Hi. unfold rget1.
    rewrite (nth_map_in _ _ 0%nat) by (rewrite length_seq; exact Hi).
    rewrite seq_nth by exact Hi. simpl plus. rewrite Hentry by exact Hi.
    reflexivity.
  - apply all_fin_intro. intros i Hi. rewrite length_map, length_seq in Hi.
    rewrite (nth_map_in _ _ 0%nat) by (rewrite length_seq; exact Hi).
    rewrite seq_nth by exact Hi. simpl plus. rewrite Hentry by exact Hi.
    exact I.
Qed.

End ForwardBackward.

(* ================================================================== *)
(** * A finite-duration chain that cannot exit *)

Lemma is_nonneg_fin (x : float64) : is_nonneg x -> is_fin x.
Proof. intros [r [-> _]]. exact I. Qed.

Lemma all_nonneg_fin (v : array1) : all_nonneg v -> all_fin v.
Proof. apply Forall_impl. exact is_nonneg_fin. Qed.

Lemma all_nonneg2_fin (M : array2) : all_nonneg2 M -> all_fin2 M.
Proof. apply Forall_impl. exact all_nonneg_fin. Qed.

Lemma is_pos_nonneg (x : float64) : is_pos x -> is_nonneg x.
Proof. intros [r [-> Hr]]. exists r. split; [reflexivity|lra]. Qed.

Lemma all_pos_nonneg (v : array1) : all_pos v -> all_nonneg v.
Proof. apply Forall_impl. exact is_pos_nonneg. Qed.

Lemma all_pos2_nonneg (M : array2) : all_pos2 M -> all_nonneg2 M.
Proof. apply Forall_impl. exact all_pos_nonneg. Qed.

Lemma rget1_nonneg (v : array1) (i : nat) : all_nonneg v -> 0 <= rget1 v i.
Proof.
  intros Hv. unfold rget1.
  destruct (Nat.lt_ge_cases i (length v)) as [Hi|Hi].
  - unfold all_nonneg in Hv. rewrite Forall_forall in Hv.
    destruct (Hv (nth i v NaN)) as [r [-> Hr]]; [apply nth_In; exact Hi|].
    exact Hr.
  - rewrite nth_overflow by exact Hi. simpl. lra.
Qed.

Lemma rget2_nonneg (M : array2) (i j : nat) : all_nonneg2 M -> 0 <= rget2 M i j.
Proof.
  intros HM. change (rget2 M i j) with (rget1 (nth i M []) j).
  apply rget1_nonneg.
  destruct (Nat.lt_ge_cases i (length M)) as [Hi|Hi].
  - unfold all_nonneg2 in HM. rewrite Forall_forall in HM.
    apply HM. apply nth_In. exact Hi.
  - rewrite nth_overflow by exact Hi. constructor.
Qed.

Lemma bigsum_nonneg (n : nat) (f : nat -> R) :
  (forall i, (i < n)%nat -> 0 <= f i) -> 0 <= bigsum n f.
Proof.
  induction n as [|n IH]; intros H; simpl; [lra|].
  assert (0 <= bigsum n f) by (apply IH; intros; apply H; lia).
  assert (0 <= f n) by (apply H; lia). lra.
Qed.

Lemma bigsum_zero_inv (n : nat) (f : nat -> R) :
  (forall i, (i < n)%nat -> 0 <= f i) -> bigsum n f = 0 ->
  forall i, (i < n)%nat -> f i = 0.
Proof.
  induction n as [|n IH]; intros H E i Hi; [lia|]. simpl in E.
  assert (H1 : 0 <= bigsum n f) by (apply bigsum_nonneg; intros; apply H; lia).
  assert (H2 : 0 <= f n) by (apply H; lia).
  destruct (Nat.eq_dec i n) as [->|Hne]; [lra|].
  apply IH; [intros; apply H; lia|lra|lia].
Qed.

Lemma bigsum_pos_term (n : nat) (f : nat -> R) :
  (forall i, (i < n)%nat -> 0 <= f i) -> 0 < bigsum n f ->
  exists i, (i < n)%nat /\ 0 < f i.
Proof.
  induction n as [|n IH]; intros H E; simpl in E; [lra|].
  destruct (Rlt_le_dec 0 (f n)) as [Hp|Hz].
  - exists n. split; [lia|exact Hp].
  - destruct IH as [i [Hi Hfi]]; [intros; apply H; lia| |].
    + assert (0 <= f n) by (apply H; lia). lra.
    + exists i. split; [lia|exact Hfi].
Qed.

Lemma fold_fadd_from_nan (l : array1) : fold_left fadd l NaN = NaN.
Proof. induction l as [|x l IH]; simpl; auto. Qed.

Lemma fadd_nan_r (x : float64) : fadd x NaN = NaN.
Proof. destruct x; reflexivity. Qed.

Lemma fmul_nan_r (x : float64) : fmul x NaN = NaN.
Proof. destruct x; reflexivity. Qed.

Lemma fold_fadd_nan (l : array1) (a : float64) :
  In NaN l -> fold_left fadd l a = NaN.
Proof.
  revert a. induction l as [|x l IH]; intros a Hin; [contradiction|].
  simpl. destruct Hin as [->|Hin].
  - rewrite fadd_nan_r. apply fold_fadd_from_nan.
  - apply IH. exact Hin.
Qed.

Lemma fold_left_terms {X : Type} (g : X -> float64) (l : list X) (a : float64) :
  fold_left (fun acc j => fadd acc (g j)) l a = fold_left fadd (map g l) a.
Proof. revert a. induction l as [|x l IH]; intros a; simpl; auto. Qed.

Section ZeroExit.

Variables (m : MarkovChain.t) (pX : array2) (T : nat) (c : array1).
Hypothesis Hm : model_shape m.
Hypothesis Nq : all_nonneg (MarkovChain.q m).
Hypothesis NA : all_nonneg2 (MarkovChain.A m).
Hypothesis HpX : rect (MarkovChain.nStates m) T pX.
Hypothesis NpX : all_nonneg2 pX.
Hypothesis HT : (1 <= T)%nat.
Hypothesis Hscale :
  forall t, (t < T)%nat ->
    nth t c NaN = scale_at (MarkovChain.q m) (A_states m) pX t.
Hypothesis Hmass : positive_masses T c.

Let n := MarkovChain.nStates m.
Let q := MarkovChain.q m.
Let Au := A_states m.

Lemma scale_nonzero :
  forall s, (s < T)%nat -> exists r, scale_at q Au pX s = Fin r /\ r <> 0.
Proof.
  intros s Hs. destruct (Hmass Hs) as [r [Er Hr]]. exists r.
  unfold q, Au. rewrite <- Hscale by exact Hs. split; [exact Er|lra].
Qed.

Lemma scale_positive (s : nat) :
  (s < T)%nat -> 0 < val (scale_at q Au pX s).
Proof.
  intros Hs. destruct (Hmass Hs) as [r [Er Hr]].
  unfold q, Au. rewrite <- Hscale, Er by exact Hs. exact Hr.
Qed.

(** The entries of [a_hat] are non-negative. *)
Lemma a_hat_nonneg (t : nat) :
  (t < T)%nat -> forall i, (i < n)%nat -> 0 <= rget1 (a_hat_at q Au pX t) i.
Proof.
  pose proof (all_nonneg_fin Nq) as Fq.
  pose proof (all_nonneg2_fin NA) as FA.
  pose proof (all_nonneg2_fin NpX) as FpX.
  induction t as [|t IH]; intros Ht i Hi.
  - pose proof (ah_init Hm Fq FA HpX FpX scale_nonzero ltac:(lia) Hi) as E.
    pose proof (scale_positive Ht) as Hr.
    apply (Rmult_le_reg_l _ _ _ Hr). rewrite Rmult_0_r. unfold q, Au. rewrite E.
    apply Rmult_le_pos; [apply rget1_nonneg|apply rget2_nonneg]; assumption.
  - pose proof (ah_step Hm Fq FA HpX FpX scale_nonzero Ht Hi) as E.
    pose proof (scale_positive Ht) as Hr.
    apply (Rmult_le_reg_l _ _ _ Hr). rewrite Rmult_0_r. unfold q, Au. rewrite E.
    apply Rmult_le_pos; [apply rget2_nonneg; assumption|].
    apply bigsum_nonneg. intros k Hk.
    apply Rmult_le_pos; [apply IH; (lia || assumption)|].
    apply rget2_nonneg; assumption.
Qed.

Hypothesis Ef : MarkovChain.is_finite m = true.
Hypothesis Hexit :
  nth T c NaN =
  np.inner (a_hat_at q Au pX (T - 1)) (np.column n (MarkovChain.A m)).
Hypothesis Hzero : nth T c NaN = Fin 0.

(** Some state cannot exit. *)
Lemma exit_zero_state :
  exists i, (i < n)%nat /\ nth i (np.column n (MarkovChain.A m)) NaN = Fin 0.
Proof.
  pose proof (all_nonneg_fin Nq) as Fq.
  pose proof (all_nonneg2_fin NA) as FA.
  pose proof (all_nonneg2_fin NpX) as FpX.
  pose proof Hm as [Hn Hq HA]. rewrite Ef in HA. fold n in Hn, HA.
  assert (Fcol : all_fin (np.column n (MarkovChain.A m)))
    by (apply (column_fin HA FA); lia).
  assert (Lcol : length (np.column n (MarkovChain.A m)) = n)
    by apply (rect_column_length _ HA).
  assert (Lah : length (a_hat_at q Au pX (T - 1)) = n)
    by apply (@a_hat_at_length _ _ _ _ _ Hn Hq (A_states_rect Hm) HpX).
  assert (Fah : all_fin (a_hat_at q Au pX (T - 1)))
    by (apply (ah_fin Hm Fq FA HpX FpX scale_nonzero); lia).
  pose proof Hexit as E. rewrite Hzero, inner_fin in E by congruence.
  injection E as E. rewrite Lah in E. symmetry in E.
  assert (Hterm : forall i, (i < n)%nat ->
            rget1 (a_hat_at q Au pX (T - 1)) i *
            rget1 (np.column n (MarkovChain.A m)) i = 0).
  { apply bigsum_zero_inv; [|exact E]. intros i Hi.
    apply Rmult_le_pos; [apply a_hat_nonneg; (lia || assumption)|].
    rewrite rget1_column by (destruct HA; lia).
    apply rget2_nonneg. assumption. }
  destruct (@bigsum_pos_term n (rget1 (a_hat_at q Au pX (T - 1))))
    as [i [Hi Hp]].
  - intros i Hi. apply a_hat_nonneg; (lia || assumption).
  - assert (Hs1 : bigsum n (rget1 (a_hat_at q Au pX (T - 1))) = 1)
      by (apply (ah_sum Hm Fq FA HpX FpX scale_nonzero); lia).
    rewrite Hs1. lra.
  - exists i. split; [exact Hi|].
    rewrite (all_fin_nth Fcol) by lia. f_equal.
    specialize (Hterm i Hi). apply Rmult_integral in Hterm.
    destruct Hterm; [lra|assumption].
Qed.

(** Every column of [beta_hat] holds a [nan]. *)
Lemma beta_at_nan (k : nat) :
  (k < T)%nat ->
  exists j, (j < n)%nat /\ nth j (beta_at m c pX T k) NaN = NaN.
Proof.
  induction k as [|k IH]; intros Hk.
  - destruct exit_zero_state as [i [Hi Ei]]. exists i. split; [exact Hi|].
    cbn [beta_at]. rewrite Ef, Hzero.
    destruct (Hmass (t := (T - 1)%nat)) as [r [-> Hr]]; [lia|].
    unfold np.divide_scalar.
    rewrite (nth_map_in _ _ NaN)
      by (rewrite column_length; destruct Hm as [_ _ [HAl _]]; fold n; lia).
    fold n. rewrite Ei. simpl.
    rewrite Rsign_eq by lra. rewrite Rsign_0. reflexivity.
  - destruct IH as [j [Hj Ej]]; [lia|].
    pose proof Hm as [Hn _ _]. fold n in Hn.
    exists 0%nat. split; [lia|].
    cbn [beta_at]. fold n.
    rewrite (nth_map_in _ _ 0%nat) by (rewrite length_seq; lia).
    rewrite seq_nth by lia. simpl plus.
    unfold sum_products_at. rewrite fold_left_terms, fold_fadd_nan.
    + reflexivity.
    + apply in_map_iff. exists j. split.
      * rewrite Ej. apply fmul_nan_r.
      * apply in_seq. fold n. lia.
Qed.

(** The quantity of the identity is [nan] at every time. *)
Lemma fb_quantity_nan (a_hat beta_hat : array2) (t : nat) :
  rect n T a_hat -> rect n T beta_hat ->
  (forall s, (s < T)%nat ->
     np.column s beta_hat = beta_at m c pX T (T - 1 - s)) ->
  (t < T)%nat ->
  fb_quantity a_hat beta_hat c t = NaN.
Proof.
  intros [Hal _] [Hbl _] Hcb Ht.
  destruct (@beta_at_nan (T - 1 - t)%nat) as [j [Hj Ej]]; [lia|].
  unfold fb_quantity, np.sum. apply fold_fadd_nan.
  apply in_map_iff. exists j. split.
  - rewrite <- (column_entry beta_hat) by lia.
    rewrite Hcb, Ej by exact Ht. rewrite fmul_nan_r. reflexivity.
  - apply in_seq. lia.
Qed.

End ZeroExit.

(** In exact arithmetic, and for [backward] on the entries of [c] as a 1-D
    array: with [(a_hat, c)] from [forward(pX)] and [beta_hat] from
    [backward(c, pX)], on a valid model (finite, non-negative entries) and
    a [pX] with [nStates] rows, [T >= 1] columns and finite, non-negative
    entries, when the masses [c[t]] of the steps are strictly positive the
    quantity [sum_i a_hat[i,t] * beta_hat[i,t] * c[t]] is 1 at every time
    [t] provided every entry of [c] is positive; the only other case is a
    finite-duration chain whose exit mass [c[T]] is zero, where the
    quantity is [nan] at every time, hence no number at all.  (In
    [float64] the values at different times agree up to rounding only.) *)
Theorem forward_backward_identity (m : MarkovChain.t) (pX : array2) (T : nat) :
  model_shape m ->
  all_nonneg (MarkovChain.q m) -> all_nonneg2 (MarkovChain.A m) ->
  rect (MarkovChain.nStates m) T pX -> all_nonneg2 pX ->
  (1 <= T)%nat ->
  exists a_hat c beta_hat,
    MarkovChain.forward m pX = Ok (a_hat, c) /\
    MarkovChain.backward m c pX = Ok beta_hat /\
    rect (MarkovChain.nStates m) T beta_hat /\
    (positive_masses T c ->
     (forall t t', (t < T)%nat -> (t' < T)%nat ->
        fb_quantity a_hat beta_hat c t = fb_quantity a_hat beta_hat c t') /\
     (positive_masses (length c) c ->
      forall t, (t < T)%nat -> fb_quantity a_hat beta_hat c t = Fin 1)).
Proof.
  intros Hm Nq NA HpX NpX HT.
  pose proof (all_nonneg_fin Nq) as Fq.
  pose proof (all_nonneg2_fin NA) as FA.
  pose proof (all_nonneg2_fin NpX) as FpX.
  destruct (forward_spec Hm HpX HT) as [a_hat [c [E [Ha [Hc [Hcols Hexit]]]]]].
  destruct (@backward_spec m c pX T Hm HpX Hc HT) as [beta_hat [Eb [Hb Hbcols]]].
  exists a_hat, c, beta_hat.
  split; [exact E|]. split; [exact Eb|]. split; [exact Hb|].
  intros Hp.
  assert (Hscale : forall t, (t < T)%nat ->
            nth t c NaN = scale_at (MarkovChain.q m) (A_states m) pX t)
    by (intros t Ht; apply Hcols; exact Ht).
  assert (Hexit' : MarkovChain.is_finite m = true ->
            nth T c NaN =
            np.inner (a_hat_at (MarkovChain.q m) (A_states m) pX (T - 1))
                     (np.column (MarkovChain.nStates m) (MarkovChain.A m))).
  { intros Ef. rewrite (Hexit Ef).
    destruct (Hcols (T - 1)%nat) as [-> _]; [lia|]. reflexivity. }
  assert (Hone : (forall s, (s < length c)%nat ->
                    exists r, nth s c NaN = Fin r /\ r <> 0) ->
                 forall t, (t < T)%nat -> fb_quantity a_hat beta_hat c t = Fin 1).
  { intros Hnz t Ht.
    apply (@fb_quantity_one m pX T c Hm Fq FA HpX FpX HT Hc); try assumption.
    - intros s Hs. apply Hcols. exact Hs.
    - intros s Hs. apply Hbcols; lia. }
  split.
  - (* the same at every time *)
    assert (Hcase : (forall t, (t < T)%nat ->
                       fb_quantity a_hat beta_hat c t = Fin 1) \/
                    (forall t, (t < T)%nat ->
                       fb_quantity a_hat beta_hat c t = NaN)).
    { case_eq (MarkovChain.is_finite m); intros Ef.
      - pose proof Hm as [Hn Hq HA]. rewrite Ef in HA.
        pose proof Hc as Hc'. rewrite Ef in Hc'.
        pose proof (Hexit' Ef) as Hex.
        assert (Hfin : exists e, nth T c NaN = Fin e).
        { rewrite Hex, inner_fin; [eexists; reflexivity| | |].
          - apply (ah_fin Hm Fq FA HpX FpX); [|lia].
            intros s Hs. destruct (Hp s Hs) as [r [Er Hr]]. exists r.
            rewrite <- Hscale by exact Hs. split; [exact Er|lra].
          - apply (column_fin HA FA). lia.
          - rewrite (@a_hat_at_length _ _ _ _ _ Hn Hq (A_states_rect Hm) HpX).
            rewrite column_length. destruct HA; auto. }
        destruct Hfin as [e Ee].
        destruct (Req_dec e 0) as [->|Hne].
        + right. intros t Ht.
          apply (@fb_quantity_nan m pX T c Hm Nq NA HpX NpX HT Hscale Hp
                   Ef Hex Ee a_hat beta_hat t); try assumption.
          intros s Hs. apply Hbcols; lia.
        + left. apply Hone. intros s Hs. rewrite Hc' in Hs.
          destruct (Nat.eq_dec s T) as [->|HsT].
          * exists e. split; assumption.
          * destruct (Hp s) as [r [Er Hr]]; [lia|]. exists r.
            split; [exact Er|lra].
      - left. apply Hone. intros s Hs. rewrite Hc, Ef in Hs.
        destruct (Hp s) as [r [Er Hr]]; [lia|]. exists r. split; [exact Er|lra]. }
    intros t t' Ht Ht'.
    destruct Hcase as [H|H]; rewrite !H by assumption; reflexivity.
  - intros Hall. apply Hone. intros s Hs.
    destruct (Hall s Hs) as [r [Er Hr]]. exists r. split; [exact Er|lra].
Qed.

(* ================================================================== *)
(** * Strictly positive models have strictly positive masses *)

Lemma is_pos_fin (x : float64) : is_pos x -> is_fin x.
Proof. intros [r [-> _]]. exact I. Qed.

Lemma all_pos_fin (v : array1) : all_pos v -> all_fin v.
Proof. apply Forall_impl. exact is_pos_fin. Qed.

Lemma all_pos2_fin (M : array2) : all_pos2 M -> all_fin2 M.
Proof. apply Forall_impl. exact all_pos_fin. Qed.

Lemma fmul_pos (x y : float64) : is_pos x -> is_pos y -> is_pos (fmul x y).
Proof.
  intros [a [-> Ha]] [b [-> Hb]]. exists (a * b). split; [reflexivity|].
  apply Rmult_lt_0_compat; assumption.
Qed.

Lemma fdiv_pos (x y : float64) : is_pos x -> is_pos y -> is_pos (fdiv x y).
Proof.
  intros [a [-> Ha]] [b [-> Hb]]. exists (a / b).
  rewrite fdiv_fin by lra. split; [reflexivity|].
  apply Rdiv_lt_0_compat; assumption.
Qed.

Lemma map2_fmul_pos (v w : array1) :
  all_pos v -> all_pos w -> all_pos (map2 fmul v w).
Proof.
  intros Hv. revert w. induction Hv as [|x v Hx Hv IH]; intros w Hw; simpl.
  - constructor.
  - destruct Hw as [|y w Hy Hw]; constructor.
    + apply fmul_pos; assumption.
    + apply IH. assumption.
Qed.

Lemma sum_pos (v : array1) :
  all_pos v -> (1 <= length v)%nat -> is_pos (np.sum v).
Proof.
  induction v as [|x v IH] using rev_ind; intros Hv Hl.
  - simpl in Hl. lia.
  - unfold all_pos in Hv. apply Forall_app in Hv. destruct Hv as [Hv Hx].
    inversion Hx as [|? ? [b [-> Hb]] _]; subst.
    rewrite sum_snoc. destruct v as [|y v].
    + simpl. exists (0 + b). split; [reflexivity|lra].
    + destruct IH as [a [-> Ha]]; [assumption|simpl; lia|].
      exists (a + b). split; [reflexivity|lra].
Qed.

Lemma divide_scalar_pos (v : array1) (x : float64) :
  all_pos v -> is_pos x -> all_pos (np.divide_scalar v x).
Proof.
  intros Hv Hx. unfold np.divide_scalar, all_pos. rewrite Forall_map.
  eapply Forall_impl; [|exact Hv]. intros a Ha. apply fdiv_pos; assumption.
Qed.

Lemma column_pos (r c : nat) (M : array2) (j : nat) :
  rect r c M -> all_pos2 M -> (j < c)%nat -> all_pos (np.column j M).
Proof.
  intros [_ Hr] HM Hj. unfold np.column, all_pos, all_pos2 in *.
  rewrite Forall_forall in *. intros x Hin. apply in_map_iff in Hin.
  destruct Hin as [row [<- Hrow]].
  specialize (HM row Hrow). unfold all_pos in HM. rewrite Forall_forall in HM.
  apply HM. apply nth_In. rewrite (Hr row Hrow). exact Hj.
Qed.

Lemma inner_pos (v w : array1) :
  all_pos v -> all_pos w -> length v = length w -> (1 <= length v)%nat ->
  is_pos (np.inner v w).
Proof.
  intros Hv Hw Hl Hn. unfold np.inner. apply sum_pos.
  - apply map2_fmul_pos; assumption.
  - rewrite map2_length; assumption.
Qed.

Lemma vm_pos (r c : nat) (v : array1) (M : array2) :
  rect r c M -> (1 <= r)%nat -> all_pos2 M -> all_pos v -> length v = r ->
  all_pos (np.vm v M).
Proof.
  intros HM Hr HMp Hv Hl. unfold np.vm. rewrite (rect_ncols HM Hr).
  unfold all_pos. rewrite Forall_forall. intros x Hin.
  apply in_map_iff in Hin. destruct Hin as [j [<- Hj]]. apply in_seq in Hj.
  apply inner_pos; [assumption| | |lia].
  - apply (column_pos HM HMp). lia.
  - rewrite (rect_column_length _ HM). assumption.
Qed.

Lemma removelast_pos (l : array1) : all_pos l -> all_pos (removelast l).
Proof.
  intros H. induction H as [|x l Hx Hl IH]; [constructor|].
  destruct l as [|y l]; [constructor|].
  change (removelast (x :: y :: l)) with (x :: removelast (y :: l)).
  constructor; assumption.
Qed.

Lemma A_states_pos (m : MarkovChain.t) :
  all_pos2 (MarkovChain.A m) -> all_pos2 (A_states m).
Proof.
  intros H. unfold A_states. destruct (MarkovChain.is_finite m); [|exact H].
  unfold all_pos2, np.droplastcol. rewrite Forall_map.
  eapply Forall_impl; [|exact H]. intros row. apply removelast_pos.
Qed.

Lemma a_temp_pos (q : array1) (Au pX : array2) (n T : nat) :
  (1 <= n)%nat -> length q = n -> rect n n Au -> rect n T pX ->
  all_pos q -> all_pos2 Au -> all_pos2 pX ->
  forall t, (t < T)%nat -> all_pos (a_temp_at q Au pX t).
Proof.
  intros Hn Hq HAu HpX Pq PAu PpX. induction t as [|t IH]; intros Ht.
  - simpl. apply map2_fmul_pos; [assumption|]. apply (column_pos HpX PpX Ht).
  - simpl. apply map2_fmul_pos; [apply (column_pos HpX PpX Ht)|].
    apply (vm_pos HAu Hn PAu).
    + apply divide_scalar_pos; [apply IH; lia|].
      apply sum_pos; [apply IH; lia|].
      rewrite (@a_temp_at_length q Au pX n T Hn Hq HAu HpX). exact Hn.
    + rewrite divide_scalar_length.
      apply (@a_temp_at_length q Au pX n T Hn Hq HAu HpX).
Qed.

(** When all the entries of [q], [A] and [pX] are strictly positive, so are
    all the entries of the [c] that [forward] returns. *)
Lemma forward_positive_masses (m : MarkovChain.t) (pX : array2) (T : nat)
  (a_hat : array2) (c : array1) :
  model_shape m ->
  all_pos (MarkovChain.q m) -> all_pos2 (MarkovChain.A m) ->
  rect (MarkovChain.nStates m) T pX -> all_pos2 pX ->
  (1 <= T)%nat ->
  MarkovChain.forward m pX = Ok (a_hat, c) ->
  positive_masses (length c) c.
Proof.
  intros Hm Pq PA HpX PpX HT E.
  destruct (forward_spec Hm HpX HT) as [a_hat' [c' [E' [Ha [Hc [Hcols Hexit]]]]]].
  rewrite E in E'. injection E' as <- <-.
  pose proof Hm as [Hn Hq HA].
  pose proof (A_states_rect Hm) as HAu.
  pose proof (A_states_pos m PA) as PAu.
  assert (Hu : forall t, (t < T)%nat ->
            all_pos (a_temp_at (MarkovChain.q m) (A_states m) pX t))
    by (apply (a_temp_pos Hn Hq HAu HpX Pq PAu PpX)).
  assert (Hs : forall t, (t < T)%nat ->
            is_pos (scale_at (MarkovChain.q m) (A_states m) pX t)).
  { intros t Ht. unfold scale_at. apply sum_pos; [apply Hu; exact Ht|].
    rewrite (@a_temp_at_length _ _ _ _ _ Hn Hq HAu HpX). exact Hn. }
  intros t Ht. rewrite Hc in Ht.
  destruct (Nat.lt_ge_cases t T) as [HtT|HtT].
  - destruct (Hcols t HtT) as [_ ->]. apply Hs. exact HtT.
  - destruct (MarkovChain.is_finite m) eqn:Ef; [|lia].
    replace t with T by lia. rewrite (Hexit eq_refl).
    destruct (Hcols (T - 1)%nat) as [-> _]; [lia|].
    apply inner_pos.
    + unfold a_hat_at. apply divide_scalar_pos; [apply Hu; lia|apply Hs; lia].
    + apply (column_pos HA PA). lia.
    + rewrite (@a_hat_at_length _ _ _ _ _ Hn Hq HAu HpX), column_length.
      destruct HA; auto.
    + rewrite (@a_hat_at_length _ _ _ _ _ Hn Hq HAu HpX). exact Hn.
Qed.

(* ================================================================== *)
(** * The concrete scenario *)

Lemma chain_finite_pos :
  all_pos (MarkovChain.q chain_finite) /\ all_pos2 (MarkovChain.A chain_finite).
Proof.
  split; simpl; repeat constructor;
    (eexists; split; [reflexivity|lra]).
Qed.

Lemma pX_ones_rect : rect 2 3 pX_ones.
Proof. split; [reflexivity|]. repeat constructor. Qed.

Lemma pX_ones_pos : all_pos2 pX_ones.
Proof.
  unfold pX_ones. repeat constructor; (eexists; split; [reflexivity|lra]).
Qed.


(** The likelihood of three observations of likelihood one each is the
    probability that the chain lasts exactly three steps. *)
Lemma likelihood_chain_finite : likelihood chain_finite pX_ones = 147 / 1000.
Proof.
  unfold likelihood. simpl. unfold rget1, rget2. simpl. lra.
Qed.

Lemma forward_scale_product_witness :
  exists a_hat c,
    MarkovChain.forward chain_finite pX_ones = Ok (a_hat, c) /\
    length c = 4%nat /\
    np.prod c = Fin (147 / 1000).
Proof.
  destruct (@forward_scale_product chain_finite pX_ones 3)
    as [a_hat [c [E H]]].
  - exact chain_finite_shape.
  - apply all_pos_fin, chain_finite_pos.
  - apply all_pos2_fin, chain_finite_pos.
  - exact pX_ones_rect.
  - apply all_pos2_fin, pX_ones_pos.
  - lia.
  - exists a_hat, c. split; [exact E|].
    pose proof (forward_positive_masses chain_finite_shape
                  (proj1 chain_finite_pos) (proj2 chain_finite_pos)
                  pX_ones_rect pX_ones_pos ltac:(lia) E) as Hp.
    destruct (forward_spec chain_finite_shape pX_ones_rect ltac:(lia))
      as [a' [c' [E' [_ [Hc _]]]]].
    rewrite E in E'. injection E' as <- <-.
    split; [exact Hc|].
    rewrite <- likelihood_chain_finite. apply H.
    intros t Ht. apply Hp. rewrite Hc. simpl. lia.
Defined.

Lemma forward_columns_normalised_witness :
  exists a_hat c,
    MarkovChain.forward chain_finite pX_ones = Ok (a_hat, c) /\
    np.shape a_hat = (2%nat, 3%nat) /\
    length c = 4%nat /\
    forall t, (t < 3)%nat -> np.sum (np.column t a_hat) = Fin 1.
Proof.
  destruct (@forward_columns_normalised chain_finite pX_ones 3)
    as [a_hat [c [E [Hs [_ [Hc H]]]]]].
  - exact chain_finite_shape.
  - apply all_pos_fin, chain_finite_pos.
  - apply all_pos2_fin, chain_finite_pos.
  - exact pX_ones_rect.
  - apply all_pos2_fin, pX_ones_pos.
  - lia.
  - exists a_hat, c. split; [exact E|]. split; [exact Hs|].
    split; [exact Hc|]. apply H.
    pose proof (forward_positive_masses chain_finite_shape
                  (proj1 chain_finite_pos) (proj2 chain_finite_pos)
                  pX_ones_rect pX_ones_pos ltac:(lia) E) as Hp.
    intros t Ht. apply Hp. rewrite Hc. simpl. lia.
Defined.

Lemma forward_backward_identity_witness :
  exists a_hat c beta_hat,
    MarkovChain.forward chain_finite pX_ones = Ok (a_hat, c) /\
    MarkovChain.backward chain_finite c pX_ones = Ok beta_hat /\
    (forall t t', (t < 3)%nat -> (t' < 3)%nat ->
       fb_quantity a_hat beta_hat c t = fb_quantity a_hat beta_hat c t') /\
    forall t, (t < 3)%nat -> fb_quantity a_hat beta_hat c t = Fin 1.
Proof.
  destruct (@forward_backward_identity chain_finite pX_ones 3)
    as [a_hat [c [beta_hat [E [Eb [_ H]]]]]].
  - exact chain_finite_shape.
  - apply all_pos_nonneg, chain_finite_pos.
  - apply all_pos2_nonneg, chain_finite_pos.
  - exact pX_ones_rect.
  - apply all_pos2_nonneg, pX_ones_pos.
  - lia.
  - exists a_hat, c, beta_hat. split; [exact E|]. split; [exact Eb|].
    pose proof (forward_positive_masses chain_finite_shape
                  (proj1 chain_finite_pos) (proj2 chain_finite_pos)
                  pX_ones_rect pX_ones_pos ltac:(lia) E) as Hp.
    destruct (forward_spec chain_finite_shape pX_ones_rect ltac:(lia))
      as [a' [c' [E' [_ [Hc _]]]]].
    rewrite E in E'. injection E' as <- <-.
    destruct H as [Hsame Hone].
    + intros t Ht. apply Hp. rewrite Hc. simpl. lia.
    + split; [exact Hsame|]. apply Hone. exact Hp.
Defined.



(** When the exit mass [c[T]] of a finite-duration chain is zero, [backward]
    divides by it and the quantity of the identity is [nan]: the identity
    needs the exit mass to be positive like the masses of the steps. *)
Lemma backward_zero_exit_mass :
  exists a_hat c beta_hat,
    MarkovChain.forward chain_no_exit pX_one = Ok (a_hat, c) /\
    nth 0 c NaN = Fin 1 /\ nth 1 c NaN = Fin 0 /\
    MarkovChain.backward chain_no_exit c pX_one = Ok beta_hat /\
    fb_quantity a_hat beta_hat c 0 = NaN.
Proof.
  assert (E : MarkovChain.forward chain_no_exit pX_one
              = Ok ([[Fin 1]], [Fin 1; Fin 0])).
  { cbv -[Rplus Rmult Rdiv Rinv Ropp Rminus IZR Rsign].
    rewrite (@Rsign_pos (0 + 1 * 1)) by lra.
    repeat f_equal; field. }
  exists [[Fin 1]], [Fin 1; Fin 0], [[NaN]].
  split; [exact E|]. split; [reflexivity|]. split; [reflexivity|]. split.
  - cbv -[Rplus Rmult Rdiv Rinv Ropp Rminus IZR Rsign].
    rewrite (@Rsign_eq (0 * 1)) by lra. rewrite Rsign_0. reflexivity.
  - reflexivity.
Qed.

(* ================================================================== *)
(** * Further properties: sampling *)

Lemma choice_first_in (a : list nat) (p : array1) (g : unit) (x : nat) (g' : unit) :
  choice_first a p g = Ok (x, g') -> In x a.
Proof.
  destruct a as [|y a]; simpl; intros H; [discriminate|].
  injection H as <- _. left. reflexivity.
Qed.

Lemma rand_sequence_witness :
  exists S, Some [1; 1; 1]%nat = Some S /\
    Forall (fun s => (1 <= s <= 2)%nat) S /\
    ~ In 3%nat S /\
    length S = 3%nat.
Proof.
  apply (@rand_sequence unit choice_first choice_first_in chain_infinite 3 tt tt).
  - lia.
  - reflexivity.
Defined.

(** In a finite-duration chain, when the first transition draws the END
    index, [rand(tmax)], [tmax >= 2], returns the initial state alone. *)
Theorem rand_end_at_first_transition (rng : Type)
  (choice : list nat -> array1 -> rng -> result (nat * rng))
  (m : MarkovChain.t) (tmax : nat) (g g1 g2 : rng) (s1 : nat) (row : array1) :
  MarkovChain.is_finite m = true ->
  (2 <= tmax)%nat ->
  choice (np.arange 1 (MarkovChain.nStates m + 1)) (MarkovChain.q m) g
    = Ok (s1, g1) ->
  getitem (MarkovChain.A m) (s1 - 1) = Ok row ->
  choice (np.arange 1 (MarkovChain.nStates m + 2)) row g1
    = Ok ((MarkovChain.nStates m + 1)%nat, g2) ->
  MarkovChain.rand choice m tmax g = Ok (Some [s1], g2).
Proof.
  intros Ef Ht E1 Erow E2. unfold MarkovChain.rand. rewrite Ef. simpl negb.
  cbv iota. rewrite E1. ok_step. cbv iota.
  destruct (Nat.ltb_spec 1 tmax) as [_|]; [|lia].
  unfold np.arange. destruct tmax as [|[|tmax]]; try lia.
  simpl seq. simpl app. cbn [MarkovChain.rand_loop_finite].
  change (getitem [s1] (1 - 1)) with (@Ok nat s1).
  ok_step. rewrite Erow. ok_step. rewrite E2. ok_step.
  cbv iota. rewrite Nat.eqb_refl. ok_step. reflexivity.
Qed.

Lemma rand_end_at_first_transition_witness :
  MarkovChain.rand choice_last chain_finite 5 tt = Ok (Some [2%nat], tt).
Proof.
  apply (@rand_end_at_first_transition unit choice_last chain_finite 5 tt tt tt 2
           [Fin (1/10); Fin (6/10); Fin (3/10)]).
  - reflexivity.
  - lia.
  - reflexivity.
  - reflexivity.
  - reflexivity.
Defined.

(* ================================================================== *)
(** * Further properties: durations *)

(** For a finite-duration chain [probDuration] raises whatever [tmax] is
    when there are two states or more (the subtraction
    [np.eye(nStates) - A.T] comes before the loop), and from [tmax = 1] on
    when there is one state. *)
Theorem probDuration_finite_chain_raises (m : MarkovChain.t) (tmax : nat) :
  model_shape m ->
  MarkovChain.is_finite m = true ->
  (1 <= tmax)%nat \/ (2 <= MarkovChain.nStates m)%nat ->
  MarkovChain.probDuration m tmax = Err ValueError.
Proof.
  intros Hm Hf [Ht|Hn2]; [apply probDuration_finite_raises; assumption|].
  pose proof (model_shape_ncols Hm) as Hc.
  destruct Hm as [Hn Hq HA]. rewrite Hf in Hc, HA.
  unfold MarkovChain.probDuration. rewrite Hf.
  unfold np.subtract2.
  rewrite eye_nrows, eye_ncols, transpose_nrows, transpose_ncols by lia.
  rewrite Hc. unfold np.bdim at 1.
  destruct (Nat.eqb_spec (MarkovChain.nStates m) (MarkovChain.nStates m + 1));
    [lia|].
  destruct (Nat.eqb_spec (MarkovChain.nStates m) 1); [lia|].
  destruct (Nat.eqb_spec (MarkovChain.nStates m + 1) 1); [lia|].
  reflexivity.
Qed.

Lemma probDuration_finite_chain_raises_witness :
  MarkovChain.probDuration chain_finite 0 = Err ValueError.
Proof.
  apply probDuration_finite_chain_raises.
  - exact chain_finite_shape.
  - reflexivity.
  - right. simpl. lia.
Defined.




(** For an absorbing state, [a_ii = 1], [meanStateDuration()] divides by
    zero without raising: the entry is [+inf]. *)
Theorem meanStateDuration_absorbing (m : MarkovChain.t) (i : nat) :
  model_shape m ->
  (i < MarkovChain.nStates m)%nat ->
  np.get2 (MarkovChain.A m) i i = Ok (Fin 1) ->
  getitem (MarkovChain.meanStateDuration m) i = Ok PInf.
Proof.
  intros Hm Hi Ha.
  rewrite (model_shape_diag Hm Hi) in Ha. injection Ha as Ha.
  unfold MarkovChain.meanStateDuration.
  rewrite (getitem_map _ _ NaN)
    by (rewrite model_shape_diag_length by exact Hm; exact Hi).
  rewrite Ha. simpl. rewrite Rsign_eq by lra.
  rewrite Rsign_pos by lra. reflexivity.
Qed.

Lemma chain_absorbing_shape : model_shape chain_absorbing.
Proof.
  constructor; simpl; try lia.
  split; [reflexivity|]. repeat constructor.
Qed.

Lemma meanStateDuration_absorbing_witness :
  getitem (MarkovChain.meanStateDuration chain_absorbing) 1 = Ok PInf.
Proof.
  apply meanStateDuration_absorbing.
  - exact chain_absorbing_shape.
  - simpl. lia.
  - reflexivity.
Defined.

Lemma probStateDuration_row (m : MarkovChain.t) (tmax i : nat) :
  (i < length (np.diag (MarkovChain.A m)))%nat ->
  getitem (MarkovChain.probStateDuration m tmax) i =
  Ok (map (fun t => fexp (fadd (fmul (flog (nth i (np.diag (MarkovChain.A m)) NaN))
                                     (of_nat t))
                               (flog (fsub (Fin 1)
                                        (nth i (np.diag (MarkovChain.A m)) NaN)))))
          (np.arange 0 tmax)).
Proof.
  intros Hi. unfold MarkovChain.probStateDuration.
  rewrite map_map. rewrite (getitem_map _ _ NaN Hi).
  rewrite !map_map. reflexivity.
Qed.

Lemma geometric_partial_sum (a : R) (n : nat) :
  bigsum n (geometric_pmf a) = 1 - a ^ n.
Proof.
  induction n as [|n IH]; simpl; [lra|].
  rewrite IH. unfold geometric_pmf. ring.
Qed.

(** In exact arithmetic: for [0 < a_ii < 1] the row of
    [probStateDuration(tmax)] for state [i] sums to [1 - a_ii^tmax], the
    probability that a visit lasts at most [tmax] steps.  (The [float64]
    row sum agrees up to rounding only.) *)
Theorem probStateDuration_row_sum (m : MarkovChain.t) (tmax i : nat) (a : R) :
  model_shape m ->
  (i < MarkovChain.nStates m)%nat ->
  np.get2 (MarkovChain.A m) i i = Ok (Fin a) ->
  0 < a < 1 ->
  exists row,
    getitem (MarkovChain.probStateDuration m tmax) i = Ok row /\
    length row = tmax /\
    np.sum row = Fin (1 - a ^ tmax).
Proof.
  intros Hm Hi Ha Hr.
  rewrite (model_shape_diag Hm Hi) in Ha. injection Ha as Ha.
  eexists. split.
  - apply probStateDuration_row.
    rewrite model_shape_diag_length by exact Hm. exact Hi.
  - rewrite Ha.
    assert (Hrow :
      map (fun t => fexp (fadd (fmul (flog (Fin a)) (of_nat t))
                               (flog (fsub (Fin 1) (Fin a)))))
          (np.arange 0 tmax)
      = map (fun t => Fin (geometric_pmf a t)) (np.arange 0 tmax)).
    { apply map_ext. intros t. simpl.
      rewrite (Rsign_pos (proj1 Hr)).
      replace (1 + - a) with (1 - a) by lra.
      rewrite Rsign_pos by lra. simpl.
      rewrite exp_ln_geometric by assumption. reflexivity. }
    rewrite Hrow. unfold np.arange. rewrite Nat.sub_0_r.
    split; [rewrite length_map, length_seq; reflexivity|].
    rewrite sum_fin.
    + rewrite length_map, length_seq, <- geometric_partial_sum.
      f_equal. apply bigsum_ext. intros t Ht. unfold rget1.
      rewrite (nth_map_in _ _ 0%nat) by (rewrite length_seq; exact Ht).
      rewrite seq_nth by exact Ht. reflexivity.
    + unfold all_fin. rewrite Forall_map. apply Forall_forall.
      intros t _. exact I.
Qed.

Lemma probStateDuration_row_sum_witness :
  exists row,
    getitem (MarkovChain.probStateDuration chain_finite 4) 0 = Ok row /\
    length row = 4%nat /\
    np.sum row = Fin (1 - (5/10) ^ 4).
Proof.
  apply (@probStateDuration_row_sum chain_finite 4 0 (5/10)).
  - exact chain_finite_shape.
  - simpl. lia.
  - reflexivity.
  - lra.
Defined.

(** At the two ends of the range of a self-loop probability the log-space
    formula still gives the geometric value 0: every entry for an
    absorbing state ([a_ii = 1], [log(1 - a_ii) = -inf]), and the entries
    from [t = 1] on for a state that is never held ([a_ii = 0],
    [log(a_ii) * t = -inf]). *)
Theorem probStateDuration_boundary (m : MarkovChain.t) (tmax i t : nat) :
  model_shape m ->
  (i < MarkovChain.nStates m)%nat ->
  (t < tmax)%nat ->
  np.get2 (MarkovChain.A m) i i = Ok (Fin 1) \/
  (np.get2 (MarkovChain.A m) i i = Ok (Fin 0) /\ (1 <= t)%nat) ->
  np.get2 (MarkovChain.probStateDuration m tmax) i t = Ok (Fin 0).
Proof.
  intros Hm Hi Ht Ha.
  rewrite probStateDuration_entry
    by (rewrite ?model_shape_diag_length; assumption).
  rewrite (model_shape_diag Hm Hi) in Ha.
  destruct Ha as [Ha|[Ha H1]]; injection Ha as Ha; simpl; rewrite Ha; simpl.
  - rewrite (@Rsign_pos 1) by lra. rewrite (@Rsign_eq (1 + - (1))) by lra.
    reflexivity.
  - rewrite Rsign_0. simpl.
    assert (Hpos : 0 < INR t) by (apply lt_0_INR; lia).
    rewrite (Rsign_pos Hpos). simpl.
    rewrite (@Rsign_pos (1 + - 0)) by lra. reflexivity.
Qed.

Lemma probStateDuration_boundary_witness :
  np.get2 (MarkovChain.probStateDuration chain_infinite 4) 0 2 = Ok (Fin 0).
Proof.
  apply probStateDuration_boundary.
  - exact chain_infinite_shape.
  - simpl. lia.
  - lia.
  - right. split; [reflexivity|lia].
Defined.

(* ================================================================== *)
(** * Further properties: forward *)

(** On a [pX] without columns (no observation), [forward] raises: the
    first access [pX[:, 0]] is out of bounds. *)
Theorem forward_no_observation (m : MarkovChain.t) (pX : array2) :
  np.nrows pX = MarkovChain.nStates m ->
  np.ncols pX = 0%nat ->
  MarkovChain.forward m pX = Err IndexError.
Proof.
  intros Hr Hc.
  assert (E : forall Au clen,
             MarkovChain.forward_steps m Au pX clen = Err IndexError).
  { intros Au clen. unfold MarkovChain.forward_steps, np.shape.
    rewrite Hr, Nat.eqb_refl. simpl negb. cbv iota.
    unfold np.getcol. rewrite Hc. reflexivity. }
  unfold MarkovChain.forward.
  destruct (MarkovChain.is_finite m); rewrite E; reflexivity.
Qed.

Lemma forward_no_observation_witness :
  MarkovChain.forward chain_finite [[]; []] = Err IndexError.
Proof. apply forward_no_observation; reflexivity. Defined.

(** The constructor does not compare [q] with [A], and [forward] meets the
    mismatch at its first product: when the length of [q] is neither
    [nStates] nor 1 (which numpy would broadcast), [forward] raises a
    [ValueError], whatever [A] is. *)
Theorem forward_initial_length_mismatch (m : MarkovChain.t) (pX : array2)
  (T : nat) :
  (1 <= MarkovChain.nStates m)%nat ->
  rect (MarkovChain.nStates m) T pX ->
  (1 <= T)%nat ->
  length (MarkovChain.q m) <> MarkovChain.nStates m ->
  length (MarkovChain.q m) <> 1%nat ->
  MarkovChain.forward m pX = Err ValueError.
Proof.
  intros Hn HpX HT Hq Hq1.
  assert (E : forall Au clen, (1 <= clen)%nat ->
             MarkovChain.forward_steps m Au pX clen = Err ValueError).
  { intros Au clen Hclen. unfold MarkovChain.forward_steps, np.shape.
    rewrite (rect_ncols HpX Hn). pose proof HpX as [HpXl _].
    unfold np.nrows. rewrite HpXl, Nat.eqb_refl. simpl negb. cbv iota.
    rewrite (getcol_ok HpX Hn) by lia. ok_step.
    unfold np.multiply, np.elementwise, np.bdim.
    rewrite (rect_column_length _ HpX).
    destruct (Nat.eqb_spec (length (MarkovChain.q m)) (MarkovChain.nStates m));
      [contradiction|].
    destruct (Nat.eqb_spec (length (MarkovChain.q m)) 1); [contradiction|].
    destruct (Nat.eqb_spec (MarkovChain.nStates m) 1) as [E1|N1];
      [|reflexivity].
    ok_step. unfold np.broadcast_to at 1. rewrite Nat.eqb_refl. ok_step.
    unfold np.broadcast_to at 1. rewrite (rect_column_length _ HpX), E1.
    destruct (Nat.eqb_spec 1 (length (MarkovChain.q m))) as [E2|_]; [lia|].
    simpl Nat.eqb. cbv iota. ok_step. ok_step.
    assert (Hones : length (np.ones clen) = clen) by apply repeat_length.
    rewrite setitem_ok by lia. ok_step.
    rewrite (getitem_nth _ NaN) by (rewrite upd_length; lia). ok_step.
    unfold np.setcol. rewrite (rect_ncols (ones2_rect _ T)) by lia.
    destruct (Nat.ltb_spec 0 T); [|lia].
    unfold np.broadcast_to, np.nrows.
    rewrite divide_scalar_length, map2_length
      by (rewrite repeat_length; reflexivity).
    destruct (ones2_rect 1 T) as [Hl _]. rewrite Hl.
    destruct (Nat.eqb_spec (length (MarkovChain.q m)) 1); [contradiction|].
    reflexivity. }
  unfold MarkovChain.forward, np.shape. rewrite (rect_ncols HpX Hn). simpl snd.
  destruct (MarkovChain.is_finite m); rewrite E by lia; reflexivity.
Qed.

Lemma forward_initial_length_mismatch_witness :
  MarkovChain.forward
    (MarkovChain.mk [Fin (1/3); Fin (1/3); Fin (1/3)]
       [[Fin (1/2); Fin (1/2)]; [Fin (1/2); Fin (1/2)]] 2 false)
    pX_ones = Err ValueError.
Proof.
  apply (@forward_initial_length_mismatch _ pX_ones 3).
  - simpl. lia.
  - exact pX_ones_rect.
  - lia.
  - simpl. lia.
  - simpl. lia.
Defined.

Lemma bigsum_term_le (n : nat) (f : nat -> R) (i : nat) :
  (forall j, (j < n)%nat -> 0 <= f j) -> (i < n)%nat -> f i <= bigsum n f.
Proof.
  induction n as [|n IH]; intros H Hi; [lia|]. simpl.
  assert (H1 : 0 <= bigsum n f) by (apply bigsum_nonneg; intros; apply H; lia).
  assert (H2 : 0 <= f n) by (apply H; lia).
  destruct (Nat.eq_dec i n) as [->|Hne]; [lra|].
  assert (f i <= bigsum n f) by (apply IH; [intros; apply H; lia|lia]). lra.
Qed.

(** On a model and a [pX] with non-negative entries, when the masses of the
    steps are positive every entry of the [a_hat] that [forward] returns is
    a probability: a finite number between 0 and 1. *)
Theorem forward_a_hat_probabilities (m : MarkovChain.t) (pX : array2) (T : nat) :
  model_shape m ->
  all_nonneg (MarkovChain.q m) -> all_nonneg2 (MarkovChain.A m) ->
  rect (MarkovChain.nStates m) T pX -> all_nonneg2 pX ->
  (1 <= T)%nat ->
  exists a_hat c,
    MarkovChain.forward m pX = Ok (a_hat, c) /\
    (positive_masses T c ->
     forall t i, (t < T)%nat -> (i < MarkovChain.nStates m)%nat ->
       exists x, np.get2 a_hat i t = Ok (Fin x) /\ 0 <= x <= 1).
Proof.
  intros Hm Nq NA HpX NpX HT.
  pose proof (all_nonneg_fin Nq) as Fq.
  pose proof (all_nonneg2_fin NA) as FA.
  pose proof (all_nonneg2_fin NpX) as FpX.
  destruct (forward_spec Hm HpX HT) as [a_hat [c [E [Ha [Hc [Hcols _]]]]]].
  exists a_hat, c. split; [exact E|]. intros Hp t i Ht Hi.
  assert (Hscale : forall t, (t < T)%nat ->
            nth t c NaN = scale_at (MarkovChain.q m) (A_states m) pX t)
    by (intros s Hs; apply Hcols; exact Hs).
  assert (Hnz : forall s, (s < T)%nat ->
            exists r, scale_at (MarkovChain.q m) (A_states m) pX s = Fin r /\ r <> 0).
  { intros s Hs. destruct (Hp s Hs) as [r [Er Hr]]. exists r.
    rewrite <- Hscale by exact Hs. split; [exact Er|lra]. }
  pose proof Hm as [Hn Hq _].
  exists (rget1 (a_hat_at (MarkovChain.q m) (A_states m) pX t) i).
  assert (Hnn : forall j, (j < MarkovChain.nStates m)%nat ->
            0 <= rget1 (a_hat_at (MarkovChain.q m) (A_states m) pX t) j).
  { intros j Hj.
    apply (@a_hat_nonneg m pX T c Hm Nq NA HpX NpX HT Hscale Hp t Ht j Hj). }
  split; [|split].
  - rewrite get2_nth
      by (rewrite ?(rect_row_length Ha Hi); destruct Ha; lia).
    f_equal. rewrite <- column_entry by (destruct Ha; lia).
    destruct (Hcols t Ht) as [-> _].
    apply all_fin_nth.
    + apply (ah_fin Hm Fq FA HpX FpX Hnz Ht).
    + rewrite (@a_hat_at_length _ _ _ _ _ Hn Hq (A_states_rect Hm) HpX).
      exact Hi.
  - apply Hnn. exact Hi.
  - pose proof (ah_sum Hm Fq FA HpX FpX Hnz Ht) as Hs. cbv beta in Hs.
    rewrite <- Hs.
    apply (@bigsum_term_le (MarkovChain.nStates m)
             (fun j => rget1 (a_hat_at (MarkovChain.q m) (A_states m) pX t) j));
      assumption.
Qed.

Lemma chain_finite_nonneg :
  all_nonneg (MarkovChain.q chain_finite) /\
  all_nonneg2 (MarkovChain.A chain_finite).
Proof.
  split; [apply all_pos_nonneg|apply all_pos2_nonneg]; apply chain_finite_pos.
Qed.

Lemma forward_a_hat_probabilities_witness :
  exists a_hat c,
    MarkovChain.forward chain_finite pX_ones = Ok (a_hat, c) /\
    forall t i, (t < 3)%nat -> (i < 2)%nat ->
      exists x, np.get2 a_hat i t = Ok (Fin x) /\ 0 <= x <= 1.
Proof.
  destruct (@forward_a_hat_probabilities chain_finite pX_ones 3)
    as [a_hat [c [E H]]].
  - exact chain_finite_shape.
  - apply chain_finite_nonneg.
  - apply chain_finite_nonneg.
  - exact pX_ones_rect.
  - apply all_pos2_nonneg, pX_ones_pos.
  - lia.
  - exists a_hat, c. split; [exact E|]. apply H.
    pose proof (forward_positive_masses chain_finite_shape
                  (proj1 chain_finite_pos) (proj2 chain_finite_pos)
                  pX_ones_rect pX_ones_pos ltac:(lia) E) as Hp.
    destruct (forward_spec chain_finite_shape pX_ones_rect ltac:(lia))
      as [a' [c' [E' [_ [Hc _]]]]].
    rewrite E in E'. injection E' as <- <-.
    intros t Ht. apply Hp. rewrite Hc. simpl. lia.
Defined.

Lemma array2_ext (r c : nat) (M M' : array2) :
  rect r c M -> rect r c M' ->
  (forall t, (t < c)%nat -> np.column t M = np.column t M') ->
  M = M'.
Proof.
  intros HM HM' Hcol. pose proof HM as [Hl _]. pose proof HM' as [Hl' _].
  apply (nth_ext _ _ [] []); [congruence|].
  intros i Hi. rewrite Hl in Hi.
  apply (nth_ext _ _ NaN NaN).
  - rewrite (rect_row_length HM Hi), (rect_row_length HM' Hi). reflexivity.
  - intros t Ht. rewrite (rect_row_length HM Hi) in Ht.
    rewrite <- !column_entry by lia. rewrite Hcol by exact Ht. reflexivity.
Qed.

Lemma takecols_rect (r c k : nat) (M : array2) :
  rect r c M -> (k <= c)%nat -> rect r k (takecols k M).
Proof.
  intros [Hl Hr] Hk. split.
  - unfold takecols. rewrite length_map. exact Hl.
  - unfold takecols. rewrite Forall_map.
    eapply Forall_impl; [|exact Hr].
    intros row Hrow. simpl in Hrow. rewrite length_firstn. lia.
Qed.

Lemma column_takecols (k t : nat) (M : array2) :
  (t < k)%nat -> np.column t (takecols k M) = np.column t M.
Proof.
  intros Ht. unfold np.column, takecols. rewrite map_map.
  apply map_ext. intros row. rewrite nth_firstn.
  destruct (Nat.ltb_spec t k); [reflexivity|lia].
Qed.

Lemma a_temp_at_agree (q : array1) (Au pX pX' : array2) (k : nat) :
  (forall t, (t < k)%nat -> np.column t pX' = np.column t pX) ->
  forall t, (t < k)%nat -> a_temp_at q Au pX' t = a_temp_at q Au pX t.
Proof.
  intros Hcol. induction t as [|t IH]; intros Ht; simpl.
  - rewrite Hcol by exact Ht. reflexivity.
  - rewrite Hcol by exact Ht. rewrite IH by lia. reflexivity.
Qed.

(** [forward] is causal: run on the first [k] observations [pX[:, :k]] it
    returns the first [k] columns of the [a_hat] and the first [k] entries
    of the [c] that it returns on the whole of [pX]. *)
Theorem forward_prefix (m : MarkovChain.t) (pX : array2) (T k : nat) :
  model_shape m ->
  rect (MarkovChain.nStates m) T pX ->
  (1 <= k)%nat -> (k <= T)%nat ->
  exists a_hat c a_hat' c',
    MarkovChain.forward m pX = Ok (a_hat, c) /\
    MarkovChain.forward m (takecols k pX) = Ok (a_hat', c') /\
    a_hat' = takecols k a_hat /\
    firstn k c' = firstn k c.
Proof.
  intros Hm HpX Hk HkT.
  pose proof (takecols_rect HpX HkT) as HpX'.
  destruct (forward_spec Hm HpX ltac:(lia))
    as [a_hat [c [E [Ha [Hc [Hcols _]]]]]].
  destruct (forward_spec Hm HpX' Hk)
    as [a_hat' [c' [E' [Ha' [Hc' [Hcols' _]]]]]].
  exists a_hat, c, a_hat', c'.
  split; [exact E|]. split; [exact E'|].
  assert (Hu : forall t, (t < k)%nat ->
            a_temp_at (MarkovChain.q m) (A_states m) (takecols k pX) t =
            a_temp_at (MarkovChain.q m) (A_states m) pX t).
  { apply a_temp_at_agree. intros t Ht. apply column_takecols. exact Ht. }
  split.
  - apply (array2_ext Ha' (takecols_rect Ha HkT)).
    intros t Ht. rewrite column_takecols by exact Ht.
    destruct (Hcols' t Ht) as [-> _]. destruct (Hcols t) as [-> _]; [lia|].
    unfold a_hat_at, scale_at. rewrite Hu by exact Ht. reflexivity.
  - apply (nth_ext _ _ NaN NaN).
    + rewrite !length_firstn, Hc, Hc'. lia.
    + intros t Ht. rewrite length_firstn, Hc' in Ht.
      assert (Htk : (t < k)%nat) by lia.
      rewrite !nth_firstn. destruct (Nat.ltb_spec t k); [|lia].
      destruct (Hcols' t Htk) as [_ ->]. destruct (Hcols t) as [_ ->]; [lia|].
      unfold scale_at. rewrite Hu by exact Htk. reflexivity.
Qed.

Lemma forward_prefix_witness :
  exists a_hat c a_hat' c',
    MarkovChain.forward chain_finite pX_ones = Ok (a_hat, c) /\
    MarkovChain.forward chain_finite (takecols 2 pX_ones) = Ok (a_hat', c') /\
    a_hat' = takecols 2 a_hat /\
    firstn 2 c' = firstn 2 c.
Proof.
  apply (@forward_prefix chain_finite pX_ones 3 2).
  - exact chain_finite_shape.
  - exact pX_ones_rect.
  - lia.
  - lia.
Defined.

Lemma column_scale2 (k : float64) (t : nat) (M : array2) :
  fmul k NaN = NaN ->
  np.column t (scale2 k M) = map (fmul k) (np.column t M).
Proof.
  intros Hk. unfold np.column, scale2. rewrite !map_map.
  apply map_ext. intros row. rewrite <- Hk at 1. apply map_nth.
Qed.

Lemma scale2_rect (r c : nat) (k : float64) (M : array2) :
  rect r c M -> rect r c (scale2 k M).
Proof.
  intros [Hl Hr]. split.
  - unfold scale2. rewrite length_map. exact Hl.
  - unfold scale2. rewrite Forall_map.
    eapply Forall_impl; [|exact Hr].
    intros row Hrow. simpl in Hrow. rewrite length_map. exact Hrow.
Qed.

Lemma scale2_fin (k : R) (M : array2) : all_fin2 M -> all_fin2 (scale2 (Fin k) M).
Proof.
  intros H. unfold all_fin2, scale2. rewrite Forall_map.
  eapply Forall_impl; [|exact H]. intros row Hrow.
  unfold all_fin in *. rewrite Forall_map.
  eapply Forall_impl; [|exact Hrow]. intros x Hx.
  destruct x; simpl in *; auto; contradiction.
Qed.

Lemma rget1_map_fmul (k : R) (v : array1) (i : nat) :
  all_fin v -> (i < length v)%nat ->
  rget1 (map (fmul (Fin k)) v) i = k * rget1 v i.
Proof.
  intros Hv Hi. unfold rget1 at 1. rewrite (nth_map_in _ _ NaN) by exact Hi.
  rewrite (all_fin_nth Hv Hi). reflexivity.
Qed.

Lemma map_fmul_fin (k : R) (v : array1) : all_fin v -> all_fin (map (fmul (Fin k)) v).
Proof.
  intros Hv. unfold all_fin in *. rewrite Forall_map.
  eapply Forall_impl; [|exact Hv]. intros x Hx.
  destruct x; simpl in *; auto; contradiction.
Qed.

(** Normalising a vector and the same vector multiplied by [k]. *)
Lemma normalise_scaled (k s : R) (n : nat) (u u' : array1) :
  k <> 0 -> s <> 0 ->
  all_fin u -> all_fin u' -> length u = n -> length u' = n ->
  (forall i, (i < n)%nat -> rget1 u' i = k * rget1 u i) ->
  np.sum u = Fin s ->
  np.sum u' = Fin (k * s) /\
  np.divide_scalar u' (np.sum u') = np.divide_scalar u (np.sum u).
Proof.
  intros Hk Hs Fu Fu' Lu Lu' Hrel Esum.
  assert (Esum' : np.sum u' = Fin (k * s)).
  { rewrite sum_fin by exact Fu'. rewrite sum_fin in Esum by exact Fu.
    injection Esum as Esum. rewrite Lu', <- Esum, Lu, <- bigsum_scal_l.
    f_equal. apply bigsum_ext. exact Hrel. }
  split; [exact Esum'|].
  rewrite Esum, Esum'.
  apply (nth_ext _ _ NaN NaN).
  - rewrite !divide_scalar_length. congruence.
  - intros i Hi. rewrite divide_scalar_length, Lu' in Hi.
    unfold np.divide_scalar.
    rewrite !(nth_map_in _ _ NaN) by lia.
    rewrite (all_fin_nth Fu'), (all_fin_nth Fu) by lia.
    rewrite !fdiv_fin by (assumption || (apply Rmult_integral_contrapositive; auto)).
    f_equal. rewrite Hrel by exact Hi. field. auto.
Qed.

Section ForwardScaling.

Variables (m : MarkovChain.t) (pX : array2) (T : nat) (k : R).
Hypothesis Hm : model_shape m.
Hypothesis Fq : all_fin (MarkovChain.q m).
Hypothesis FA : all_fin2 (MarkovChain.A m).
Hypothesis HpX : rect (MarkovChain.nStates m) T pX.
Hypothesis FpX : all_fin2 pX.
Hypothesis Hk : k <> 0.
Hypothesis Hnz :
  forall s, (s < T)%nat ->
    exists r, scale_at (MarkovChain.q m) (A_states m) pX s = Fin r /\ r <> 0.

Let n := MarkovChain.nStates m.
Let q := MarkovChain.q m.
Let Au := A_states m.
Let pX' := scale2 (Fin k) pX.

(** The unnormalised vectors are multiplied by [k], the normalised ones
    are unchanged. *)
Lemma a_temp_scaled (t : nat) :
  (t < T)%nat ->
  all_fin (a_temp_at q Au pX' t) /\
  (forall i, (i < n)%nat ->
     rget1 (a_temp_at q Au pX' t) i = k * rget1 (a_temp_at q Au pX t) i) /\
  scale_at q Au pX' t = fmul (Fin k) (scale_at q Au pX t) /\
  a_hat_at q Au pX' t = a_hat_at q Au pX t.
Proof.
  pose proof Hm as [Hn Hq _]. fold n in Hn. fold q n in Hq.
  pose proof (A_states_rect Hm) as HAu. fold n Au in HAu.
  pose proof (A_states_fin m FA) as FAu. fold Au in FAu.
  pose proof (scale2_rect (Fin k) HpX) as HpX'. fold pX' n in HpX'.
  pose proof HpX as HpXn. fold n in HpXn.
  assert (Hfinish : forall t u u', (t < T)%nat ->
            u = a_temp_at q Au pX t -> u' = a_temp_at q Au pX' t ->
            all_fin u' ->
            (forall i, (i < n)%nat -> rget1 u' i = k * rget1 u i) ->
            all_fin u' /\
            (forall i, (i < n)%nat -> rget1 u' i = k * rget1 u i) /\
            scale_at q Au pX' t = fmul (Fin k) (scale_at q Au pX t) /\
            a_hat_at q Au pX' t = a_hat_at q Au pX t).
  { intros s u u' Hs -> -> Fu' Hrel.
    destruct (Hnz Hs) as [r [Er Hr]]. fold q Au in Er.
    assert (Fu : all_fin (a_temp_at q Au pX s)).
    { apply (a_temp_fin Hn Hq HAu HpXn Fq FAu FpX Hs).
      intros s' Hs'. apply Hnz. lia. }
    destruct (@normalise_scaled k r n (a_temp_at q Au pX s) (a_temp_at q Au pX' s))
      as [E1 E2]; auto.
    - apply (@a_temp_at_length q Au pX n T Hn Hq HAu HpXn).
    - apply (@a_temp_at_length q Au pX' n T Hn Hq HAu HpX').
    - split; [exact Fu'|]. split; [exact Hrel|]. split.
      + unfold scale_at in *. rewrite E1, Er. reflexivity.
      + exact E2. }
  induction t as [|t IH]; intros Ht.
  - apply (Hfinish 0%nat _ _ Ht eq_refl eq_refl).
    + simpl. unfold pX'. rewrite column_scale2 by reflexivity.
      apply map2_fmul_fin; [exact Fq|].
      apply map_fmul_fin. apply (column_fin HpX FpX Ht).
    + intros i Hi. simpl. unfold pX'. rewrite column_scale2 by reflexivity.
      assert (Fcol : all_fin (np.column 0 pX)) by apply (column_fin HpX FpX Ht).
      assert (Lcol : length (np.column 0 pX) = n)
        by apply (rect_column_length _ HpX).
      rewrite !rget1_map2_fmul;
        try assumption; try (apply map_fmul_fin; assumption);
        rewrite ?length_map; try lia.
      rewrite rget1_map_fmul by (assumption || lia). ring.
  - destruct IH as [_ [_ [_ Eah]]]; [lia|].
    assert (Fah : all_fin (a_hat_at q Au pX t)).
    { apply (a_hat_fin Hn Hq HAu HpXn Fq FAu FpX); [lia|].
      intros s' Hs'. apply Hnz. lia. }
    assert (Lah : length (a_hat_at q Au pX t) = n)
      by apply (@a_hat_at_length q Au pX n T Hn Hq HAu HpXn).
    assert (Fv : all_fin (np.vm (a_hat_at q Au pX t) Au))
      by apply (vm_fin HAu Hn FAu Fah Lah).
    assert (Lv : length (np.vm (a_hat_at q Au pX t) Au) = n)
      by (rewrite vm_length; apply (rect_ncols HAu Hn)).
    assert (Fcol : all_fin (np.column (S t) pX))
      by apply (column_fin HpX FpX Ht).
    assert (Lcol : length (np.column (S t) pX) = n)
      by apply (rect_column_length _ HpX).
    assert (Eu' : a_temp_at q Au pX' (S t) =
                  map2 fmul (map (fmul (Fin k)) (np.column (S t) pX))
                       (np.vm (a_hat_at q Au pX t) Au)).
    { change (a_temp_at q Au pX' (S t))
        with (map2 fmul (np.column (S t) pX') (np.vm (a_hat_at q Au pX' t) Au)).
      rewrite Eah. unfold pX'. rewrite column_scale2 by reflexivity.
      reflexivity. }
    apply (Hfinish (S t) _ _ Ht eq_refl eq_refl).
    + rewrite Eu'. apply map2_fmul_fin; [|exact Fv].
      apply map_fmul_fin. exact Fcol.
    + intros i Hi. rewrite Eu'.
      change (a_temp_at q Au pX (S t))
        with (map2 fmul (np.column (S t) pX) (np.vm (a_hat_at q Au pX t) Au)).
      rewrite !rget1_map2_fmul;
        try assumption; try (apply map_fmul_fin; assumption);
        rewrite ?length_map; try lia.
      rewrite rget1_map_fmul by (assumption || lia). ring.
Qed.

End ForwardScaling.

(** In exact arithmetic: multiplying every observation likelihood by a
    number [k <> 0] leaves [a_hat] unchanged and multiplies the mass [c[t]]
    of every step by [k]; the exit factor of a finite-duration chain is
    unchanged.  (In [float64] this holds up to rounding, and exactly only
    for factors such as powers of two that neither overflow nor
    underflow.) *)
Theorem forward_scaling (m : MarkovChain.t) (pX : array2) (T : nat) (k : R) :
  model_shape m ->
  all_fin (MarkovChain.q m) -> all_fin2 (MarkovChain.A m) ->
  rect (MarkovChain.nStates m) T pX -> all_fin2 pX ->
  (1 <= T)%nat ->
  k <> 0 ->
  exists a_hat c a_hat' c',
    MarkovChain.forward m pX = Ok (a_hat, c) /\
    MarkovChain.forward m (scale2 (Fin k) pX) = Ok (a_hat', c') /\
    (positive_masses T c ->
     a_hat' = a_hat /\
     (forall t, (t < T)%nat -> nth t c' NaN = fmul (Fin k) (nth t c NaN)) /\
     (MarkovChain.is_finite m = true -> nth T c' NaN = nth T c NaN)).
Proof.
  intros Hm Fq FA HpX FpX HT Hk.
  pose proof (scale2_rect (Fin k) HpX) as HpX'.
  destruct (forward_spec Hm HpX HT)
    as [a_hat [c [E [Ha [Hc [Hcols Hexit]]]]]].
  destruct (forward_spec Hm HpX' HT)
    as [a_hat' [c' [E' [Ha' [Hc' [Hcols' Hexit']]]]]].
  exists a_hat, c, a_hat', c'.
  split; [exact E|]. split; [exact E'|]. intros Hp.
  assert (Hnz : forall s, (s < T)%nat ->
            exists r, scale_at (MarkovChain.q m) (A_states m) pX s = Fin r /\ r <> 0).
  { intros s Hs. destruct (Hp s Hs) as [r [Er Hr]]. exists r.
    destruct (Hcols s Hs) as [_ <-]. split; [exact Er|lra]. }
  assert (Hsc := fun t Ht => @a_temp_scaled m pX T k Hm Fq FA HpX FpX Hk Hnz t Ht).
  assert (Eah : a_hat' = a_hat).
  { apply (array2_ext Ha' Ha). intros t Ht.
    destruct (Hcols' t Ht) as [-> _]. destruct (Hcols t Ht) as [-> _].
    apply Hsc. exact Ht. }
  split; [exact Eah|]. split.
  - intros t Ht. destruct (Hcols' t Ht) as [_ ->]. destruct (Hcols t Ht) as [_ ->].
    apply Hsc. exact Ht.
  - intros Ef. rewrite (Hexit Ef), (Hexit' Ef), Eah. reflexivity.
Qed.

Lemma forward_scaling_witness :
  exists a_hat c a_hat' c',
    MarkovChain.forward chain_finite pX_ones = Ok (a_hat, c) /\
    MarkovChain.forward chain_finite (scale2 (Fin 2) pX_ones) = Ok (a_hat', c') /\
    a_hat' = a_hat /\
    (forall t, (t < 3)%nat -> nth t c' NaN = fmul (Fin 2) (nth t c NaN)) /\
    nth 3 c' NaN = nth 3 c NaN.
Proof.
  destruct (@forward_scaling chain_finite pX_ones 3 2)
    as [a_hat [c [a_hat' [c' [E [E' H]]]]]].
  - exact chain_finite_shape.
  - apply all_pos_fin, chain_finite_pos.
  - apply all_pos2_fin, chain_finite_pos.
  - exact pX_ones_rect.
  - apply all_pos2_fin, pX_ones_pos.
  - lia.
  - lra.
  - exists a_hat, c, a_hat', c'. split; [exact E|]. split; [exact E'|].
    pose proof (forward_positive_masses chain_finite_shape
                  (proj1 chain_finite_pos) (proj2 chain_finite_pos)
                  pX_ones_rect pX_ones_pos ltac:(lia) E) as Hp.
    destruct (forward_spec chain_finite_shape pX_ones_rect ltac:(lia))
      as [a0 [c0 [E0 [_ [Hc _]]]]].
    rewrite E in E0. injection E0 as <- <-.
    destruct H as [H1 [H2 H3]].
    + intros t Ht. apply Hp. rewrite Hc. simpl. lia.
    + split; [exact H1|]. split; [exact H2|]. apply H3. reflexivity.
Defined.

(* ================================================================== *)
(** * Further properties: backward *)

(** With a [c] of the length that [forward] gives it, [backward] returns an
    [nStates x T] array whatever the values are (a zero in [c] raises
    nothing), and the loop leaves its last column as initialised:
    [A[i, END] / (c[-1] * c[-2])] for a finite-duration chain, [1 / c[-1]]
    for an infinite-duration one. *)
Theorem backward_last_column (m : MarkovChain.t) (c : array1) (pX : array2)
  (T : nat) :
  model_shape m ->
  rect (MarkovChain.nStates m) T pX ->
  (1 <= T)%nat ->
  length c = (T + (if MarkovChain.is_finite m then 1 else 0))%nat ->
  exists beta_hat,
    MarkovChain.backward m c pX = Ok beta_hat /\
    rect (MarkovChain.nStates m) T beta_hat /\
    forall i, (i < MarkovChain.nStates m)%nat ->
      np.get2 beta_hat i (T - 1) =
      Ok (if MarkovChain.is_finite m
          then fdiv (nth (MarkovChain.nStates m) (nth i (MarkovChain.A m) []) NaN)
                    (fmul (nth T c NaN) (nth (T - 1) c NaN))
          else fdiv (Fin 1) (nth (T - 1) c NaN)).
Proof.
  intros Hm HpX HT Hc.
  destruct (@backward_spec m c pX T Hm HpX Hc HT) as [beta_hat [E [Hb Hcols]]].
  exists beta_hat. split; [exact E|]. split; [exact Hb|].
  intros i Hi.
  rewrite get2_nth by (rewrite ?(rect_row_length Hb Hi); destruct Hb; lia).
  f_equal. rewrite <- column_entry by (destruct Hb; lia).
  rewrite Hcols by lia. replace (T - 1 - (T - 1))%nat with 0%nat by lia.
  cbn [beta_at]. destruct (MarkovChain.is_finite m).
  - unfold np.divide_scalar. destruct Hm as [_ _ [HAl _]].
    rewrite (nth_map_in _ _ NaN) by (rewrite column_length; lia).
    rewrite column_entry by lia. reflexivity.
  - apply nth_repeat_lt. exact Hi.
Qed.

Lemma backward_last_column_witness :
  exists beta_hat,
    MarkovChain.backward chain_infinite [Fin 0; Fin 0; Fin 0] pX_ones
      = Ok beta_hat /\
    rect 2 3 beta_hat /\
    forall i, (i < 2)%nat ->
      np.get2 beta_hat i 2 = Ok (fdiv (Fin 1) (Fin 0)).
Proof.
  apply (@backward_last_column chain_infinite [Fin 0; Fin 0; Fin 0] pX_ones 3).
  - exact chain_infinite_shape.
  - exact pX_ones_rect.
  - lia.
  - reflexivity.
Defined.

(** [backward] reads [c[-1]], and [c[-2]] for a finite-duration chain: on a
    [c] too short for that it raises an [IndexError]. *)
Theorem backward_short_scale_array (m : MarkovChain.t) (c : array1)
  (pX : array2) (T : nat) :
  model_shape m ->
  rect (MarkovChain.nStates m) T pX ->
  (1 <= T)%nat ->
  (length c < (if MarkovChain.is_finite m then 2 else 1))%nat ->
  MarkovChain.backward m c pX = Err IndexError.
Proof.
  intros Hm HpX HT Hc. pose proof Hm as [Hn Hq HA].
  unfold MarkovChain.backward, np.shape. rewrite (rect_ncols HpX Hn).
  simpl snd. pose proof (zeros2_rect (MarkovChain.nStates m) T) as Hz.
  destruct (MarkovChain.is_finite m).
  - rewrite (lastcol_ok HA Hn) by lia. ok_step.
    replace (MarkovChain.nStates m + 1 - 1)%nat with (MarkovChain.nStates m) by lia.
    assert (Hlen : length (np.column (MarkovChain.nStates m) (MarkovChain.A m))
                   = MarkovChain.nStates m)
      by apply (rect_column_length _ HA).
    rewrite (setcol_ok _ Hz Hn) by (lia || assumption). ok_step.
    pose proof (putcol_rect (T - 1) _ Hz Hlen) as Hb1.
    rewrite (lastcol_ok Hb1 Hn) by lia. ok_step.
    unfold getitem_neg.
    destruct c as [|x [|y c]]; simpl in Hc; try lia; reflexivity.
  - destruct c as [|x c]; simpl in Hc; [reflexivity|lia].
Qed.

Lemma backward_short_scale_array_witness :
  MarkovChain.backward chain_finite [Fin 1] pX_ones = Err IndexError.
Proof.
  apply (@backward_short_scale_array chain_finite [Fin 1] pX_ones 3).
  - exact chain_finite_shape.
  - exact pX_ones_rect.
  - lia.
  - simpl. lia.
Defined.

(** On a [pX] without columns [backward] raises an [IndexError], whatever
    [c] is: there is no last column [beta_hat[:, -1]] to initialise. *)
Theorem backward_no_observation (m : MarkovChain.t) (c : array1) (pX : array2) :
  model_shape m ->
  rect (MarkovChain.nStates m) 0 pX ->
  MarkovChain.backward m c pX = Err IndexError.
Proof.
  intros Hm HpX. pose proof Hm as [Hn Hq HA].
  unfold MarkovChain.backward, np.shape. rewrite (rect_ncols HpX Hn).
  simpl snd. pose proof (zeros2_rect (MarkovChain.nStates m) 0) as Hz.
  assert (Eset : forall v, np.setcol (np.zeros2 (MarkovChain.nStates m) 0) (0 - 1) v
                           = Err IndexError).
  { intros v. unfold np.setcol. rewrite (rect_ncols Hz Hn). reflexivity. }
  destruct (MarkovChain.is_finite m).
  - rewrite (lastcol_ok HA Hn) by lia. ok_step. rewrite Eset. reflexivity.
  - destruct (getitem_neg c 1) as [x|e] eqn:Ec.
    + ok_step. rewrite Eset. reflexivity.
    + unfold getitem_neg in Ec.
      destruct (1 <=? length c)%nat; [|injection Ec as <-; reflexivity].
      unfold getitem in Ec. destruct (nth_error c (length c - 1));
        [discriminate|injection Ec as <-; reflexivity].
Qed.

Lemma backward_no_observation_witness :
  MarkovChain.backward chain_finite [Fin 1; Fin 1] [[]; []] = Err IndexError.
Proof.
  apply backward_no_observation.
  - exact chain_finite_shape.
  - split; [reflexivity|]. repeat constructor.
Defined.

(* ================================================================== *)
(** * Further properties: the exit factor *)

(** For a finite-duration chain with non-negative entries whose END
    probabilities are at most 1, and a non-negative [pX] with positive step
    masses, [forward] returns a [c] of [T + 1] entries whose last one, the
    exit factor [c[T]], is a finite non-negative number (it may be zero,
    never [nan] or infinite). *)
Theorem forward_exit_factor_nonneg (m : MarkovChain.t) (pX : array2) (T : nat) :
  model_shape m ->
  MarkovChain.is_finite m = true ->
  all_nonneg (MarkovChain.q m) -> all_nonneg2 (MarkovChain.A m) ->
  (forall i, (i < MarkovChain.nStates m)%nat ->
     rget2 (MarkovChain.A m) i (MarkovChain.nStates m) <= 1) ->
  rect (MarkovChain.nStates m) T pX -> all_nonneg2 pX ->
  (1 <= T)%nat ->
  exists a_hat c,
    MarkovChain.forward m pX = Ok (a_hat, c) /\
    length c = (T + 1)%nat /\
    (positive_masses T c ->
     exists e, nth T c NaN = Fin e /\ 0 <= e).
Proof.
  intros Hm Ef Nq NA Hend HpX NpX HT.
  pose proof (all_nonneg_fin Nq) as Fq.
  pose proof (all_nonneg2_fin NA) as FA.
  pose proof (all_nonneg2_fin NpX) as FpX.
  destruct (forward_spec Hm HpX HT) as [a_hat [c [E [Ha [Hc [Hcols Hexit]]]]]].
  exists a_hat, c. split; [exact E|].
  split; [rewrite Hc, Ef; reflexivity|]. intros Hp.
  assert (Hscale : forall t, (t < T)%nat ->
            nth t c NaN = scale_at (MarkovChain.q m) (A_states m) pX t)
    by (intros s Hs; apply Hcols; exact Hs).
  assert (Hnz : forall s, (s < T)%nat ->
            exists r, scale_at (MarkovChain.q m) (A_states m) pX s = Fin r /\ r <> 0).
  { intros s Hs. destruct (Hp s Hs) as [r [Er Hr]]. exists r.
    rewrite <- Hscale by exact Hs. split; [exact Er|lra]. }
  pose proof Hm as [Hn Hq HA]. rewrite Ef in HA.
  assert (HT1 : (T - 1 < T)%nat) by lia.
  assert (Hnn : forall j, (j < MarkovChain.nStates m)%nat ->
            0 <= rget1 (a_hat_at (MarkovChain.q m) (A_states m) pX (T - 1)) j).
  { intros j Hj.
    apply (@a_hat_nonneg m pX T c Hm Nq NA HpX NpX HT Hscale Hp _ HT1 j Hj). }
  rewrite (Hexit Ef). destruct (Hcols (T - 1)%nat HT1) as [-> _].
  rewrite inner_fin.
  - eexists. split; [reflexivity|].
    rewrite (@a_hat_at_length _ _ _ _ _ Hn Hq (A_states_rect Hm) HpX).
    apply bigsum_nonneg. intros i Hi.
    apply Rmult_le_pos; [apply Hnn; exact Hi|].
    rewrite rget1_column by (destruct HA; lia). apply rget2_nonneg. exact NA.
  - apply (ah_fin Hm Fq FA HpX FpX Hnz HT1).
  - apply (column_fin HA FA). lia.
  - rewrite (@a_hat_at_length _ _ _ _ _ Hn Hq (A_states_rect Hm) HpX).
    rewrite column_length. destruct HA; auto.
Qed.

Lemma forward_exit_factor_nonneg_witness :
  exists a_hat c,
    MarkovChain.forward chain_finite pX_ones = Ok (a_hat, c) /\
    length c = 4%nat /\
    exists e, nth 3 c NaN = Fin e /\ 0 <= e.
Proof.
  destruct (@forward_exit_factor_nonneg chain_finite pX_ones 3)
    as [a_hat [c [E [Hc H]]]].
  - exact chain_finite_shape.
  - reflexivity.
  - apply chain_finite_nonneg.
  - apply chain_finite_nonneg.
  - intros i Hi. simpl in Hi. unfold rget2.
    destruct i as [|[|i]]; simpl; try lra. lia.
  - exact pX_ones_rect.
  - apply all_pos2_nonneg, pX_ones_pos.
  - lia.
  - exists a_hat, c. split; [exact E|]. split; [exact Hc|]. apply H.
    pose proof (forward_positive_masses chain_finite_shape
                  (proj1 chain_finite_pos) (proj2 chain_finite_pos)
                  pX_ones_rect pX_ones_pos ltac:(lia) E) as Hp.
    intros t Ht. apply Hp. rewrite Hc. lia.
Defined.

(* ================================================================== *)
(** * Further properties: shapes of the results *)

(** On a [pX] with [nStates] rows and [T >= 1] columns, [forward] returns
    [(a_hat, c)] with [a_hat] of shape [nStates x T] and [c] of [T] entries
    for an infinite-duration chain, [T + 1] for a finite-duration chain,
    whatever the values in [q], [A] and [pX] are (zeros, [nan] and
    infinities included). *)
Theorem forward_result_shape (m : MarkovChain.t) (pX : array2) (T : nat) :
  model_shape m ->
  rect (MarkovChain.nStates m) T pX ->
  (1 <= T)%nat ->
  exists a_hat c,
    MarkovChain.forward m pX = Ok (a_hat, c) /\
    np.shape a_hat = (MarkovChain.nStates m, T) /\
    rect (MarkovChain.nStates m) T a_hat /\
    length c = (T + (if MarkovChain.is_finite m then 1 else 0))%nat.
Proof.
  intros Hm HpX HT.
  destruct (forward_spec Hm HpX HT) as [a_hat [c [E [Ha [Hc _]]]]].
  exists a_hat, c. split; [exact E|].
  pose proof Hm as [Hn _ _].
  split; [|split; assumption].
  unfold np.shape, np.nrows. rewrite (rect_ncols Ha Hn).
  destruct Ha as [Hal _]. rewrite Hal. reflexivity.
Qed.

Lemma forward_result_shape_witness :
  exists a_hat c,
    MarkovChain.forward chain_finite pX_zero_first = Ok (a_hat, c) /\
    np.shape a_hat = (2%nat, 3%nat) /\
    rect 2 3 a_hat /\
    length c = 4%nat.
Proof.
  apply (@forward_result_shape chain_finite pX_zero_first 3).
  - exact chain_finite_shape.
  - split; [reflexivity|]. repeat constructor.
  - lia.
Defined.

(** [probStateDuration(tmax)] has one row per state and [tmax] columns,
    also for a finite-duration chain, whose [A] has one column more than
    rows, and whatever the diagonal entries of [A] are. *)
Theorem probStateDuration_shape (m : MarkovChain.t) (tmax : nat) :
  model_shape m ->
  rect (MarkovChain.nStates m) tmax (MarkovChain.probStateDuration m tmax) /\
  np.shape (MarkovChain.probStateDuration m tmax) =
  (MarkovChain.nStates m, tmax).
Proof.
  intros Hm.
  assert (Hr : rect (MarkovChain.nStates m) tmax
                 (MarkovChain.probStateDuration m tmax)).
  { split.
    - unfold MarkovChain.probStateDuration. rewrite !length_map.
      apply model_shape_diag_length; assumption.
    - unfold MarkovChain.probStateDuration.
      rewrite Forall_forall. intros row Hin.
      rewrite map_map in Hin. apply in_map_iff in Hin.
      destruct Hin as [a [<- _]].
      rewrite !length_map. unfold np.arange. rewrite length_seq. lia. }
  split; [exact Hr|].
  pose proof Hm as [Hn _ _].
  unfold np.shape, np.nrows. rewrite (rect_ncols Hr Hn).
  destruct Hr as [Hl _]. rewrite Hl. reflexivity.
Qed.

Lemma probStateDuration_shape_witness :
  rect 2 4 (MarkovChain.probStateDuration chain_finite 4) /\
  np.shape (MarkovChain.probStateDuration chain_finite 4) = (2%nat, 4%nat).
Proof.
  apply (@probStateDuration_shape chain_finite 4).
  exact chain_finite_shape.
Defined.
